(** * async-service: request admission, pipes, abandonment, unload checks

    A shallow embedding of [src/async-service.js].  The module keeps three
    pieces of mutable state: the module-level hash [unloadChecks], and, per
    [Service], the sparse array [pending] and the hash [pipes].  Call objects
    are shared between [pending], the pipes and the closures handed to the
    transport, so they live in a store addressed by identity.  Both hashes
    are object literals: a name they have no property for is answered by
    [Object.prototype], and [for (i in ...)] visits their keys in the order
    of the language. *)

From stdpp Require Import gmap strings list fin_maps.
From Stdlib Require Import NArith Ascii.

Open Scope string_scope.
Open Scope list_scope.
Open Scope nat_scope.

(** ** JavaScript values the module tests for truthiness *)

(** A string is falsy exactly when it is empty. *)
Definition truthy (s : string) : bool := negb (String.eqb s "").

(** [name] as received by [unloadCheck]: [None] stands for [null] or
    [undefined]; [!name] holds for those and for the empty string. *)
Definition falsy_name (name : option string) : bool :=
  match name with
  | None => true
  | Some s => negb (truthy s)
  end.

(** [v.toString(16)] for [0 <= v < 16]. *)
Definition toString16 (v : N) : ascii :=
  match v with
  | 0%N => "0" | 1%N => "1" | 2%N => "2" | 3%N => "3"
  | 4%N => "4" | 5%N => "5" | 6%N => "6" | 7%N => "7"
  | 8%N => "8" | 9%N => "9" | 10%N => "a" | 11%N => "b"
  | 12%N => "c" | 13%N => "d" | 14%N => "e" | _ => "f"
  end%char.

Definition uuid_template : string := "xxxxxxxx-xxxx-4xxx-yxxx-xxxxxxxxxxxx".

(** The line break and the double quote the module puts into its texts. *)
Definition LF : string := String (ascii_of_nat 10) EmptyString.
Definition DQ : string := String (ascii_of_nat 34) EmptyString.

(** ** What [Object.prototype] answers for

    Reading [obj[name]] on an object literal that has no property [name] of
    its own gives what [Object.prototype] has under that name: a function
    for the method names below, [Object.prototype] itself for [__proto__],
    and [undefined] for every other name. *)
Inductive Inherited : Type :=
  | InheritedFunction (arity : nat)   (* a method; [arity] is its [length] *)
  | InheritedObject.                  (* [Object.prototype], under [__proto__] *)

Definition object_prototype_methods : list (string * nat) :=
  [("constructor", 1); ("toString", 0); ("toLocaleString", 0); ("valueOf", 0);
   ("hasOwnProperty", 1); ("isPrototypeOf", 1); ("propertyIsEnumerable", 1);
   ("__defineGetter__", 2); ("__defineSetter__", 2);
   ("__lookupGetter__", 1); ("__lookupSetter__", 1)].

Definition object_prototype (name : string) : option Inherited :=
  if String.eqb name "__proto__" then Some InheritedObject
  else
    match find (fun m => String.eqb (fst m) name) object_prototype_methods with
    | Some m => Some (InheritedFunction (snd m))
    | None => None
    end.

(** [v.length]: the arity of a function; [None] is [undefined]. *)
Definition inherited_length (v : Inherited) : option nat :=
  match v with
  | InheritedFunction n => Some n
  | InheritedObject => None
  end.

(** ** The order of [for (i in obj)]

    The keys that are array indices come first, in ascending numeric order,
    then the other keys in the order they were created. *)

Definition digit_value (a : ascii) : option N :=
  let n := N_of_ascii a in
  if ((48 <=? n) && (n <=? 57))%N then Some (n - 48)%N else None.

Fixpoint decimal (s : string) (acc : N) : option N :=
  match s with
  | EmptyString => Some acc
  | String a rest =>
      match digit_value a with
      | Some d => decimal rest (10 * acc + d)%N
      | None => None
      end
  end.

(** The array index a property name stands for, if it is one: the decimal
    numeral, without leading zeros, of a number below [2^32 - 1]. *)
Definition array_index (name : string) : option N :=
  match name with
  | EmptyString => None
  | String a rest =>
      if Ascii.eqb a "0" && negb (String.eqb rest "") then None
      else
        match decimal name 0 with
        | Some n => if (n <? 4294967295)%N then Some n else None
        | None => None
        end
  end.

Fixpoint insert_by_index {A : Type} (n : N) (x : string * A)
    (l : list (N * (string * A))) : list (N * (string * A)) :=
  match l with
  | [] => [(n, x)]
  | (m, y) :: rest =>
      if (n <? m)%N then (n, x) :: l else (m, y) :: insert_by_index n x rest
  end.

(** The properties whose key is an array index, in ascending order. *)
Fixpoint index_keys {A : Type} (l : list (string * A)) : list (N * (string * A)) :=
  match l with
  | [] => []
  | x :: rest =>
      match array_index (fst x) with
      | Some n => insert_by_index n x (index_keys rest)
      | None => index_keys rest
      end
  end.

(** The properties whose key is no array index, in creation order. *)
Fixpoint named_keys {A : Type} (l : list (string * A)) : list (string * A) :=
  match l with
  | [] => []
  | x :: rest =>
      match array_index (fst x) with
      | Some _ => named_keys rest
      | None => x :: named_keys rest
      end
  end.

(** The own properties [l], given in creation order, as [for-in] visits
    them. *)
Definition for_in {A : Type} (l : list (string * A)) : list (string * A) :=
  map snd (index_keys l) ++ named_keys l.

Section AsyncService.

(** The page state a check function may read and change when it runs. *)
Context {Env : Type}.

(** A check registered with [unloadCheck]: a zero-argument function that
    returns the text to add to the [onbeforeunload] alert. *)
Definition Producer : Type := Env -> string * Env.

(** ** The hash [unloadChecks]

    The own properties of the object, in the order they were created;
    [for_in] gives the order in which [for (i in unloadChecks)] visits
    them. *)
Definition Registry : Type := list (string * Producer).

Fixpoint reg_get (name : string) (reg : Registry) : option Producer :=
  match reg with
  | [] => None
  | (k, p) :: rest => if String.eqb k name then Some p else reg_get name rest
  end.

(** Assignment to an ordinary property: a present key keeps its place, a
    new key is created last. *)
Fixpoint reg_put (name : string) (check : Producer) (reg : Registry) : Registry :=
  match reg with
  | [] => [(name, check)]
  | (k, p) :: rest =>
      if String.eqb k name then (k, check) :: rest
      else (k, p) :: reg_put name check rest
  end.

(** [unloadChecks[name] = check].  Under the name [__proto__] the
    assignment reaches the setter of [Object.prototype]: the function
    becomes the prototype of [unloadChecks] and no property is created.  A
    check has no enumerable property of its own and [Object.prototype] stays
    in the chain, so nothing the module reads changes by it. *)
Definition reg_set (name : string) (check : Producer) (reg : Registry) : Registry :=
  if String.eqb name "__proto__" then reg else reg_put name check reg.

Fixpoint reg_delete (name : string) (reg : Registry) : Registry :=
  match reg with
  | [] => []
  | (k, p) :: rest =>
      if String.eqb k name then reg_delete name rest
      else (k, p) :: reg_delete name rest
  end.

Definition reg_keys (reg : Registry) : list string := map fst reg.

(** ** Call objects, promises, requests *)

(** Modelled from the spec: the promise of the [async] module, which is not
    part of this repository.  A promise is settled at most once, either
    fulfilled with a response or smashed with a reason. *)
Inductive PromiseState : Type :=
  | Unsettled
  | Fulfilled (response : string)
  | Smashed (reason : string).

Definition Payload : Type := list (string * string).

(** The argument object of [Call]; an omitted property is [None] (or
    [false] for the flags, which are only tested for truthiness). *)
Record CallArgs : Type := mkArgs {
  a_url : string;
  a_method : option string;
  a_data : option Payload;
  a_readOnly : bool;
  a_pipeName : option string;
  a_prioritize : bool;
  a_sync : bool
}.

(** The object literal of lines 152-165 together with the variables its
    closures capture ([abandoned], [promise]) and the property [unloadId]
    that [register] adds later. *)
Record CallObj : Type := mkCall {
  url : string;
  method : string;
  data : Payload;
  readOnly : bool;
  pipeName : string;
  prioritize : bool;
  async : bool;
  unloadId : option string;
  abandoned : bool;
  promise : PromiseState
}.

(** The options handed to [jQuery.ajax], with the call whose callbacks they
    carry. *)
Record Request : Type := mkRequest {
  req_call : nat;
  req_type : string;
  req_async : bool;
  req_url : string;
  req_data : Payload
}.

(** ** The whole state *)

Record World : Type := mkWorld {
  unloadChecks : Registry;
  rand : nat -> N;            (* successive values of Math.random() * 16 | 0 *)
  rand_next : nat;
  heap : list CallObj;        (* call objects, by identity *)
  svc_readOnly : bool;        (* the property readOnly of the service *)
  pending : list (option nat);(* sparse array: None is a hole *)
  pipes : gmap string (list nat);
  sent : list Request         (* calls of jQuery.ajax, oldest first *)
}.

Definition set_unloadChecks (f : Registry -> Registry) (w : World) : World :=
  mkWorld (f (unloadChecks w)) (rand w) (rand_next w) (heap w)
          (svc_readOnly w) (pending w) (pipes w) (sent w).
Definition set_rand_next (n : nat) (w : World) : World :=
  mkWorld (unloadChecks w) (rand w) n (heap w)
          (svc_readOnly w) (pending w) (pipes w) (sent w).
Definition set_heap (f : list CallObj -> list CallObj) (w : World) : World :=
  mkWorld (unloadChecks w) (rand w) (rand_next w) (f (heap w))
          (svc_readOnly w) (pending w) (pipes w) (sent w).
Definition set_svc_readOnly (b : bool) (w : World) : World :=
  mkWorld (unloadChecks w) (rand w) (rand_next w) (heap w)
          b (pending w) (pipes w) (sent w).
Definition set_pending (f : list (option nat) -> list (option nat)) (w : World) : World :=
  mkWorld (unloadChecks w) (rand w) (rand_next w) (heap w)
          (svc_readOnly w) (f (pending w)) (pipes w) (sent w).
Definition set_pipes (f : gmap string (list nat) -> gmap string (list nat)) (w : World) : World :=
  mkWorld (unloadChecks w) (rand w) (rand_next w) (heap w)
          (svc_readOnly w) (pending w) (f (pipes w)) (sent w).
Definition set_sent (f : list Request -> list Request) (w : World) : World :=
  mkWorld (unloadChecks w) (rand w) (rand_next w) (heap w)
          (svc_readOnly w) (pending w) (pipes w) (f (sent w)).

(** ** Computations: state and exceptions *)

Inductive Exn : Type :=
  | Thrown (msg : string)       (* throw '...' *)
  | TypeError (msg : string).

Inductive Res (A : Type) : Type :=
  | Ret (a : A) (w : World)
  | Throw (e : Exn) (w : World).
Arguments Ret {A} a w.
Arguments Throw {A} e w.

Definition M (A : Type) : Type := World -> Res A.

Definition ret {A} (a : A) : M A := fun w => Ret a w.
Definition throw {A} (e : Exn) : M A := fun w => Throw e w.
Definition bind {A B} (m : M A) (k : A -> M B) : M B :=
  fun w => match m w with
           | Ret a w' => k a w'
           | Throw e w' => Throw e w'
           end.
Definition modify (f : World -> World) : M unit := fun w => Ret tt (f w).
Definition gets {A} (f : World -> A) : M A := fun w => Ret (f w) w.

(** The state a computation leaves behind, returned or thrown. *)
Definition world_of {A} (r : Res A) : World :=
  match r with
  | Ret _ w => w
  | Throw _ w => w
  end.

Notation "x <- m ;; k" := (bind m (fun x => k))
  (at level 90, m at level 80, right associativity, only parsing).
Notation "m ;;; k" := (bind m (fun _ => k))
  (at level 90, right associativity, only parsing).

(** ** [unloadCheck] (lines 237-261) *)

(** [Math.random() * 16 | 0] *)
Definition random16 : M N :=
  fun w => Ret (rand w (rand_next w) mod 16)%N (set_rand_next (S (rand_next w)) w).

(** The callback of [replace(/[xy]/g, ...)], applied to every [x] and [y] of
    the template from left to right; other characters stay. *)
Fixpoint uuid_replace (tpl : string) : M string :=
  match tpl with
  | EmptyString => ret EmptyString
  | String c rest =>
      if Ascii.eqb c "x" || Ascii.eqb c "y" then
        r <- random16 ;;
        let v := if Ascii.eqb c "x" then r else N.lor (N.land r 3) 8 in
        rest' <- uuid_replace rest ;;
        ret (String (toString16 v) rest')
      else
        rest' <- uuid_replace rest ;;
        ret (String c rest')
  end.

(** [check = None] is the call with one argument ([arguments.length === 1]),
    which deletes and returns [undefined]. *)
Definition unloadCheck (name : option string) (check : option Producer)
  : M (option string) :=
  name' <- (if falsy_name name then uuid_replace uuid_template
            else ret (default "" name)) ;;
  match check with
  | None =>
      modify (set_unloadChecks (reg_delete name')) ;;;
      ret None
  | Some f =>
      modify (set_unloadChecks (reg_set name' f)) ;;;
      ret (Some name')
  end.

(** ** [window.onbeforeunload] (lines 263-292) *)

(** One run of the handler: what it returns, what it stores in
    [e.returnValue], the page state afterwards, and every call of a check
    function in order with the key it is stored under and what it returned
    (a check called as [unloadChecks.hasOwnProperty] is stored under that
    key). *)
Record UnloadRun : Type := mkRun {
  returned : option string;
  returnValue : option string;
  env_after : Env;
  invoked : list (string * string)
}.

(** [unloadChecks.hasOwnProperty(i)] for a key [i] under enumeration (line
    271).  The method comes from [Object.prototype] and answers [true] for
    such a key, unless a check is stored under the name [hasOwnProperty]:
    then that check is what is called, and the text it returns is tested
    for truthiness. *)
Definition hasOwnProperty (reg : Registry) (e : Env)
    (log : list (string * string)) : bool * Env * list (string * string) :=
  match reg_get "hasOwnProperty" reg with
  | None => (true, e, log)
  | Some h => let '(t, e') := h e in (truthy t, e', log ++ [("hasOwnProperty", t)])
  end.

(** The body of the [for (i in unloadChecks)] loop for the entries still to
    visit.  [unloadChecks[i]] is the entry under enumeration. *)
Fixpoint unload_loop (reg todo : Registry) (message : string) (e : Env)
    (log : list (string * string)) : string * Env * list (string * string) :=
  match todo with
  | [] => (message, e, log)
  | (i, f) :: rest =>
      let '(own, e0, log0) := hasOwnProperty reg e log in
      if own then
        let '(check, e1) := f e0 in
        if truthy check then
          let '(again, e2) := f e1 in
          unload_loop reg rest (message +:+ again +:+ LF) e2
                      (log0 ++ [(i, check); (i, again)])
        else
          unload_loop reg rest message e1 (log0 ++ [(i, check)])
      else
        unload_loop reg rest message e0 log0
  end.

(** [has_event] tells whether [e || window.event] is truthy. *)
Definition onbeforeunload (has_event : bool) (reg : Registry) (e : Env) : UnloadRun :=
  let '(message, e', log) := unload_loop reg (for_in reg) "" e [] in
  if String.eqb message "" then mkRun None None e' log
  else mkRun (Some message) (if has_event then Some message else None) e' log.

(** ** The service (lines 38-222) *)

Inductive Outcome : Type := proceed | delay.

Definition set_unloadId (id : option string) (o : CallObj) : CallObj :=
  mkCall (url o) (method o) (data o) (readOnly o) (pipeName o) (prioritize o)
         (async o) id (abandoned o) (promise o).
Definition set_abandoned (b : bool) (o : CallObj) : CallObj :=
  mkCall (url o) (method o) (data o) (readOnly o) (pipeName o) (prioritize o)
         (async o) (unloadId o) b (promise o).
Definition set_promise (s : PromiseState) (o : CallObj) : CallObj :=
  mkCall (url o) (method o) (data o) (readOnly o) (pipeName o) (prioritize o)
         (async o) (unloadId o) (abandoned o) s.

(** Run [k] on the call object behind the reference [c].  A reference the
    store does not hold cannot arise in the program; it is an error here. *)
Definition with_call {A} (c : nat) (k : CallObj -> M A) : M A :=
  fun w => match heap w !! c with
           | Some o => k o w
           | None => Throw (TypeError "no such call object") w
           end.

(** The first index [i] with [!(i in pending)]; [pending.length] when the
    array has no hole. *)
Fixpoint first_free (p : list (option nat)) : nat :=
  match p with
  | [] => 0
  | None :: _ => 0
  | Some _ :: rest => S (first_free rest)
  end.

(** [pending[i] = call] *)
Definition array_store (i c : nat) (p : list (option nat)) : list (option nat) :=
  if i <? length p then <[i := Some c]> p
  else p ++ replicate (i - length p) None ++ [Some c].

(** [jQuery.inArray(call, pending)]: the first index holding the very object,
    [None] for -1. *)
Fixpoint inArray (c : nat) (p : list (option nat)) : option nat :=
  match p with
  | [] => None
  | x :: rest =>
      if decide (x = Some c) then Some 0 else S <$> inArray c rest
  end.

(** [i = jQuery.inArray(call, pending); if (i > -1) { delete pending[i]; }] *)
Definition array_delete (c : nat) (p : list (option nat)) : list (option nat) :=
  match inArray c p with
  | Some i => <[i := None]> p
  | None => p
  end.

(** [pipe[1] = [pipe[0], pipe[0] = pipe[1]][0]]: exchange the first two
    elements.  It runs right after [unshift] on a non-empty pipe, so there
    are two. *)
Definition swap01 (pipe : list nat) : list nat :=
  match pipe with
  | a :: b :: rest => b :: a :: rest
  | _ => pipe
  end.

(** [call.sync]: the call object has the property [async] and no property
    [sync], so the read gives [undefined], which is falsy. *)
Definition call_sync (o : CallObj) : bool := false.

(** [call.makeRequest] (lines 172-195): hand the request to [jQuery.ajax]. *)
Definition makeRequest (c : nat) : M unit :=
  with_call c (fun call =>
    modify (set_sent (fun s =>
      s ++ [mkRequest c (method call) (negb (call_sync call)) (url call) (data call)]))).

(** The check [register] passes to [unloadCheck] (lines 60-63). *)
Definition pending_check (call : CallObj) : Producer :=
  fun e => ("Pending: " +:+ method call +:+ ": " +:+ url call, e).

(** What [pipes[name]] reads.  The map [pipes w] holds the properties the
    object has of its own, which are the arrays the service stored; any
    other name is answered by [Object.prototype]. *)
Inductive PipeRead : Type :=
  | OwnPipe (pipe : list nat)
  | FromPrototype (v : Inherited)
  | Undefined.

Definition pipes_read (name : string) (w : World) : PipeRead :=
  match pipes w !! name with
  | Some pipe => OwnPipe pipe
  | None =>
      match object_prototype name with
      | Some v => FromPrototype v
      | None => Undefined
      end
  end.

(** [register] (lines 44-85).  A value found on the prototype is truthy, so
    line 67 is skipped for it; it is no array, so [unshift] and [push] are
    [undefined] on it and the call of line 73 or 77 throws. *)
Definition register (c : nat) : M Outcome :=
  with_call c (fun call =>
    let prio := prioritize call in
    let name := pipeName call in
    i <- gets (fun w => first_free (pending w)) ;;
    modify (set_pending (array_store i c)) ;;;
    id <- unloadCheck None (Some (pending_check call)) ;;
    modify (set_heap (alter (set_unloadId id) c)) ;;;
    if truthy name then
      p <- gets (pipes_read name) ;;
      match p with
      | FromPrototype v =>
          if prio && match inherited_length v with
                     | Some n => 0 <? n
                     | None => false
                     end
          then throw (TypeError "pipe.unshift is not a function")
          else throw (TypeError "pipe.push is not a function")
      | _ =>
          let pipe := match p with OwnPipe l => l | _ => [] end in
          let pipe' := if prio && (0 <? length pipe)
                       then swap01 (c :: pipe)
                       else pipe ++ [c] in
          modify (set_pipes <[name := pipe']>) ;;;
          if 1 <? length pipe' then ret delay else ret proceed
      end
    else ret proceed).

(** [deregister] (lines 87-114).  A value found on the prototype passes the
    test of line 99 and has no [shift]: line 103 throws. *)
Definition deregister (c : nat) : M unit :=
  with_call c (fun call =>
    let name := pipeName call in
    unloadCheck (unloadId call) None ;;;
    (if truthy name then
       p <- gets (pipes_read name) ;;
       match p with
       | Undefined => throw (Thrown ("Unknown pipe " +:+ DQ +:+ name +:+ DQ))
       | FromPrototype _ => throw (TypeError "pipe.shift is not a function")
       | OwnPipe pipe =>
           modify (set_pipes <[name := tail pipe]>) ;;;
           match tail pipe with
           | next :: _ => makeRequest next
           | [] => ret tt
           end
       end
     else ret tt) ;;;
    modify (set_pending (array_delete c))).

(** [isClean] (lines 116-124) *)
Definition isClean (w : World) : bool :=
  forallb (fun slot => match slot with
                       | Some c => from_option readOnly true (heap w !! c)
                       | None => true
                       end) (pending w).

(** [pipeLength] (lines 126-132).  The result is the [length] of what
    [pipes[pipeName]] reads; [None] is [undefined]. *)
Definition pipeLength (name : string) : M (option nat) :=
  p <- gets (pipes_read name) ;;
  match p with
  | Undefined => throw (Thrown ("Unknown pipe " +:+ DQ +:+ name +:+ DQ))
  | FromPrototype v => ret (inherited_length v)
  | OwnPipe pipe => ret (Some (length pipe))
  end.

(** Modelled from the spec: settling a promise of the [async] module.  The
    first settlement fixes the state and runs the callback attached for it;
    a later one does nothing. *)
Definition settle (c : nat) (s : PromiseState) (callback : M unit) : M unit :=
  with_call c (fun call =>
    match promise call with
    | Unsettled => modify (set_heap (alter (set_promise s) c)) ;;; callback
    | _ => ret tt
    end).

(** The promise of lines 166-170 has [deregister(call)] attached both with
    [when] and with [fail]. *)
Definition fulfill (c : nat) (response : string) : M unit :=
  settle c (Fulfilled response) (deregister c).
Definition smash (c : nat) (reason : string) : M unit :=
  settle c (Smashed reason) (deregister c).

(** [call.abandon] (lines 161-164) *)
Definition call_abandon (c : nat) : M unit :=
  modify (set_heap (alter (set_abandoned true) c)) ;;;
  deregister c.

(** The [success] and [error] callbacks given to [jQuery.ajax]. *)
Definition on_success (c : nat) (response : string) : M unit :=
  with_call c (fun call =>
    if abandoned call then ret tt else fulfill c response).
Definition on_error (c : nat) (textStatus responseText : string) : M unit :=
  with_call c (fun call =>
    if abandoned call then ret tt
    else smash c (textStatus +:+ ": " +:+ responseText)).

Definition or_string (o : option string) (d : string) : string :=
  match o with
  | Some s => if truthy s then s else d
  | None => d
  end.

(** The object literal of lines 152-165, with [abandoned = false] and a
    fresh promise. *)
Definition new_call (args : CallArgs) : CallObj :=
  mkCall (a_url args) (or_string (a_method args) "GET") (default [] (a_data args))
         (a_readOnly args) (or_string (a_pipeName args) "") (a_prioritize args)
         (negb (a_sync args)) None false Unsettled.

Definition gate_message : string :=
  "All non read-only requests have been disabled!".

(** [Call] (lines 148-204), with the function it reaches for registration
    left open.  The result is the reference of the call, whose promise is
    what the function returns. *)
Definition Call_through (reg : nat -> M Outcome) (args : CallArgs) : M nat :=
  c <- gets (fun w => length (heap w)) ;;
  modify (set_heap (fun h => h ++ [new_call args])) ;;;
  gate <- gets svc_readOnly ;;
  if negb (readOnly (new_call args)) && gate then
    smash c gate_message ;;; ret c
  else
    r <- reg c ;;
    match r with
    | proceed => makeRequest c ;;; ret c
    | delay => ret c
    end.

(** [pending.register]: [pending] is the array of line 41, which has no
    property [register]; calling [undefined] throws. *)
Definition pending_register (c : nat) : M Outcome :=
  throw (TypeError "pending.register is not a function").

(** [Call] as line 199 writes it. *)
Definition Call : CallArgs -> M nat := Call_through pending_register.

(** Lines 199-200 with the function [register] of line 44 as the callee:
    register the call and issue its request on [proceed]. *)
Definition Call_register : CallArgs -> M nat := Call_through register.

(** The body of the loop of [abandon] (lines 206-213) at index [i]. *)
Definition abandon_at (i : nat) (m u : string) : M unit :=
  slot <- gets (fun w => pending w !! i) ;;
  match slot with
  | Some (Some c) =>
      with_call c (fun call =>
        if String.eqb (method call) m && String.eqb (url call) u
        then call_abandon c else ret tt)
  | _ => ret tt
  end.

(** The loop from index [i] on; [fuel] bounds the number of iterations. *)
Fixpoint abandon_from (fuel i : nat) (m u : string) : M unit :=
  match fuel with
  | 0 => ret tt
  | S fuel' =>
      len <- gets (fun w => length (pending w)) ;;
      if i <? len then
        abandon_at i m u ;;;
        abandon_from fuel' (S i) m u
      else ret tt
  end.

(** The array does not grow while the loop runs, so its length at the start
    is fuel enough. *)
Definition abandon (m u : string) : M unit :=
  len <- gets (fun w => length (pending w)) ;;
  abandon_from len 0 m u.

(** [exports.Service] (lines 38-222): the function takes no parameter, so
    whatever it is given is ignored; the object it returns has an empty
    [pending], no pipes and [readOnly: false]. *)
Definition Service (args : option bool) (w : World) : World :=
  mkWorld (unloadChecks w) (rand w) (rand_next w) (heap w) false [] ∅ (sent w).

(** The module just loaded: no check registered, nothing sent. *)
Definition loaded (rnd : nat -> N) : World :=
  mkWorld [] rnd 0 [] false [] ∅ [].

(** The module just loaded, with one service. *)
Definition init (rnd : nat -> N) : World := Service None (loaded rnd).

(** ** What can happen to a service *)

Inductive Event : Type :=
  | ECall (args : CallArgs)                 (* service.Call(args) *)
  | ERegister (args : CallArgs)                (* admission through register *)
  | ESetReadOnly (b : bool)                 (* service.readOnly = b *)
  | EAbandon (m u : string)                 (* service.abandon(m, u) *)
  | ESuccess (c : nat) (response : string)  (* the transport answers *)
  | EError (c : nat) (textStatus responseText : string)
  | EDeregister (c : nat)                   (* deregister(call) on its own *)
  | EUnloadCheck (name : option string) (check : option Producer).

Definition was_sent (c : nat) (w : World) : bool :=
  existsb (fun r => Nat.eqb (req_call r) c) (sent w).

(** The state after an event, whether the code returned or threw.  The
    transport only answers requests it was given. *)
Definition exec (ev : Event) (w : World) : World :=
  match ev with
  | ECall args => world_of (Call args w)
  | ERegister args => world_of (Call_register args w)
  | ESetReadOnly b => set_svc_readOnly b w
  | EAbandon m u => world_of (abandon m u w)
  | ESuccess c response =>
      if was_sent c w then world_of (on_success c response w) else w
  | EError c textStatus responseText =>
      if was_sent c w then world_of (on_error c textStatus responseText w) else w
  | EDeregister c => world_of (deregister c w)
  | EUnloadCheck name check => world_of (unloadCheck name check w)
  end.

Definition run (evs : list Event) (w : World) : World :=
  foldl (fun w ev => exec ev w) w evs.

(** ** Notions the properties are stated with *)

(** Whether [pipes[name]] is answered by [Object.prototype]. *)
Definition inherits (name : string) (w : World) : bool :=
  match pipes_read name w with
  | FromPrototype _ => true
  | _ => false
  end.

(** The error of lines 73 and 77 on a value that is no array. *)
Definition not_an_array (prio : bool) (v : Inherited) : Exn :=
  if prio && match inherited_length v with
             | Some n => 0 <? n
             | None => false
             end
  then TypeError "pipe.unshift is not a function"
  else TypeError "pipe.push is not a function".

(** What [deregister] throws when [pipes[name]] is no array of the
    service. *)
Definition no_pipe (name : string) : Exn :=
  match object_prototype name with
  | Some _ => TypeError "pipe.shift is not a function"
  | None => Thrown ("Unknown pipe " +:+ DQ +:+ name +:+ DQ)
  end.

(** The keys of [unloadChecks] are properties of its own. *)
Definition keys_own (w : World) : Prop :=
  "__proto__" ∉ reg_keys (unloadChecks w).

(** [register] on the calls [cs], one after the other. *)
Fixpoint register_each (cs : list nat) : M (list Outcome) :=
  match cs with
  | [] => ret []
  | c :: rest =>
      r <- register c ;;
      rs <- register_each rest ;;
      ret (r :: rs)
  end.

(** How a call object may differ from an earlier version of itself: what
    the literal fixed stays, and [abandoned] never goes back to [false]. *)
Definition call_evolves (o o' : CallObj) : Prop :=
  url o' = url o /\ method o' = method o /\ data o' = data o /\
  readOnly o' = readOnly o /\ pipeName o' = pipeName o /\
  prioritize o' = prioritize o /\ async o' = async o /\
  (abandoned o = true -> abandoned o' = true).

(** The keys of [unloadChecks] are truthy. *)
Definition keys_truthy (w : World) : Prop :=
  forall k, k ∈ reg_keys (unloadChecks w) -> truthy k = true.

(** What every operation keeps: call objects stay where they are, pipes are
    never removed, requests are never taken back. *)
Record extends (w w' : World) : Prop := mkExtends {
  ext_heap : forall c o, heap w !! c = Some o ->
             exists o', heap w' !! c = Some o' /\ call_evolves o o';
  ext_pipes : forall n, is_Some (pipes w !! n) -> is_Some (pipes w' !! n);
  ext_sent : forall c, was_sent c w = true -> was_sent c w' = true;
  ext_keys : keys_truthy w -> keys_truthy w'
}.

(** The discipline the pipes are kept in: whoever stands behind the head of
    a pipe has not been handed to the transport; a pipe holds a call at most
    once, and only calls that name it; requests belong to existing calls. *)
Record pipes_ok (w : World) : Prop := mkPipesOk {
  ok_waiting : forall n pipe i c,
    pipes w !! n = Some pipe -> pipe !! S i = Some c -> was_sent c w = false;
  ok_nodup : forall n pipe, pipes w !! n = Some pipe -> NoDup pipe;
  ok_member : forall n pipe c,
    pipes w !! n = Some pipe -> c ∈ pipe ->
    exists o, heap w !! c = Some o /\ pipeName o = n;
  ok_sent : forall c, was_sent c w = true -> c < length (heap w)
}.

(** The slots of [pending] hold existing calls. *)
Definition pending_ok (w : World) : Prop :=
  forall i c, pending w !! i = Some (Some c) -> c < length (heap w).

(** The array [pending] keeps its length. *)
Definition same_slots (w w' : World) : Prop :=
  length (pending w') = length (pending w).

(** No call sits in two slots of [pending]. *)
Definition pending_distinct (w : World) : Prop :=
  forall i j c,
    pending w !! i = Some (Some c) -> pending w !! j = Some (Some c) -> i = j.

(** The test [isClean] makes on a slot: a hole passes, a call passes when it
    is read-only. *)
Definition slot_clean (h : list CallObj) (slot : option nat) : bool :=
  match slot with
  | Some c => from_option readOnly true (h !! c)
  | None => true
  end.

(** No call was handed to the transport twice. *)
Definition sent_once (w : World) : Prop := NoDup (map req_call (sent w)).

(** The test of the loop of [abandon] (line 209). *)
Definition matches (m u : string) (o : CallObj) : bool :=
  String.eqb (method o) m && String.eqb (url o) u.

(** A slot after the sweep of [abandon], judged on the call objects [h]
    there were before it: a matching call has left, any other stays. *)
Definition swept (m u : string) (h : list CallObj) (slot : option nat) : option nat :=
  match slot with
  | Some c => if from_option (matches m u) false (h !! c) then None else Some c
  | None => None
  end.

(** The pipe that a call in [pending] names exists, unless the name is one
    [Object.prototype] answers for. *)
Definition pipe_known (w : World) : Prop :=
  forall i c o,
    pending w !! i = Some (Some c) -> heap w !! c = Some o ->
    truthy (pipeName o) = true -> object_prototype (pipeName o) = None ->
    is_Some (pipes w !! pipeName o).

(** What holds of [pending] and the pipes in every state a service can
    reach. *)
Record service_ok (w : World) : Prop := mkServiceOk {
  so_pipes : pipes_ok w;
  so_pending : pending_ok w;
  so_distinct : pending_distinct w;
  so_known : pipe_known w
}.


(** The pipe after [register] has put [c] in: lines 71-78 as a function of
    the pipe before. *)
Definition enqueued (prio : bool) (c : nat) (pipe : list nat) : list nat :=
  if prio && (0 <? length pipe) then swap01 (c :: pipe) else pipe ++ [c].






End AsyncService.

Arguments Producer : clear implicits.
Arguments Registry : clear implicits.
Arguments World : clear implicits.
Arguments Res : clear implicits.
Arguments M : clear implicits.
Arguments UnloadRun : clear implicits.
Arguments Event : clear implicits.
Arguments Ret {Env A} a w.
Arguments Throw {Env A} e w.
Arguments mkWorld {Env} _ _ _ _ _ _ _ _.
Arguments mkRun {Env} _ _ _ _.

(** A check that also writes down, in the page state, the key it is stored
    under and what it returned. *)
Definition instrument {Env : Type} (reg : Registry Env)
  : Registry (Env * list (string * string)) :=
  map (fun '(k, f) =>
         (k, fun '(e, seen) => let '(r, e') := f e in (r, (e', seen ++ [(k, r)]))))
      reg.

(** ** The shape of a generated name *)

Definition is_hex (d : ascii) : bool :=
  existsb (Ascii.eqb d)
    ["0"; "1"; "2"; "3"; "4"; "5"; "6"; "7"; "8"; "9";
     "a"; "b"; "c"; "d"; "e"; "f"]%char.

Definition is_89ab (d : ascii) : bool :=
  existsb (Ascii.eqb d) ["8"; "9"; "a"; "b"]%char.

(** [d] may stand where the template has [c]: a hex digit for [x], one of
    8, 9, a, b for [y], the character itself otherwise. *)
Definition uuid_char_ok (c d : ascii) : bool :=
  if Ascii.eqb c "x" then is_hex d
  else if Ascii.eqb c "y" then is_89ab d
  else Ascii.eqb c d.

Fixpoint uuid_shape (tpl s : string) : bool :=
  match tpl, s with
  | EmptyString, EmptyString => true
  | String c tpl', String d s' => uuid_char_ok c d && uuid_shape tpl' s'
  | _, _ => false
  end.

(** The number of [x] and [y] in a template: one random number each. *)
Fixpoint count_xy (tpl : string) : nat :=
  match tpl with
  | EmptyString => 0
  | String c rest =>
      (if Ascii.eqb c "x" || Ascii.eqb c "y" then 1 else 0) + count_xy rest
  end.

(** Checks that return a fixed text and leave the page state alone, as the
    check of a pending call does. *)
Definition constant_checks {Env : Type} (texts : list (string * string))
  : Registry Env :=
  map (fun '(k, s) => (k, fun e : Env => (s, e))) texts.

(** The message such checks add up to. *)
Definition constant_message (texts : list (string * string)) : string :=
  foldr (fun '(_, s) rest => if truthy s then s +:+ LF +:+ rest else rest)
        "" texts.

Fixpoint text_get (name : string) (texts : list (string * string)) : option string :=
  match texts with
  | [] => None
  | (k, s) :: rest => if String.eqb k name then Some s else text_get name rest
  end.

(** What the test of line 271 answers on such checks: [true] from the
    method of [Object.prototype], or the truthiness of the text stored
    under [hasOwnProperty]. *)
Definition constant_filter (texts : list (string * string)) : bool :=
  match text_get "hasOwnProperty" texts with
  | Some t => truthy t
  | None => true
  end.

(** ** Concrete inputs the properties are exercised on *)

Definition demo_rnd : nat -> N := N.of_nat.

(** [{url: u, method: m, pipeName: "p", prioritize: prio}] *)
Definition demo_args (u m : string) (prio : bool) : CallArgs :=
  mkArgs u (Some m) None false (Some "p") prio false.

(** [{url: "/x", sync: true}] *)
Definition demo_plain : CallArgs := mkArgs "/x" None None false None false true.

(** A check that answers ["first"] when called for the first time and
    ["second"] afterwards; the page state counts its calls. *)
Definition demo_counting : Producer nat :=
  fun n => (if Nat.eqb n 0 then "first" else "second", S n).

Definition demo_silent : Producer nat := fun n => ("", n).

Definition demo_registry : Registry nat :=
  [("a", demo_counting); ("b", demo_silent)].

(** [{url: "/r", readOnly: true}] *)
Definition demo_readonly : CallArgs :=
  mkArgs "/r" None None true None false false.

(** A fresh service and one call object made for pipe ["p"], before
    [register] has seen it. *)
Definition demo_made : World unit :=
  set_heap (fun h => h ++ [new_call (demo_args "/a" "GET" false)])
           (init demo_rnd).

(** A fresh service and two call objects made for pipe ["p"], before
    [register] has seen them. *)
Definition demo_made_two : World unit :=
  set_heap (fun h => h ++ [new_call (demo_args "/a" "GET" false);
                           new_call (demo_args "/b" "GET" false)])
           (init demo_rnd).

(** A fresh service after three calls into pipe ["p"]. *)
Definition demo_queue : World unit :=
  run [ERegister (demo_args "/a" "GET" false);
       ERegister (demo_args "/b" "GET" false);
       ERegister (demo_args "/c" "GET" false)] (init demo_rnd).

(** A fresh service after one call that names no pipe. *)
Definition demo_single : World unit :=
  run [ERegister demo_plain] (init demo_rnd).




(** The call object with identity [c] as a state has it. *)
Definition call_at {Env : Type} (c : nat) (w : World Env) : CallObj :=
  default (new_call demo_plain) (heap w !! c).

(** * Properties *)

Section Properties.

Context {Env : Type}.
Implicit Types (w : World Env) (reg : Registry Env) (check : Producer Env).

(** ** Strings and truthiness *)

Lemma truthy_true (s : string) : truthy s = true <-> s <> "".
Proof.
  unfold truthy. rewrite negb_true_iff. apply String.eqb_neq.
Qed.

Lemma truthy_false (s : string) : truthy s = false <-> s = "".
Proof.
  unfold truthy. rewrite negb_false_iff. apply String.eqb_eq.
Qed.

(** ** The registry *)

Lemma reg_set_ordinary name check reg :
  name <> "__proto__" -> reg_set name check reg = reg_put name check reg.
Proof.
  intros Hne. unfold reg_set.
  destruct (String.eqb name "__proto__") eqn:E; [|done].
  by apply String.eqb_eq in E.
Qed.

Lemma reg_set_proto check reg : reg_set "__proto__" check reg = reg.
Proof. reflexivity. Qed.

Lemma reg_get_put_eq name check reg :
  reg_get name (reg_put name check reg) = Some check.
Proof.
  induction reg as [|[k p] rest IH]; simpl.
  - by rewrite String.eqb_refl.
  - destruct (String.eqb k name) eqn:E; simpl; rewrite E; [done | apply IH].
Qed.

Lemma reg_get_set_eq name check reg :
  name <> "__proto__" -> reg_get name (reg_set name check reg) = Some check.
Proof. intros Hne. rewrite reg_set_ordinary by done. apply reg_get_put_eq. Qed.

Lemma reg_get_put_ne name other check reg :
  other <> name ->
  reg_get other (reg_put name check reg) = reg_get other reg.
Proof.
  intros Hne. induction reg as [|[k p] rest IH]; simpl.
  - destruct (String.eqb name other) eqn:E; [|done].
    apply String.eqb_eq in E. congruence.
  - destruct (String.eqb k name) eqn:E; simpl.
    + apply String.eqb_eq in E. subst k.
      destruct (String.eqb name other) eqn:E'; [|done].
      apply String.eqb_eq in E'. congruence.
    + by rewrite IH.
Qed.

Lemma reg_get_set_ne name other check reg :
  other <> name ->
  reg_get other (reg_set name check reg) = reg_get other reg.
Proof.
  intros Hne. unfold reg_set. destruct (String.eqb name "__proto__"); [done|].
  by apply reg_get_put_ne.
Qed.

Lemma reg_get_Some_key name reg (p : Producer Env) :
  reg_get name reg = Some p -> name ∈ reg_keys reg.
Proof.
  unfold reg_keys. induction reg as [|[k q] rest IH]; cbn [reg_get map fst]; [done|].
  destruct (String.eqb k name) eqn:E.
  - apply String.eqb_eq in E. subst. intros _. apply elem_of_cons. by left.
  - intros H. apply elem_of_cons. right. by apply IH.
Qed.

Lemma reg_get_None_key name reg :
  reg_get name reg = None <-> name ∉ reg_keys reg.
Proof.
  unfold reg_keys. induction reg as [|[k q] rest IH]; cbn [reg_get map fst].
  - split; [intros _; apply not_elem_of_nil | done].
  - rewrite not_elem_of_cons. destruct (String.eqb k name) eqn:E.
    + apply String.eqb_eq in E. subst. split; [done | by intros [? _]].
    + apply String.eqb_neq in E. rewrite IH. split; [by split | by intros [_ ?]].
Qed.

Lemma reg_keys_put_present name check reg :
  name ∈ reg_keys reg ->
  reg_keys (reg_put name check reg) = reg_keys reg.
Proof.
  unfold reg_keys. induction reg as [|[k p] rest IH]; simpl; intros Hin.
  - by apply elem_of_nil in Hin.
  - destruct (String.eqb k name) eqn:E; simpl; [done|].
    f_equal. apply IH. apply elem_of_cons in Hin as [->|Hin]; [|done].
    by rewrite String.eqb_refl in E.
Qed.

Lemma reg_keys_set_present name check reg :
  name ∈ reg_keys reg ->
  reg_keys (reg_set name check reg) = reg_keys reg.
Proof.
  intros Hin. unfold reg_set. destruct (String.eqb name "__proto__"); [done|].
  by apply reg_keys_put_present.
Qed.

Lemma reg_keys_put name check reg key :
  key ∈ reg_keys (reg_put name check reg) -> key = name \/ key ∈ reg_keys reg.
Proof.
  unfold reg_keys. induction reg as [|[k p] rest IH]; simpl.
  - intros Hin. apply elem_of_cons in Hin as [->|Hin]; [by left|].
    by apply elem_of_nil in Hin.
  - destruct (String.eqb k name) eqn:E; simpl; intros Hin.
    + by right.
    + apply elem_of_cons in Hin as [->|Hin].
      * right. apply elem_of_cons. by left.
      * destruct (IH Hin) as [->|H']; [by left|].
        right. apply elem_of_cons. by right.
Qed.

Lemma reg_keys_set name check reg key :
  key ∈ reg_keys (reg_set name check reg) -> key = name \/ key ∈ reg_keys reg.
Proof.
  unfold reg_set. destruct (String.eqb name "__proto__"); [by right|].
  apply reg_keys_put.
Qed.

(** Assignment never makes [__proto__] a key. *)
Lemma reg_keys_set_own name check reg :
  "__proto__" ∉ reg_keys reg -> "__proto__" ∉ reg_keys (reg_set name check reg).
Proof.
  intros Hown. unfold reg_set.
  destruct (String.eqb name "__proto__") eqn:E; [done|].
  apply String.eqb_neq in E. intros Hin.
  apply reg_keys_put in Hin as [Hin|Hin]; [congruence | done].
Qed.

Lemma reg_keys_delete name reg key :
  key ∈ reg_keys (reg_delete name reg) -> key ∈ reg_keys reg.
Proof.
  unfold reg_keys. induction reg as [|[k p] rest IH]; simpl; [done|].
  destruct (String.eqb k name) eqn:E; simpl; intros Hin.
  - apply elem_of_cons. right. by apply IH.
  - apply elem_of_cons in Hin as [->|Hin]; apply elem_of_cons; [by left|].
    right. by apply IH.
Qed.

(** ** [unloadCheck] *)

Lemma set_rand_next_id w : set_rand_next (rand_next w) w = w.
Proof. by destruct w. Qed.

Lemma toString16_hex (v : N) : is_hex (toString16 v) = true.
Proof.
  destruct v as [|p]; [reflexivity|].
  do 4 (try (destruct p as [p|p|]; try reflexivity)).
Qed.

Lemma toString16_y (r : N) : is_89ab (toString16 (N.lor (N.land r 3) 8)) = true.
Proof.
  destruct r as [|p]; [reflexivity|].
  destruct p as [[p|p|]|[p|p|]|]; reflexivity.
Qed.

Lemma uuid_replace_shape (tpl : string) w :
  exists s,
    uuid_replace tpl w = Ret s (set_rand_next (rand_next w + count_xy tpl) w)
    /\ uuid_shape tpl s = true.
Proof.
  revert w. induction tpl as [|c rest IH]; intros w; cbn [uuid_replace count_xy].
  - exists "". rewrite Nat.add_0_r, set_rand_next_id. done.
  - destruct (Ascii.eqb c "x" || Ascii.eqb c "y") eqn:E.
    + unfold bind, random16 at 1.
      destruct (IH (set_rand_next (S (rand_next w)) w)) as (s & -> & Hs).
      eexists. split.
      * unfold ret. f_equal. cbn [rand_next set_rand_next].
        unfold set_rand_next. cbn. f_equal. lia.
      * cbn [uuid_shape]. rewrite Hs, andb_true_r. unfold uuid_char_ok.
        destruct (Ascii.eqb c "x") eqn:Ex; [apply toString16_hex|].
        cbn [orb] in E. rewrite E. apply toString16_y.
    + unfold bind. destruct (IH w) as (s & -> & Hs).
      eexists. split; [reflexivity|].
      cbn [uuid_shape]. rewrite Hs, andb_true_r. unfold uuid_char_ok.
      apply orb_false_iff in E as [-> ->]. apply Ascii.eqb_refl.
Qed.

Lemma uuid_shape_length (tpl s : string) :
  uuid_shape tpl s = true -> String.length s = String.length tpl.
Proof.
  revert s. induction tpl as [|c rest IH]; intros [|d s]; cbn; try done.
  intros [_ H]%andb_true_iff. f_equal. by apply IH.
Qed.

Lemma uuid_shape_fixed (tpl s : string) (i : nat) (c : ascii) :
  uuid_shape tpl s = true ->
  String.get i tpl = Some c -> c <> "x"%char -> c <> "y"%char ->
  String.get i s = Some c.
Proof.
  revert s i. induction tpl as [|c0 rest IH]; intros [|d s] i; cbn; try done.
  intros [Hc H]%andb_true_iff. destruct i as [|i].
  - intros [= ->] Hx Hy. unfold uuid_char_ok in Hc.
    apply Ascii.eqb_neq in Hx, Hy. rewrite Hx, Hy in Hc.
    apply Ascii.eqb_eq in Hc. by subst.
  - by apply IH.
Qed.

Lemma uuid_shape_truthy (s : string) :
  uuid_shape uuid_template s = true -> truthy s = true.
Proof. intros Hs. apply truthy_true. intros ->. discriminate Hs. Qed.

Lemma uuid_shape_own (s : string) :
  uuid_shape uuid_template s = true -> s <> "__proto__".
Proof. intros Hs ->. discriminate Hs. Qed.

Lemma uuid_replace_ret (tpl : string) w :
  exists s n, uuid_replace tpl w = Ret s (set_rand_next n w)
              /\ (tpl <> "" -> s <> "").
Proof.
  revert w. induction tpl as [|c rest IH]; intros w; simpl.
  - exists "", (rand_next w). by rewrite set_rand_next_id.
  - destruct (Ascii.eqb c "x" || Ascii.eqb c "y") eqn:E.
    + unfold bind, random16 at 1.
      destruct (IH (set_rand_next (S (rand_next w)) w)) as (s & n & Hs & _).
      rewrite Hs. eexists _, n. split; [reflexivity | done].
    + unfold bind. destruct (IH w) as (s & n & Hs & _).
      rewrite Hs. eexists _, n. split; [reflexivity | done].
Qed.

(** What [unloadCheck] does with the key it settles on. *)
Lemma unloadCheck_eq (name : option string) (check : option (Producer Env)) w :
  exists key n,
    truthy key = true
    /\ (falsy_name name = false -> name = Some key /\ n = rand_next w)
    /\ unloadCheck name check w =
       Ret (match check with None => None | Some _ => Some key end)
           (set_unloadChecks
              (match check with
               | None => reg_delete key
               | Some f => reg_set key f
               end) (set_rand_next n w)).
Proof.
  unfold unloadCheck, bind.
  destruct (falsy_name name) eqn:F.
  - destruct (uuid_replace_ret uuid_template w) as (s & n & Hs & Hne).
    rewrite Hs. exists s, n. split; [|split; [done|]].
    + apply truthy_true, Hne. discriminate.
    + by destruct check.
  - destruct name as [s|]; [|done]. simpl in *.
    apply negb_false_iff in F.
    exists s, (rand_next w). split; [done|]. split; [done|].
    rewrite set_rand_next_id. by destruct check.
Qed.

(** ** The effect of the operations, with the key of the check made explicit *)

Lemma makeRequest_eq w c call :
  heap w !! c = Some call ->
  makeRequest c w =
    Ret tt (set_sent (fun s => s ++ [mkRequest c (method call) true (url call) (data call)]) w).
Proof.
  intros H. unfold makeRequest, with_call. by rewrite H.
Qed.

(** A falsy name gets a generated key. *)
Lemma unloadCheck_generated (name : option string) (check : option (Producer Env)) w :
  falsy_name name = true ->
  exists key,
    uuid_shape uuid_template key = true
    /\ unloadCheck name check w =
       Ret (match check with None => None | Some _ => Some key end)
           (set_unloadChecks
              (match check with
               | None => reg_delete key
               | Some f => reg_set key f
               end) (set_rand_next (rand_next w + 31) w)).
Proof.
  intros F. unfold unloadCheck, bind. rewrite F.
  destruct (uuid_replace_shape uuid_template w) as (key & -> & Hs).
  exists key. split; [exact Hs|]. by destruct check.
Qed.

(** ** Reading [pipes[name]] *)

Lemma inherits_own name w pipe :
  pipes w !! name = Some pipe -> inherits name w = false.
Proof. intros H. unfold inherits, pipes_read. by rewrite H. Qed.

Lemma inherits_ordinary name w :
  object_prototype name = None -> inherits name w = false.
Proof.
  intros H. unfold inherits, pipes_read. rewrite H. by destruct (pipes w !! name).
Qed.

Lemma inherits_true name w :
  inherits name w = true ->
  pipes w !! name = None /\ exists v, object_prototype name = Some v.
Proof.
  unfold inherits, pipes_read. destruct (pipes w !! name); [done|].
  destruct (object_prototype name) as [v|]; [|done]. intros _. eauto.
Qed.

Lemma inherits_same name w w' : pipes w' = pipes w -> inherits name w' = inherits name w.
Proof. intros H. unfold inherits, pipes_read. by rewrite H. Qed.

Lemma register_eq_shape w c call :
  heap w !! c = Some call ->
  exists key n ex,
    uuid_shape uuid_template key = true /\
    register c w =
      let w1 := set_heap (alter (set_unloadId (Some key)) c)
                  (set_unloadChecks (reg_set key (pending_check call))
                     (set_rand_next n
                        (set_pending (array_store (first_free (pending w)) c) w))) in
      if truthy (pipeName call) then
        if inherits (pipeName call) w then Throw ex w1
        else
          let pipe := default [] (pipes w !! pipeName call) in
          let pipe' := enqueued (prioritize call) c pipe in
          Ret (if 1 <? length pipe' then delay else proceed)
              (set_pipes <[pipeName call := pipe']> w1)
      else Ret proceed w1.
Proof.
  intros H. unfold register, with_call. rewrite H.
  unfold bind at 1. unfold gets at 1. unfold bind at 1. unfold modify at 1.
  unfold bind at 1.
  destruct (unloadCheck_generated None (Some (pending_check call))
              (set_pending (array_store (first_free (pending w)) c) w) eq_refl)
    as (key & Hk & ->).
  exists key, (rand_next w + 31),
    (match pipes_read (pipeName call) w with
     | FromPrototype v => not_an_array (prioritize call) v
     | _ => TypeError ""
     end).
  split; [done|].
  unfold bind at 1. unfold modify at 1.
  destruct (truthy (pipeName call)); [|done].
  unfold bind at 1. unfold gets at 1.
  unfold inherits.
  change (pipes_read ?n (set_heap ?f (set_unloadChecks ?g (set_rand_next ?k
            (set_pending ?h w))))) with (pipes_read n w).
  cbv zeta. unfold pipes_read.
  destruct (pipes w !! pipeName call) as [pipe|].
  - unfold bind, modify. cbn [default from_option id]. unfold enqueued.
    by destruct (1 <? _).
  - destruct (object_prototype (pipeName call)) as [v|].
    + unfold not_an_array, throw. by destruct (prioritize call && _).
    + unfold bind, modify. cbn [default from_option id]. unfold enqueued.
      by destruct (1 <? _).
Qed.

Lemma register_eq w c call :
  heap w !! c = Some call ->
  exists key n ex,
    truthy key = true /\
    register c w =
      let w1 := set_heap (alter (set_unloadId (Some key)) c)
                  (set_unloadChecks (reg_set key (pending_check call))
                     (set_rand_next n
                        (set_pending (array_store (first_free (pending w)) c) w))) in
      if truthy (pipeName call) then
        if inherits (pipeName call) w then Throw ex w1
        else
          let pipe := default [] (pipes w !! pipeName call) in
          let pipe' := enqueued (prioritize call) c pipe in
          Ret (if 1 <? length pipe' then delay else proceed)
              (set_pipes <[pipeName call := pipe']> w1)
      else Ret proceed w1.
Proof.
  intros H. destruct (register_eq_shape w c call H) as (key & n & ex & Hs & Heq).
  exists key, n, ex. split; [by apply uuid_shape_truthy | exact Heq].
Qed.

Lemma deregister_eq w c call :
  heap w !! c = Some call ->
  exists key n,
    truthy key = true /\
    deregister c w =
      let w1 := set_unloadChecks (reg_delete key) (set_rand_next n w) in
      if truthy (pipeName call) then
        match pipes w !! pipeName call with
        | None => Throw (no_pipe (pipeName call)) w1
        | Some pipe =>
            let w2 := set_pipes <[pipeName call := tail pipe]> w1 in
            match tail pipe with
            | next :: _ =>
                match heap w !! next with
                | Some o =>
                    Ret tt (set_pending (array_delete c)
                              (set_sent (fun s => s ++ [mkRequest next (method o) true (url o) (data o)]) w2))
                | None => Throw (TypeError "no such call object") w2
                end
            | [] => Ret tt (set_pending (array_delete c) w2)
            end
        end
      else Ret tt (set_pending (array_delete c) w1).
Proof.
  intros H. unfold deregister, with_call. rewrite H.
  unfold bind at 1.
  destruct (unloadCheck_eq (unloadId call) None w) as (key & n & Hk & _ & ->).
  exists key, n. split; [done|].
  cbv zeta.
  unfold bind, gets, modify, throw, ret.
  destruct (truthy (pipeName call)); [|done].
  unfold pipes_read, no_pipe. cbn [pipes set_unloadChecks set_rand_next].
  destruct (pipes w !! pipeName call) as [pipe|];
    [|by destruct (object_prototype (pipeName call))].
  destruct (tail pipe) as [|next rest]; [done|].
  unfold makeRequest, with_call, modify.
  cbn [heap set_pipes set_unloadChecks set_rand_next].
  by destruct (heap w !! next).
Qed.

(** ** Relations every operation but pipe creation respects *)

Lemma call_evolves_refl (o : CallObj) : call_evolves o o.
Proof. by repeat split. Qed.

Lemma call_evolves_trans (o1 o2 o3 : CallObj) :
  call_evolves o1 o2 -> call_evolves o2 o3 -> call_evolves o1 o3.
Proof.
  unfold call_evolves. intros (?&?&?&?&?&?&?&?) (?&?&?&?&?&?&?&?).
  repeat split; try congruence. auto.
Qed.

Section Frame.

Variable R : World Env -> World Env -> Prop.
Hypothesis R_refl : forall w, R w w.
Hypothesis R_trans : forall w1 w2 w3, R w1 w2 -> R w2 w3 -> R w1 w3.
Hypothesis R_checks : forall w key n (check : option (Producer Env)),
  truthy key = true ->
  R w (set_unloadChecks (match check with
                         | None => reg_delete key
                         | Some f => reg_set key f
                         end) (set_rand_next n w)).
Hypothesis R_delete : forall w c, R w (set_pending (array_delete c) w).
Hypothesis R_alter : forall w g c,
  (forall o, call_evolves o (g o)) -> R w (set_heap (alter g c) w).
Hypothesis R_alloc : forall w o, R w (set_heap (fun h => h ++ [o]) w).
Hypothesis R_tail : forall w n l,
  pipes w !! n = Some l -> R w (set_pipes <[n := tail l]> w).
Hypothesis R_sent_head : forall w n c rest r,
  pipes w !! n = Some (c :: rest) -> req_call r = c ->
  R w (set_sent (fun s => s ++ [r]) w).
Hypothesis R_gate : forall w b, R w (set_svc_readOnly b w).

Local Ltac chain := eapply R_trans; [eassumption|].

Lemma frame_unloadCheck name (check : option (Producer Env)) w :
  R w (world_of (unloadCheck name check w)).
Proof.
  destruct (unloadCheck_eq name check w) as (key & n & Hk & _ & ->).
  by apply R_checks.
Qed.

Lemma frame_deregister c w : R w (world_of (deregister c w)).
Proof.
  destruct (heap w !! c) as [call|] eqn:H.
  2: { unfold deregister, with_call. rewrite H. apply R_refl. }
  destruct (deregister_eq w c call H) as (key & n & Hk & ->). cbv zeta.
  pose proof (R_checks w key n None Hk) as H1.
  destruct (truthy (pipeName call)).
  2: { chain. apply R_delete. }
  destruct (pipes w !! pipeName call) as [pipe|] eqn:Hp; [|done].
  assert (R w (set_pipes <[pipeName call := tail pipe]>
                 (set_unloadChecks (reg_delete key) (set_rand_next n w)))) as H2.
  { chain. by apply R_tail. }
  destruct (tail pipe) as [|next rest].
  { chain. apply R_delete. }
  destruct (heap w !! next); [|done].
  chain. eapply R_trans; [|apply R_delete].
  eapply R_sent_head; [|done]. cbn [pipes set_pipes]. apply lookup_insert_eq.
Qed.

Lemma frame_settle c s (callback : M Env unit) w :
  (forall w', R w' (world_of (callback w'))) ->
  R w (world_of (settle c s callback w)).
Proof.
  intros Hcb. unfold settle, with_call.
  destruct (heap w !! c) as [call|]; [|apply R_refl].
  destruct (promise call); try apply R_refl.
  unfold bind, modify.
  eapply R_trans; [|apply Hcb].
  apply R_alter. intros o. by repeat split.
Qed.

Lemma frame_fulfill c response w : R w (world_of (fulfill c response w)).
Proof. apply frame_settle, frame_deregister. Qed.

Lemma frame_smash c reason w : R w (world_of (smash c reason w)).
Proof. apply frame_settle, frame_deregister. Qed.

Lemma frame_call_abandon c w : R w (world_of (call_abandon c w)).
Proof.
  unfold call_abandon, bind, modify.
  eapply R_trans; [|apply frame_deregister].
  apply R_alter. intros o. by repeat split.
Qed.

Lemma frame_on_success c response w : R w (world_of (on_success c response w)).
Proof.
  unfold on_success, with_call.
  destruct (heap w !! c) as [call|]; [|apply R_refl].
  destruct (abandoned call); [apply R_refl | apply frame_fulfill].
Qed.

Lemma frame_on_error c textStatus responseText w :
  R w (world_of (on_error c textStatus responseText w)).
Proof.
  unfold on_error, with_call.
  destruct (heap w !! c) as [call|]; [|apply R_refl].
  destruct (abandoned call); [apply R_refl | apply frame_smash].
Qed.

Lemma frame_bind {A B} (m : M Env A) (k : A -> M Env B) w :
  R w (world_of (m w)) ->
  (forall a w', R w' (world_of (k a w'))) ->
  R w (world_of (bind m k w)).
Proof.
  unfold bind. intros Hm Hk. destruct (m w) as [a w'|e w']; [|done].
  eapply R_trans; [exact Hm | apply Hk].
Qed.

Lemma frame_abandon_at i m u w : R w (world_of (abandon_at i m u w)).
Proof.
  unfold abandon_at. apply frame_bind; [apply R_refl|]. intros slot w1.
  destruct slot as [[c|]|]; try apply R_refl.
  unfold with_call. destruct (heap w1 !! c) as [call|]; [|apply R_refl].
  destruct (_ && _); [apply frame_call_abandon | apply R_refl].
Qed.

Lemma frame_abandon_from fuel i m u w :
  R w (world_of (abandon_from fuel i m u w)).
Proof.
  revert i w. induction fuel as [|fuel IH]; intros i w; [apply R_refl|].
  cbn [abandon_from]. apply frame_bind; [apply R_refl|].
  intros len w1. destruct (i <? len); [|apply R_refl].
  apply frame_bind; [apply frame_abandon_at | intros; apply IH].
Qed.

Lemma frame_abandon m u w : R w (world_of (abandon m u w)).
Proof. unfold abandon, bind, gets. apply frame_abandon_from. Qed.

(** [Call] as written never gets past line 199. *)
Lemma frame_Call args w : R w (world_of (Call args w)).
Proof.
  unfold Call, Call_through.
  unfold bind at 1. unfold gets at 1. unfold bind at 1. unfold modify at 1.
  unfold bind at 1. unfold gets at 1.
  eapply R_trans; [apply (R_alloc w (new_call args))|].
  set (w1 := set_heap _ w).
  destruct (_ && _).
  - unfold bind. pose proof (frame_smash (length (heap w))
      gate_message w1) as Hs.
    by destruct (smash _ _ w1).
  - apply R_refl.
Qed.

(** With a closed gate [Call_register] never reaches [register]. *)
Lemma frame_Call_register_gated args w :
  negb (a_readOnly args) && svc_readOnly w = true ->
  R w (world_of (Call_register args w)).
Proof.
  intros Hg. unfold Call_register, Call_through.
  unfold bind at 1. unfold gets at 1. unfold bind at 1. unfold modify at 1.
  unfold bind at 1. unfold gets at 1.
  eapply R_trans; [apply (R_alloc w (new_call args))|].
  cbn [svc_readOnly set_heap new_call readOnly]. rewrite Hg.
  unfold bind.
  pose proof (frame_smash (length (heap w)) gate_message
    (set_heap (fun h => h ++ [new_call args]) w)) as Hs.
  cbn [set_heap] in Hs.
  by destruct (smash _ _ _).
Qed.

(** Every event other than an admission that passes the gate. *)
Lemma frame_exec_other (ev : Event Env) w :
  match ev with
  | ERegister args => negb (a_readOnly args) && svc_readOnly w = true
  | _ => True
  end ->
  R w (exec ev w).
Proof.
  destruct ev; cbn [exec]; intros Hev.
  - apply frame_Call.
  - by apply frame_Call_register_gated.
  - apply R_gate.
  - apply frame_abandon.
  - destruct (was_sent c w); [apply frame_on_success | apply R_refl].
  - destruct (was_sent c w); [apply frame_on_error | apply R_refl].
  - apply frame_deregister.
  - apply frame_unloadCheck.
Qed.

Hypothesis R_insert : forall w n l, R w (set_pipes <[n := l]> w).
Hypothesis R_sent : forall w r, R w (set_sent (fun s => s ++ [r]) w).
Hypothesis R_store : forall w i c,
  is_Some (heap w !! c) -> R w (set_pending (array_store i c) w).

Lemma frame_register c w : R w (world_of (register c w)).
Proof.
  destruct (heap w !! c) as [call|] eqn:H.
  2: { unfold register, with_call. rewrite H. apply R_refl. }
  destruct (register_eq w c call H) as (key & n & ex & Hk & ->). cbv zeta.
  assert (R w (set_heap (alter (set_unloadId (Some key)) c)
                 (set_unloadChecks (reg_set key (pending_check call))
                    (set_rand_next n
                       (set_pending (array_store (first_free (pending w)) c) w)))))
    as H1.
  { eapply R_trans; [by apply R_store|].
    eapply R_trans; [apply (R_checks _ key n (Some (pending_check call)) Hk)|].
    apply R_alter. intros o. by repeat split. }
  destruct (truthy (pipeName call)); [|done].
  destruct (inherits (pipeName call) w); [done|].
  chain. apply R_insert.
Qed.

Lemma frame_Call_register args w : R w (world_of (Call_register args w)).
Proof.
  destruct (negb (a_readOnly args) && svc_readOnly w) eqn:Hg.
  { by apply frame_Call_register_gated. }
  unfold Call_register, Call_through.
  apply frame_bind; [apply R_refl|]. intros c w1.
  apply frame_bind; [apply R_alloc|]. intros _ w2.
  apply frame_bind; [apply R_refl|]. intros gate w3.
  destruct (_ && gate).
  - apply frame_bind; [apply frame_smash | intros; apply R_refl].
  - apply frame_bind; [apply frame_register|]. intros r w4.
    destruct r; [|apply R_refl].
    apply frame_bind; [|intros; apply R_refl].
    unfold makeRequest, with_call.
    destruct (heap w4 !! c); [apply R_sent | apply R_refl].
Qed.

Lemma frame_exec (ev : Event Env) w : R w (exec ev w).
Proof.
  destruct ev; try (by apply frame_exec_other).
  apply frame_Call_register.
Qed.

Lemma frame_run (evs : list (Event Env)) w : R w (run evs w).
Proof.
  revert w. induction evs as [|ev evs IH]; intros w; [apply R_refl|].
  cbn [run foldl]. eapply R_trans; [apply frame_exec | apply IH].
Qed.

End Frame.

(** ** [extends] holds along every run *)

Lemma was_sent_app c (r : Request) w :
  was_sent c (set_sent (fun s => s ++ [r]) w)
  = was_sent c w || Nat.eqb (req_call r) c.
Proof.
  unfold was_sent. cbn [sent set_sent]. rewrite existsb_app. cbn [existsb].
  by rewrite orb_false_r.
Qed.

Lemma was_sent_elem c w : was_sent c w = true <-> c ∈ map req_call (sent w).
Proof.
  unfold was_sent. induction (sent w) as [|r rs IH]; cbn [existsb map].
  - split; [done | by intros ?%elem_of_nil].
  - rewrite orb_true_iff, elem_of_cons, IH, Nat.eqb_eq. intuition congruence.
Qed.

Lemma extends_refl w : extends w w.
Proof.
  split; try done. intros c o H. exists o. split; [done | apply call_evolves_refl].
Qed.

Lemma extends_trans w1 w2 w3 : extends w1 w2 -> extends w2 w3 -> extends w1 w3.
Proof.
  intros [Hh1 Hp1 Hs1 Hk1] [Hh2 Hp2 Hs2 Hk2]. split; auto.
  intros c o H. destruct (Hh1 c o H) as (o' & H' & Ho).
  destruct (Hh2 c o' H') as (o'' & H'' & Ho').
  exists o''. split; [done | by eapply call_evolves_trans].
Qed.

(** A change outside heap, pipes and sent requests that keeps the keys of
    the registry truthy. *)
Lemma extends_same w w' :
  heap w' = heap w -> pipes w' = pipes w -> sent w' = sent w ->
  (keys_truthy w -> keys_truthy w') ->
  extends w w'.
Proof.
  intros Hh Hp Hs Hk. split; [| |unfold was_sent|done].
  - intros c o H. exists o. rewrite Hh. split; [done | apply call_evolves_refl].
  - intros n. by rewrite Hp.
  - intros c. by rewrite Hs.
Qed.

Lemma extends_checks w key n (check : option (Producer Env)) :
  truthy key = true ->
  extends w (set_unloadChecks (match check with
                               | None => reg_delete key
                               | Some f => reg_set key f
                               end) (set_rand_next n w)).
Proof.
  intros Hk. apply extends_same; try done.
  unfold keys_truthy. cbn [unloadChecks set_unloadChecks set_rand_next].
  intros H k Hin. destruct check as [f|].
  - apply reg_keys_set in Hin as [->|Hin]; auto.
  - apply reg_keys_delete in Hin. auto.
Qed.

Lemma extends_pending w f : extends w (set_pending f w).
Proof. by apply extends_same. Qed.

Lemma extends_gate w b : extends w (set_svc_readOnly b w).
Proof. by apply extends_same. Qed.

Lemma extends_alter w g c :
  (forall o, call_evolves o (g o)) -> extends w (set_heap (alter g c) w).
Proof.
  intros Hg. split; try done.
  intros c' o H. cbn [heap set_heap].
  destruct (decide (c = c')) as [->|Hne].
  - exists (g o). by rewrite list_lookup_alter_eq, H.
  - exists o. rewrite list_lookup_alter_ne by done.
    split; [done | apply call_evolves_refl].
Qed.

Lemma extends_alloc w o : extends w (set_heap (fun h => h ++ [o]) w).
Proof.
  split; try done.
  intros c o' H. cbn [heap set_heap]. exists o'.
  rewrite lookup_app_l by (by eapply lookup_lt_Some).
  split; [done | apply call_evolves_refl].
Qed.

Lemma extends_insert w n l : extends w (set_pipes <[n := l]> w).
Proof.
  split; try done.
  - intros c o H. exists o. split; [done | apply call_evolves_refl].
  - intros n' H. cbn [pipes set_pipes].
    destruct (decide (n = n')) as [->|Hne].
    + rewrite lookup_insert_eq. by eexists.
    + by rewrite lookup_insert_ne.
Qed.

Lemma extends_sent w r : extends w (set_sent (fun s => s ++ [r]) w).
Proof.
  split; try done.
  - intros c o H. exists o. split; [done | apply call_evolves_refl].
  - intros c H. rewrite was_sent_app, H. done.
Qed.

Lemma extends_exec (ev : Event Env) w : extends w (exec ev w).
Proof.
  apply frame_exec;
    [ apply extends_refl | apply extends_trans | apply extends_checks
    | intros; apply extends_pending | apply extends_alter | apply extends_alloc
    | intros; apply extends_insert | intros; apply extends_sent
    | apply extends_gate | apply extends_insert | apply extends_sent
    | intros; apply extends_pending ].
Qed.

Lemma extends_run (evs : list (Event Env)) w : extends w (run evs w).
Proof.
  revert w. induction evs as [|ev evs IH]; intros w; [apply extends_refl|].
  cbn [run foldl]. eapply extends_trans; [apply extends_exec | apply IH].
Qed.

Lemma keys_truthy_init rnd : keys_truthy (Env := Env) (init rnd).
Proof. intros k Hin. by apply elem_of_nil in Hin. Qed.

Lemma keys_truthy_run rnd (evs : list (Event Env)) :
  keys_truthy (run evs (init rnd)).
Proof. apply (ext_keys _ _ (extends_run evs (init rnd))), keys_truthy_init. Qed.

(** [__proto__] never becomes a key of the registry. *)
Lemma keys_own_run rnd (evs : list (Event Env)) : keys_own (run evs (init rnd)).
Proof.
  assert (forall w : World Env, keys_own w -> keys_own (run evs w)) as H.
  { intros w. apply frame_run; unfold keys_own; try done.
    - intros w1 w2 w3 H12 H23 H1. by apply H23, H12.
    - intros w0 key n [f|] _ Hown; cbn [unloadChecks set_unloadChecks set_rand_next].
      + by apply reg_keys_set_own.
      + intros Hin. by apply reg_keys_delete in Hin. }
  apply H. apply not_elem_of_nil.
Qed.

(** ** The order of enumeration *)

Lemma insert_by_index_perm {A} (n : N) (x : string * A) (l : list (N * (string * A))) :
  map snd (insert_by_index n x l) ≡ₚ x :: map snd l.
Proof.
  induction l as [|[m y] l IH]; cbn [insert_by_index map snd]; [done|].
  destruct (n <? m)%N; cbn [map snd]; [done|].
  rewrite IH. apply Permutation_swap.
Qed.

(** Enumeration visits every property once. *)
Lemma for_in_perm {A} (l : list (string * A)) : for_in l ≡ₚ l.
Proof.
  unfold for_in. induction l as [|x l IH]; cbn [index_keys named_keys]; [done|].
  destruct (array_index (fst x)) as [n|].
  - rewrite insert_by_index_perm. cbn [app]. by rewrite IH.
  - rewrite <- Permutation_middle. by rewrite IH.
Qed.


Lemma for_in_named {A} (l : list (string * A)) :
  Forall (fun x => array_index (fst x) = None) l -> for_in l = l.
Proof.
  unfold for_in. induction 1 as [|x l Hx Hl IH]; cbn [index_keys named_keys]; [done|].
  rewrite Hx. cbn [index_keys] in IH.
  destruct (index_keys l) as [|i il] eqn:E.
  - cbn [map app] in *. by rewrite IH.
  - exfalso. clear -E Hl. revert i il E.
    induction Hl as [|y l Hy Hl IH]; intros i il; cbn [index_keys]; [done|].
    rewrite Hy. apply IH.
Qed.

Lemma for_in_singleton {A} (x : string * A) : for_in [x] = [x].
Proof.
  unfold for_in. cbn [index_keys named_keys].
  by destruct (array_index (fst x)).
Qed.

(** ** The [onbeforeunload] handler *)

Lemma append_cons (a : ascii) (s t : string) :
  String a s +:+ t = String a (s +:+ t).
Proof. reflexivity. Qed.

Lemma append_nil_r (s : string) : s +:+ "" = s.
Proof. induction s as [|a s IH]; [done|]. by rewrite append_cons, IH. Qed.

Lemma append_assoc (s t u : string) : (s +:+ t) +:+ u = s +:+ t +:+ u.
Proof. induction s as [|a s IH]; [done|]. by rewrite !append_cons, IH. Qed.

Lemma append_nil_inv (s t : string) : s +:+ t = "" -> s = "" /\ t = "".
Proof. destruct s; [done|]. rewrite append_cons. discriminate. Qed.


(** The loop only adds to what it was started with. *)
Lemma unload_loop_acc (reg todo : Registry Env) (message : string) (e : Env)
    (log : list (string * string)) :
  unload_loop reg todo message e log =
    let '(m, e', l) := unload_loop reg todo "" e [] in
    (message +:+ m, e', log ++ l).
Proof.
  revert message e log.
  induction todo as [|[k f] rest IH]; intros message e log; cbn [unload_loop].
  - by rewrite append_nil_r, app_nil_r.
  - unfold hasOwnProperty.
    destruct (reg_get "hasOwnProperty" reg) as [h|].
    + destruct (h e) as [t e0]. destruct (truthy t).
      * destruct (f e0) as [check e1]. destruct (truthy check).
        -- destruct (f e1) as [again e2].
           rewrite (IH (message +:+ _)), (IH ("" +:+ _)).
           destruct (unload_loop reg rest "" e2 []) as [[m e'] l].
           by rewrite !append_assoc, <- !app_assoc.
        -- rewrite IH, (IH "" e1 (([] ++ _) ++ _)).
           destruct (unload_loop reg rest "" e1 []) as [[m e'] l].
           by rewrite <- !app_assoc.
      * rewrite IH, (IH "" e0 ([] ++ _)).
        destruct (unload_loop reg rest "" e0 []) as [[m e'] l].
        by rewrite <- !app_assoc.
    + destruct (f e) as [check e1]. destruct (truthy check).
      * destruct (f e1) as [again e2].
        rewrite (IH (message +:+ _)), (IH ("" +:+ _)).
        destruct (unload_loop reg rest "" e2 []) as [[m e'] l].
        by rewrite !append_assoc, <- app_assoc.
      * rewrite IH, (IH "" e1 ([] ++ _)).
        destruct (unload_loop reg rest "" e1 []) as [[m e'] l].
        by rewrite <- app_assoc.
Qed.






(** ** Registration *)

Lemma enqueued_length prio c pipe : length (enqueued prio c pipe) = S (length pipe).
Proof.
  unfold enqueued. destruct pipe as [|h t].
  - by rewrite andb_false_r.
  - destruct prio; cbn [andb Nat.ltb Nat.leb length swap01]; [done|].
    rewrite length_app. cbn. lia.
Qed.


Lemma enqueued_empty prio c : enqueued prio c [] = [c].
Proof. unfold enqueued. by rewrite andb_false_r. Qed.


Lemma enqueued_plain c pipe : enqueued false c pipe = pipe ++ [c].
Proof. reflexivity. Qed.


(** ** Admission *)

(** [Call_register] with the gate open, step by step. *)
Lemma Call_register_open_shape args w :
  negb (a_readOnly args) && svc_readOnly w = false ->
  exists key n ex,
    uuid_shape uuid_template key = true /\
    Call_register args w =
      let c := length (heap w) in
      let call := new_call args in
      let request := mkRequest c (method call) true (url call) (data call) in
      let w1 := set_heap (alter (set_unloadId (Some key)) c)
                  (set_unloadChecks (reg_set key (pending_check call))
                     (set_rand_next n
                        (set_pending (array_store (first_free (pending w)) c)
                           (set_heap (fun h => h ++ [call]) w)))) in
      if truthy (pipeName call) then
        if inherits (pipeName call) w then Throw ex w1
        else
          let pipe' := enqueued (prioritize call) c
                         (default [] (pipes w !! pipeName call)) in
          let w2 := set_pipes <[pipeName call := pipe']> w1 in
          if 1 <? length pipe' then Ret c w2
          else Ret c (set_sent (fun s => s ++ [request]) w2)
      else Ret c (set_sent (fun s => s ++ [request]) w1).
Proof.
  intros Hg. unfold Call_register, Call_through.
  unfold bind at 1. unfold gets at 1. unfold bind at 1. unfold modify at 1.
  unfold bind at 1. unfold gets at 1.
  set (w0 := set_heap (fun h => h ++ [new_call args]) w).
  change (svc_readOnly w0) with (svc_readOnly w).
  change (readOnly (new_call args)) with (a_readOnly args). rewrite Hg.
  assert (heap w0 !! length (heap w) = Some (new_call args)) as Hc.
  { subst w0. cbn [heap set_heap]. by apply list_lookup_middle. }
  destruct (register_eq_shape w0 _ _ Hc) as (key & n & ex & Hk & Hreg).
  exists key, n, ex. split; [done|].
  unfold bind at 1. rewrite Hreg. cbv zeta.
  change (inherits ?nm w0) with (inherits nm w).
  assert (forall w', heap w' = heap w0 ->
    makeRequest (length (heap w))
      (set_heap (alter (set_unloadId (Some key)) (length (heap w))) w')
    = Ret tt (set_sent (fun s => s ++ [mkRequest (length (heap w))
               (method (new_call args)) true (url (new_call args))
               (data (new_call args))])
             (set_heap (alter (set_unloadId (Some key)) (length (heap w))) w')))
    as Hmk.
  { intros w' Hw'.
    rewrite (makeRequest_eq _ _ (set_unloadId (Some key) (new_call args)));
      [reflexivity|].
    cbn [heap set_heap]. by rewrite list_lookup_alter_eq, Hw', Hc. }
  destruct (truthy (pipeName (new_call args))).
  - destruct (inherits (pipeName (new_call args)) w); [done|].
    cbn [pipes]. destruct (1 <? _); [done|].
    unfold bind.
    change (set_pipes ?f (set_heap ?g ?w')) with (set_heap g (set_pipes f w')).
    by rewrite Hmk.
  - unfold bind. by rewrite Hmk.
Qed.

Lemma Call_register_open args w :
  negb (a_readOnly args) && svc_readOnly w = false ->
  exists key n ex,
    truthy key = true /\
    Call_register args w =
      let c := length (heap w) in
      let call := new_call args in
      let request := mkRequest c (method call) true (url call) (data call) in
      let w1 := set_heap (alter (set_unloadId (Some key)) c)
                  (set_unloadChecks (reg_set key (pending_check call))
                     (set_rand_next n
                        (set_pending (array_store (first_free (pending w)) c)
                           (set_heap (fun h => h ++ [call]) w)))) in
      if truthy (pipeName call) then
        if inherits (pipeName call) w then Throw ex w1
        else
          let pipe' := enqueued (prioritize call) c
                         (default [] (pipes w !! pipeName call)) in
          let w2 := set_pipes <[pipeName call := pipe']> w1 in
          if 1 <? length pipe' then Ret c w2
          else Ret c (set_sent (fun s => s ++ [request]) w2)
      else Ret c (set_sent (fun s => s ++ [request]) w1).
Proof.
  intros Hg.
  destruct (Call_register_open_shape args w Hg) as (key & n & ex & Hs & Heq).
  exists key, n, ex. split; [by apply uuid_shape_truthy | exact Heq].
Qed.

(** ** Pipes never disappear, and appear only through registration *)




(** ** The pipe discipline is kept by every event *)

Lemma pipes_ok_frame w w' :
  (forall c o, heap w !! c = Some o ->
     exists o', heap w' !! c = Some o' /\ pipeName o' = pipeName o) ->
  pipes w' = pipes w -> sent w' = sent w ->
  pipes_ok w -> pipes_ok w'.
Proof.
  intros Hh Hp Hs [Hw Hn Hm Hv].
  assert (forall c, was_sent c w' = was_sent c w) as Hws.
  { intros c. unfold was_sent. by rewrite Hs. }
  split.
  - intros n pipe i c. rewrite Hp, Hws. apply Hw.
  - intros n pipe. rewrite Hp. apply Hn.
  - intros n pipe c. rewrite Hp. intros H1 H2.
    destruct (Hm n pipe c H1 H2) as (o & Ho & Hname).
    destruct (Hh c o Ho) as (o' & Ho' & Hname'). exists o'. split; congruence.
  - intros c. rewrite Hws. intros H. apply Hv in H.
    apply lookup_lt_is_Some in H as [o Ho].
    destruct (Hh c o Ho) as (o' & Ho' & _). by eapply lookup_lt_Some.
Qed.

Lemma pipes_ok_tail w n pipe :
  pipes w !! n = Some pipe ->
  pipes_ok w -> pipes_ok (set_pipes <[n := tail pipe]> w).
Proof.
  intros Hp [Hw Hn Hm Hv].
  assert (forall n' pipe', pipes (set_pipes <[n := tail pipe]> w) !! n' = Some pipe' ->
            exists old, pipes w !! n' = Some old
                        /\ (pipe' = old \/ pipe' = tail old)) as Hold.
  { intros n' pipe'. cbn [pipes set_pipes].
    destruct (decide (n = n')) as [<-|Hne].
    - rewrite lookup_insert_eq. intros [= <-]. exists pipe. auto.
    - rewrite lookup_insert_ne by done. intros H. exists pipe'. auto. }
  split.
  - intros n' pipe' i c H1 H2.
    destruct (Hold n' pipe' H1) as (old & Ho & [->| ->]).
    + by eapply Hw.
    + rewrite lookup_tail in H2. by eapply (Hw n' old (S i)).
  - intros n' pipe' H1.
    destruct (Hold n' pipe' H1) as (old & Ho & [->| ->]); [by eapply Hn|].
    pose proof (Hn n' old Ho) as Hnd.
    destruct old as [|h t]; [done|]. by apply NoDup_cons in Hnd as [_ ?].
  - intros n' pipe' c H1 H2.
    destruct (Hold n' pipe' H1) as (old & Ho & [->| ->]); [by eapply Hm|].
    apply (Hm n' old c Ho).
    destruct old as [|h t]; [done|]. apply elem_of_cons. by right.
  - exact Hv.
Qed.

Lemma pipes_ok_send_head w n c rest r :
  pipes w !! n = Some (c :: rest) -> req_call r = c ->
  pipes_ok w -> pipes_ok (set_sent (fun s => s ++ [r]) w).
Proof.
  intros Hp Hr [Hw Hn Hm Hv].
  destruct (Hm n (c :: rest) c Hp) as (o & Ho & Hname);
    [apply elem_of_cons; by left|].
  split.
  - intros n' pipe i c' H1 H2. cbn [pipes set_sent] in H1.
    rewrite was_sent_app, (Hw n' pipe i c' H1 H2), Hr. cbn [orb].
    apply Nat.eqb_neq. intros <-.
    destruct (Hm n' pipe c H1) as (o' & Ho' & Hname');
      [by eapply list_elem_of_lookup_2|].
    assert (n' = n) as -> by congruence.
    assert (pipe = c :: rest) as -> by congruence.
    pose proof (Hn n _ Hp) as Hnd. apply NoDup_cons in Hnd as [Hnot _].
    apply Hnot. by eapply list_elem_of_lookup_2.
  - exact Hn.
  - exact Hm.
  - intros c'. rewrite was_sent_app, Hr. cbn [heap set_sent].
    intros [H|H]%orb_true_iff; [by apply Hv|].
    apply Nat.eqb_eq in H. subst c'. by eapply lookup_lt_Some.
Qed.

Lemma pipes_ok_send_free w c r :
  (forall n pipe, pipes w !! n = Some pipe -> c ∉ pipe) ->
  c < length (heap w) -> req_call r = c ->
  pipes_ok w -> pipes_ok (set_sent (fun s => s ++ [r]) w).
Proof.
  intros Hfree Hc Hr [Hw Hn Hm Hv]. split.
  - intros n' pipe i c' H1 H2. cbn [pipes set_sent] in H1.
    rewrite was_sent_app, (Hw n' pipe i c' H1 H2), Hr. cbn [orb].
    apply Nat.eqb_neq. intros <-.
    apply (Hfree n' pipe H1). by eapply list_elem_of_lookup_2.
  - exact Hn.
  - exact Hm.
  - intros c'. rewrite was_sent_app, Hr. cbn [heap set_sent].
    intros [H|H]%orb_true_iff; [by apply Hv|].
    apply Nat.eqb_eq in H. by subst c'.
Qed.

Lemma enqueued_lookup_S prio c pipe i d :
  enqueued prio c pipe !! S i = Some d ->
  d = c \/ exists j, pipe !! S j = Some d.
Proof.
  unfold enqueued. destruct pipe as [|h t].
  - rewrite andb_false_r. cbn. by destruct i.
  - destruct prio; cbn [andb Nat.ltb Nat.leb length swap01].
    + destruct i as [|i]; cbn; [intros [= ->]; by left|].
      intros H. right. by exists i.
    + change ((h :: t) ++ [c]) with (h :: (t ++ [c])). cbn [lookup list_lookup].
      intros H. apply lookup_snoc_Some in H as [[_ H]|[_ ->]]; [|by left].
      right. by exists i.
Qed.

Lemma enqueued_member prio c pipe d :
  d ∈ enqueued prio c pipe -> d = c \/ d ∈ pipe.
Proof.
  unfold enqueued. destruct (prio && _).
  - destruct pipe as [|h t]; cbn [swap01].
    + intros ?%list_elem_of_singleton. by left.
    + rewrite !elem_of_cons. tauto.
  - rewrite elem_of_app, list_elem_of_singleton. tauto.
Qed.

Lemma enqueued_NoDup prio c pipe :
  NoDup pipe -> c ∉ pipe -> NoDup (enqueued prio c pipe).
Proof.
  intros Hnd Hc. unfold enqueued. destruct (prio && _).
  - destruct pipe as [|h t]; cbn [swap01].
    + apply NoDup_singleton.
    + apply NoDup_cons in Hnd as [Hh Ht].
      apply not_elem_of_cons in Hc as [Hch Hct].
      apply NoDup_cons. split; [|apply NoDup_cons; by split].
      apply not_elem_of_cons. by split.
  - apply NoDup_app. split; [done|]. split; [|apply NoDup_singleton].
    intros x Hx ->%list_elem_of_singleton. done.
Qed.

Lemma pipes_ok_enqueue w c o prio :
  heap w !! c = Some o ->
  was_sent c w = false ->
  (forall n pipe, pipes w !! n = Some pipe -> c ∉ pipe) ->
  pipes_ok w ->
  pipes_ok (set_pipes <[pipeName o :=
              enqueued prio c (default [] (pipes w !! pipeName o))]> w).
Proof.
  intros Ho Hunsent Hfree [Hw Hn Hm Hv].
  set (n := pipeName o). set (pipe := default [] (pipes w !! n)).
  assert (forall i d, pipe !! S i = Some d -> was_sent d w = false) as Hw0.
  { intros i d. subst pipe. destruct (pipes w !! n) eqn:E; [|done]. by eapply Hw. }
  assert (NoDup pipe) as Hn0.
  { subst pipe. destruct (pipes w !! n) eqn:E; [by eapply Hn | apply NoDup_nil_2]. }
  assert (c ∉ pipe) as Hc0.
  { subst pipe. destruct (pipes w !! n) eqn:E; [by eapply Hfree | apply not_elem_of_nil]. }
  assert (forall d, d ∈ pipe -> exists o', heap w !! d = Some o' /\ pipeName o' = n)
    as Hm0.
  { intros d. subst pipe. destruct (pipes w !! n) eqn:E; [by eapply Hm|].
    by intros ?%elem_of_nil. }
  split.
  - intros n' pipe' i d. cbn [pipes set_pipes].
    change (was_sent d (set_pipes _ w)) with (was_sent d w).
    destruct (decide (n = n')) as [<-|Hne].
    + rewrite lookup_insert_eq. intros [= <-] H.
      apply enqueued_lookup_S in H as [->|[j Hj]]; [done | by eapply Hw0].
    + rewrite lookup_insert_ne by done. apply Hw.
  - intros n' pipe'. cbn [pipes set_pipes].
    destruct (decide (n = n')) as [<-|Hne].
    + rewrite lookup_insert_eq. intros [= <-]. by apply enqueued_NoDup.
    + rewrite lookup_insert_ne by done. apply Hn.
  - intros n' pipe' d. cbn [pipes set_pipes heap].
    destruct (decide (n = n')) as [<-|Hne].
    + rewrite lookup_insert_eq. intros [= <-] H.
      apply enqueued_member in H as [->|H]; [by exists o | by apply Hm0].
    + rewrite lookup_insert_ne by done. apply Hm.
  - exact Hv.
Qed.

Lemma pipes_ok_exec (ev : Event Env) w : pipes_ok w -> pipes_ok (exec ev w).
Proof.
  assert (forall (w1 w2 : World Env),
            (forall c o, heap w1 !! c = Some o ->
               exists o', heap w2 !! c = Some o' /\ call_evolves o o') ->
            forall c o, heap w1 !! c = Some o ->
               exists o', heap w2 !! c = Some o' /\ pipeName o' = pipeName o)
    as Hweak.
  { intros w1 w2 H c o Ho. destruct (H c o Ho) as (o' & Ho' & Hev).
    exists o'. split; [done|]. apply Hev. }
  destruct (match ev with
            | ERegister args => negb (negb (a_readOnly args) && svc_readOnly w)
            | _ => false
            end) eqn:Hopen.
  - destruct ev as [| args | | | | | |]; try done.
    apply negb_true_iff in Hopen. intros Hok. cbn [exec].
    destruct (Call_register_open args w Hopen) as (key & k & ex & Hkey & ->). cbv zeta.
    set (c := length (heap w)). set (call := new_call args).
    set (w1 := set_heap (alter (set_unloadId (Some key)) c) _).
    assert (heap w1 !! c = Some (set_unloadId (Some key) call)) as Hc.
    { subst w1. cbn [heap set_heap set_unloadChecks set_rand_next set_pending].
      rewrite list_lookup_alter_eq. subst c. by rewrite list_lookup_middle. }
    assert (pipes_ok w1) as Hok1.
    { eapply pipes_ok_frame; [| | |exact Hok]; try done.
      apply Hweak. apply ext_heap.
      eapply extends_trans; [apply extends_alloc|].
      eapply extends_trans; [apply extends_pending|].
      eapply extends_trans;
        [apply (extends_checks _ key k (Some (pending_check call)) Hkey)|].
      apply extends_alter. intros o. by repeat split. }
    assert (was_sent c w1 = false) as Hunsent.
    { change (was_sent c w1) with (was_sent c w).
      destruct (was_sent c w) eqn:E; [|done].
      apply (ok_sent _ Hok) in E. subst c. lia. }
    assert (forall n pipe, pipes w1 !! n = Some pipe -> c ∉ pipe) as Hfree.
    { intros n pipe Hp Hin. change (pipes w1) with (pipes w) in Hp.
      destruct (ok_member _ Hok n pipe c Hp Hin) as (o & Ho & _).
      apply lookup_lt_Some in Ho. subst c. lia. }
    assert (c < length (heap w1)) as Hlt by (by eapply lookup_lt_Some).
    destruct (truthy (pipeName call)); [destruct (inherits (pipeName call) w)|].
    + exact Hok1.
    + pose proof (pipes_ok_enqueue w1 c _ (prioritize call) Hc Hunsent Hfree Hok1)
        as Hok2.
      change (pipeName (set_unloadId (Some key) call)) with (pipeName call) in Hok2.
      change (pipes w1) with (pipes w) in Hok2.
      destruct (1 <? _) eqn:Hlen; [exact Hok2|].
      apply Nat.ltb_ge in Hlen. rewrite enqueued_length in Hlen.
      cbn [world_of].
      eapply (pipes_ok_send_head _ (pipeName call) c []); [|done|exact Hok2].
      cbn [pipes set_pipes]. rewrite lookup_insert_eq.
      destruct (default [] (pipes w !! pipeName call)); [|cbn in Hlen; lia].
      by rewrite enqueued_empty.
    + by apply (pipes_ok_send_free w1 c).
  - intros Hok. revert Hok. apply frame_exec_other.
    + auto.
    + auto.
    + intros w0 key n check Hk. apply pipes_ok_frame; try done. eauto.
    + intros w0 c. apply pipes_ok_frame; try done. eauto.
    + intros w0 g c Hg. apply pipes_ok_frame; try done.
      apply Hweak, ext_heap, extends_alter, Hg.
    + intros w0 o. apply pipes_ok_frame; try done.
      apply Hweak, ext_heap, extends_alloc.
    + intros w0 n l Hl. by apply pipes_ok_tail.
    + intros w0 n c rest r Hp Hr. by eapply pipes_ok_send_head.
    + intros w0 b. apply pipes_ok_frame; try done. eauto.
    + destruct ev; try done. by apply negb_false_iff in Hopen.
Qed.

Lemma pipes_ok_init rnd : pipes_ok (Env := Env) (init rnd).
Proof. by split. Qed.

Lemma pipes_ok_run (evs : list (Event Env)) w : pipes_ok w -> pipes_ok (run evs w).
Proof.
  revert w. induction evs as [|ev evs IH]; intros w Hok; [done|].
  cbn [run foldl]. apply IH. by apply pipes_ok_exec.
Qed.

(** C3: in the state after any run of events on a fresh service, a member
    of a pipe that has been handed to the transport stands at the head of
    that pipe, so a pipe has at most one such member. *)
Theorem only_head_dispatched (rnd : nat -> N) (evs : list (Event Env))
    (n : string) (pipe : list nat) (i c : nat) :
  let w := run evs (init rnd) in
  pipes w !! n = Some pipe ->
  pipe !! i = Some c ->
  was_sent c w = true ->
  i = 0 /\
  forall j d, pipe !! j = Some d -> was_sent d w = true -> j = 0 /\ d = c.
Proof.
  intros w Hp Hi Hs.
  pose proof (pipes_ok_run evs _ (pipes_ok_init rnd)) as Hok. fold w in Hok.
  assert (forall j d, pipe !! j = Some d -> was_sent d w = true -> j = 0) as Hhead.
  { intros [|j] d Hj Hd; [done|].
    rewrite (ok_waiting _ Hok n pipe j d Hp Hj) in Hd. done. }
  pose proof (Hhead i c Hi Hs) as ->. split; [done|].
  intros j d Hj Hd. pose proof (Hhead j d Hj Hd) as ->. split; congruence.
Qed.


(** ** Abandoned calls *)

Lemma call_abandon_sets_flag w c o0 :
  heap w !! c = Some o0 ->
  exists o, heap (world_of (call_abandon c w)) !! c = Some o
            /\ abandoned o = true.
Proof.
  intros H0. unfold call_abandon, bind, modify.
  set (w0 := set_heap (alter (set_abandoned true) c) w).
  assert (heap w0 !! c = Some (set_abandoned true o0)) as Hc.
  { subst w0. cbn [heap set_heap]. by rewrite list_lookup_alter_eq, H0. }
  pose proof (extends_exec (EDeregister c) w0) as Hext. cbn [exec] in Hext.
  destruct (ext_heap _ _ Hext c _ Hc) as (o & Ho & Hev).
  exists o. split; [done|]. by apply Hev.
Qed.

(** C6: once [call.abandon()] has run on a call, then after any further
    events the [success] and the [error] callback of that call return at
    once and leave the whole state as it is: no settlement of the promise,
    no second deregistration, no other bookkeeping. *)
Theorem callbacks_after_abandon_do_nothing w c call (evs : list (Event Env)) :
  heap w !! c = Some call ->
  let w' := run evs (world_of (call_abandon c w)) in
  (forall response, on_success c response w' = Ret tt w')
  /\ (forall textStatus responseText,
        on_error c textStatus responseText w' = Ret tt w')
  /\ (forall response, exec (ESuccess c response) w' = w')
  /\ (forall textStatus responseText,
        exec (EError c textStatus responseText) w' = w').
Proof.
  intros Hc w'.
  destruct (call_abandon_sets_flag w c call Hc) as (o & Ho & Hab).
  destruct (ext_heap _ _ (extends_run evs _) c o Ho) as (o' & Ho' & Hev).
  fold w' in Ho'.
  assert (abandoned o' = true) as Hab' by (by apply Hev).
  assert (forall response, on_success c response w' = Ret tt w') as Hs.
  { intros response. unfold on_success, with_call. by rewrite Ho', Hab'. }
  assert (forall textStatus responseText,
            on_error c textStatus responseText w' = Ret tt w') as He.
  { intros textStatus responseText. unfold on_error, with_call.
    by rewrite Ho', Hab'. }
  repeat split; try done.
  - intros response. cbn [exec]. rewrite Hs. by destruct (was_sent c w').
  - intros textStatus responseText. cbn [exec]. rewrite He.
    by destruct (was_sent c w').
Qed.

(** ** Dispatch order in a pipe *)

Lemma alter_last {A} (f : A -> A) (l : list A) (x : A) :
  alter f (length l) (l ++ [x]) = l ++ [f x].
Proof. induction l as [|y l IH]; [done|]. cbn. by rewrite IH. Qed.

(** What an admission that passes the gate leaves behind. *)
Lemma Call_register_effect args w :
  negb (a_readOnly args) && svc_readOnly w = false ->
  let c := length (heap w) in
  let call := new_call args in
  let pipe := default [] (pipes w !! pipeName call) in
  let inh := inherits (pipeName call) w in
  let w' := exec (ERegister args) w in
  (exists key, heap w' = heap w ++ [set_unloadId (Some key) call])
  /\ svc_readOnly w' = svc_readOnly w
  /\ pipes w' = (if truthy (pipeName call) && negb inh
                then <[pipeName call := enqueued (prioritize call) c pipe]> (pipes w)
                else pipes w)
  /\ map req_call (sent w') =
       map req_call (sent w)
       ++ (if truthy (pipeName call) && (inh || (0 <? length pipe))
           then [] else [c]).
Proof.
  intros Hg. cbv zeta. cbn [exec].
  destruct (Call_register_open args w Hg) as (key & k & ex & _ & ->). cbv zeta.
  assert (forall pipe' : list nat,
            (1 <? S (length pipe')) = (0 <? length pipe')) as Hlt.
  { intros pipe'. by destruct pipe'. }
  destruct (truthy (pipeName (new_call args)));
    [destruct (inherits (pipeName (new_call args)) w)|].
  - cbn [world_of heap svc_readOnly pipes sent set_sent
      set_pipes set_heap set_unloadChecks set_rand_next set_pending andb negb orb].
    rewrite alter_last, app_nil_r. eauto.
  - rewrite enqueued_length, Hlt.
    destruct (0 <? _); cbn [world_of heap svc_readOnly pipes sent set_sent
      set_pipes set_heap set_unloadChecks set_rand_next set_pending andb negb orb].
    + rewrite alter_last, app_nil_r. eauto.
    + rewrite alter_last, map_app. eauto.
  - cbn [world_of heap svc_readOnly pipes sent set_sent
      set_pipes set_heap set_unloadChecks set_rand_next set_pending andb].
    rewrite alter_last, map_app. eauto.
Qed.



(** ** The slots of [pending] *)

Lemma array_delete_lookup c (p : list (option nat)) i d :
  array_delete c p !! i = Some (Some d) -> p !! i = Some (Some d).
Proof.
  unfold array_delete. destruct (inArray c p) as [j|]; [|done].
  destruct (decide (j = i)) as [->|Hne].
  - intros H. apply list_lookup_insert_Some in H as [(_ & ? & _)|(? & _)]; done.
  - by rewrite list_lookup_insert_ne.
Qed.

Lemma array_store_lookup i c (p : list (option nat)) j d :
  array_store i c p !! j = Some (Some d) -> d = c \/ p !! j = Some (Some d).
Proof.
  unfold array_store. destruct (i <? length p).
  - destruct (decide (i = j)) as [->|Hne].
    + intros H. apply list_lookup_insert_Some in H as [(_ & ? & _)|(? & _)];
        [left; congruence | done].
    + rewrite list_lookup_insert_ne by done. by right.
  - intros H. apply lookup_app_Some in H as [H|[_ H]]; [by right|].
    apply lookup_app_Some in H as [H|[_ H]].
    + apply lookup_replicate in H as [? _]. done.
    + apply list_lookup_singleton_Some in H as [_ ?]. left. congruence.
Qed.

Lemma inArray_None c (p : list (option nat)) :
  (forall i, p !! i <> Some (Some c)) -> inArray c p = None.
Proof.
  induction p as [|x p IH]; intros H; [done|]. cbn [inArray].
  destruct (decide (x = Some c)) as [->|_].
  - by destruct (H 0).
  - rewrite IH; [done|]. intros i. apply (H (S i)).
Qed.

Lemma pending_ok_exec (ev : Event Env) w : pending_ok w -> pending_ok (exec ev w).
Proof.
  apply frame_exec; unfold pending_ok; try done.
  - intros w1 w2 w3 H12 H23 H1. by apply H23, H12.
  - intros w0 c H i d Hd. apply array_delete_lookup in Hd. by eapply H.
  - intros w0 g c _ H i d Hd. cbn [heap set_heap]. rewrite length_alter.
    by eapply H.
  - intros w0 o H i d Hd. cbn [heap set_heap]. rewrite length_app.
    cbn [pending set_heap] in Hd. apply H in Hd. lia.
  - intros w0 i c [o Ho] H j d Hd. cbn [heap set_pending].
    apply array_store_lookup in Hd as [->|Hd]; [by eapply lookup_lt_Some|].
    by eapply H.
Qed.

Lemma pending_ok_run rnd (evs : list (Event Env)) : pending_ok (run evs (init rnd)).
Proof.
  assert (forall w : World Env, pending_ok w -> pending_ok (run evs w)) as H.
  { induction evs as [|ev evs IH]; intros w Hok; [done|].
    cbn [run foldl]. apply IH. by apply pending_ok_exec. }
  apply H. intros i c Hc. done.
Qed.

(** ** The loop of [abandon] has fuel enough *)

Lemma array_delete_length c (p : list (option nat)) :
  length (array_delete c p) = length p.
Proof.
  unfold array_delete. destruct (inArray c p); [apply length_insert | done].
Qed.

Lemma abandon_at_same_slots i m u w : same_slots w (world_of (abandon_at i m u w)).
Proof.
  apply frame_abandon_at; unfold same_slots; try done.
  - intros w1 w2 w3 H12 H23. congruence.
  - intros w0 c. cbn [pending set_pending]. apply array_delete_length.
Qed.

Lemma abandon_from_S fuel i m u w :
  abandon_from (S fuel) i m u w =
    if i <? length (pending w) then
      match abandon_at i m u w with
      | Ret _ w' => abandon_from fuel (S i) m u w'
      | Throw e w' => Throw e w'
      end
    else Ret tt w.
Proof.
  cbn [abandon_from]. unfold bind at 1. unfold gets at 1.
  by destruct (i <? length (pending w)).
Qed.

Lemma abandon_from_more_fuel fuel i m u w :
  length (pending w) <= i + fuel ->
  abandon_from (S fuel) i m u w = abandon_from fuel i m u w.
Proof.
  revert i w. induction fuel as [|fuel IH]; intros i w Hlen.
  - rewrite abandon_from_S.
    destruct (i <? length (pending w)) eqn:E; [|done].
    apply Nat.ltb_lt in E. lia.
  - rewrite (abandon_from_S (S fuel)), (abandon_from_S fuel).
    destruct (i <? length (pending w)); [|done].
    pose proof (abandon_at_same_slots i m u w) as Hs.
    destruct (abandon_at i m u w) as [[] w'|e w']; [|done].
    apply IH. unfold same_slots in Hs. cbn [world_of] in Hs. lia.
Qed.

(** Any larger amount of fuel gives the result of [abandon]. *)
Lemma abandon_fuel_enough k m u w :
  abandon_from (length (pending w) + k) 0 m u w = abandon m u w.
Proof.
  unfold abandon, bind, gets.
  induction k as [|k IH]; [by rewrite Nat.add_0_r|].
  rewrite Nat.add_succ_r, abandon_from_more_fuel by lia. exact IH.
Qed.

(** ** The read-only gate *)

(** [Call] unfolded, for either callee. *)
Lemma Call_through_eq (callee : nat -> M Env Outcome) args w :
  Call_through callee args w =
    let c := length (heap w) in
    let w1 := set_heap (fun h => h ++ [new_call args]) w in
    if negb (a_readOnly args) && svc_readOnly w then
      match smash c gate_message w1 with
      | Ret _ w' => Ret c w'
      | Throw e w' => Throw e w'
      end
    else
      match callee c w1 with
      | Ret proceed w' =>
          match makeRequest c w' with
          | Ret _ w'' => Ret c w''
          | Throw e w'' => Throw e w''
          end
      | Ret delay w' => Ret c w'
      | Throw e w' => Throw e w'
      end.
Proof.
  unfold Call_through, bind, gets, modify, ret.
  cbn [svc_readOnly set_heap new_call readOnly].
  destruct (negb (a_readOnly args) && svc_readOnly w); [done|].
  destruct (callee _ _) as [[] w'|e w']; done.
Qed.

(** On the gated branch it does not matter which function line 199 names. *)
Lemma Call_register_gated args w :
  negb (a_readOnly args) && svc_readOnly w = true ->
  Call_register args w = Call args w.
Proof.
  intros Hg. unfold Call_register, Call. rewrite !Call_through_eq.
  cbv zeta. by rewrite Hg.
Qed.

(** What the gate leaves behind, however [Call] ends: when the property
    [readOnly] of the service is true, in any state the service can be in,
    [Call] with [readOnly] false smashes the promise of the new call with
    the gate message; the call is in no slot of [pending] and in no pipe,
    and no request is made for it. *)
Lemma gate_leaves_call_unregistered (rnd : nat -> N)
    (evs : list (Event Env)) (args : CallArgs) :
  let w := run evs (init rnd) in
  svc_readOnly w = true -> a_readOnly args = false ->
  let c := length (heap w) in
  let w' := world_of (Call args w) in
  heap w' = heap w ++ [set_promise (Smashed gate_message) (new_call args)]
  /\ pending w' = pending w
  /\ (forall n pipe, pipes w' !! n = Some pipe -> c ∉ pipe)
  /\ was_sent c w' = false
  /\ Call_register args w = Call args w.
Proof.
  intros w Hgate Hro c.
  pose proof (pipes_ok_run evs _ (pipes_ok_init rnd)) as Hok. fold w in Hok.
  pose proof (pending_ok_run rnd evs) as Hpend. fold w in Hpend.
  assert (negb (a_readOnly args) && svc_readOnly w = true) as Hg
    by (by rewrite Hro, Hgate).
  assert (array_delete c (pending w) = pending w) as Hdel.
  { unfold array_delete. rewrite inArray_None; [done|].
    intros i Hi. apply Hpend in Hi. subst c. lia. }
  assert (forall n pipe d, pipes w !! n = Some pipe -> d ∈ pipe -> d <> c) as Hmem.
  { intros n pipe d Hp Hd ->.
    destruct (ok_member _ Hok n pipe c Hp Hd) as (o & Ho & _).
    apply lookup_lt_Some in Ho. subst c. lia. }
  assert (was_sent c w = false) as Hunsent.
  { destruct (was_sent c w) eqn:E; [|done].
    apply (ok_sent _ Hok) in E. subst c. lia. }
  cbv zeta. split; [|split; [|split; [|split]]];
    try (by apply Call_register_gated).
  all: unfold Call; rewrite Call_through_eq; cbv zeta; rewrite Hg.
  all: unfold smash, settle, with_call; cbn [heap set_heap];
    rewrite list_lookup_middle by done; cbn [promise new_call];
    fold (new_call args); unfold bind, modify.
  all: match goal with
    | |- context [deregister ?c0 ?w0] =>
        destruct (deregister_eq w0 c0
                    (set_promise (Smashed gate_message) (new_call args)))
          as (key & k & _ & ->);
        [cbn [heap set_heap]; by rewrite alter_last, list_lookup_middle|]
    end.
  all: cbv zeta; cbn [pipeName set_promise new_call pipes heap set_heap];
    fold (new_call args); rewrite alter_last.
  all: destruct (truthy _);
    [destruct (pipes w !! _) as [pipe|] eqn:Hp;
     [destruct (tail pipe) as [|next rest] eqn:Ht;
      [|destruct (_ !! next)]|]|].
  all: cbn [world_of heap pending pipes sent set_pending set_sent set_pipes
            set_unloadChecks set_rand_next set_heap ret]; try done.
  all: try (intros n pipe0 Hn Hin;
            first [ by eapply Hmem
                  | destruct (decide (or_string (a_pipeName args) "" = n)) as [<-|Hne];
                    [ rewrite lookup_insert_eq in Hn; injection Hn as <-;
                      eapply (Hmem _ pipe); [exact Hp| |done];
                      destruct pipe; [done|]; cbn in Ht; subst;
                      apply elem_of_cons; by right
                    | rewrite lookup_insert_ne in Hn by done;
                      by eapply Hmem ] ]).
  all: try apply alter_last.
  unfold was_sent in *.
  cbn [sent set_pending set_sent set_pipes set_unloadChecks set_rand_next set_heap].
  rewrite existsb_app, Hunsent. cbn [existsb orb req_call]. rewrite orb_false_r.
  apply Nat.eqb_neq. eapply (Hmem _ pipe); [exact Hp|].
  destruct pipe; [done|]. cbn in Ht. subst.
  apply elem_of_cons. right. apply elem_of_cons. by left.
Qed.

(** ** Where the code leaves its documentation *)

(** C7 (the code departs from the claim): with the property [readOnly] of
    the service true, [Call] with [readOnly] false that names a pipe not in
    use smashes the promise with the gate message, but the callback
    attached with [fail] then runs [deregister] on the call, which was never
    registered: line 100 throws the unknown-pipe error out of [Call], so no
    promise is returned.  The call is in no slot and no pipe, and nothing
    is sent. *)
Theorem gated_Call_throws_unknown_pipe (args : CallArgs) w :
  svc_readOnly w = true -> a_readOnly args = false ->
  truthy (pipeName (new_call args)) = true ->
  pipes_read (pipeName (new_call args)) w = Undefined ->
  exists w',
    Call args w
      = Throw (Thrown ("Unknown pipe " +:+ DQ +:+ pipeName (new_call args) +:+ DQ)) w'
    /\ heap w' = heap w ++ [set_promise (Smashed gate_message) (new_call args)]
    /\ pending w' = pending w /\ pipes w' = pipes w /\ sent w' = sent w.
Proof.
  intros Hgate Hro Ht Hund.
  unfold Call. rewrite Call_through_eq. cbv zeta. rewrite Hro, Hgate. cbn [negb andb].
  unfold smash, settle, with_call. cbn [heap set_heap].
  rewrite list_lookup_middle by done. cbn [promise new_call]. fold (new_call args).
  unfold bind, modify.
  set (w1 := set_heap _ (set_heap _ w)).
  assert (heap w1 = heap w ++ [set_promise (Smashed gate_message) (new_call args)])
    as Hh1 by (subst w1; cbn [heap set_heap]; apply alter_last).
  assert (heap w1 !! length (heap w)
          = Some (set_promise (Smashed gate_message) (new_call args))) as Hc
    by (rewrite Hh1; by apply list_lookup_middle).
  destruct (deregister_eq w1 _ _ Hc) as (key & n & _ & ->). cbv zeta.
  change (pipeName (set_promise (Smashed gate_message) (new_call args)))
    with (pipeName (new_call args)).
  rewrite Ht. change (pipes w1) with (pipes w).
  unfold pipes_read in Hund. unfold no_pipe.
  destruct (pipes w !! pipeName (new_call args)); [done|].
  destruct (object_prototype (pipeName (new_call args))); [done|].
  eexists. split; [reflexivity|]. by rewrite <- Hh1.
Qed.

(** C1 (the code departs from the claim): on a fresh service [Call] throws
    at line 199 for whatever arguments, before any request is made; and when
    registration is reached through [register] and yields [proceed], the
    request carries method, url and data of the call but always
    [async: true], whatever [sync] was.  (For a pipe name that
    [Object.prototype] answers for, [register] throws and there is no
    request.) *)
Theorem Call_throws_and_sync_is_dropped (rnd : nat -> N) (args : CallArgs) :
  (exists w', Call args (init (Env := Env) rnd)
              = Throw (TypeError "pending.register is not a function") w'
              /\ sent w' = [] /\ pending w' = [])
  /\ (exists key,
        let w' := exec (ERegister args) (init (Env := Env) rnd) in
        heap w' = [set_unloadId (Some key) (new_call args)]
        /\ async (new_call args) = negb (a_sync args)
        /\ sent w' =
             match object_prototype (pipeName (new_call args)) with
             | Some _ => []
             | None => [mkRequest 0 (method (new_call args)) true
                                  (url (new_call args)) (data (new_call args))]
             end).
Proof.
  assert (negb (a_readOnly args) && svc_readOnly (init (Env := Env) rnd) = false)
    as Hg by apply andb_false_r.
  split.
  - unfold Call. rewrite Call_through_eq. cbv zeta. rewrite Hg.
    eexists. split; [reflexivity|]. done.
  - destruct (Call_register_effect args (init rnd) Hg) as ((key & Hh) & _ & _ & _).
    exists key. cbv zeta. split; [exact Hh|]. split; [done|].
    cbn [exec].
    destruct (Call_register_open args (init rnd) Hg) as (key' & k & ex & _ & ->).
    cbv zeta. unfold inherits, pipes_read.
    cbn [init Service loaded pipes heap length].
    rewrite lookup_empty. cbn [default from_option id].
    rewrite enqueued_empty. cbn [length Nat.ltb Nat.leb].
    destruct (truthy _) eqn:Ht.
    + by destruct (object_prototype _).
    + apply truthy_false in Ht. by rewrite Ht.
Qed.

(** C5 (the code departs from the claim): with calls 0 (GET /a) and 1
    (POST /save) in pipe ["p"], call 0 being in flight,
    [abandon("POST", "/save")] marks call 1 abandoned and empties its slot,
    but shifts call 0 off the pipe: call 1 stays in the pipe and is handed
    to the transport. *)
Theorem abandon_leaves_waiting_call_in_pipe (rnd : nat -> N) :
  let a := mkArgs "/a" (Some "GET") None false (Some "p") false false in
  let b := mkArgs "/save" (Some "POST") None false (Some "p") false false in
  let w := run [ERegister a; ERegister b] (init (Env := Env) rnd) in
  let w' := exec (EAbandon "POST" "/save") w in
  (pipes w !! "p" = Some [0; 1] /\ pending w = [Some 0; Some 1]
   /\ map req_call (sent w) = [0])
  /\ (pipes w' !! "p" = Some [1] /\ pending w' = [Some 0; None]
      /\ map req_call (sent w') = [0; 1]
      /\ map abandoned (heap w') = [false; true]
      /\ map promise (heap w') = [Unsettled; Unsettled]).
Proof. vm_compute. repeat split; reflexivity. Qed.

(** ** The keys of the registry are distinct *)

Lemma reg_keys_put_absent name check reg :
  name ∉ reg_keys reg ->
  reg_keys (reg_put name check reg) = reg_keys reg ++ [name].
Proof.
  unfold reg_keys. induction reg as [|[k p] rest IH]; cbn [reg_put map fst app];
    intros Hn; [done|].
  apply not_elem_of_cons in Hn as [Hne Hn].
  destruct (String.eqb k name) eqn:E.
  - apply String.eqb_eq in E. congruence.
  - cbn [map fst]. by rewrite IH.
Qed.

Lemma reg_set_NoDup name check reg :
  NoDup (reg_keys reg) -> NoDup (reg_keys (reg_set name check reg)).
Proof.
  intros Hnd. unfold reg_set. destruct (String.eqb name "__proto__"); [done|].
  destruct (decide (name ∈ reg_keys reg)) as [Hin|Hout].
  - by rewrite reg_keys_put_present.
  - rewrite reg_keys_put_absent by done.
    apply NoDup_app. split; [done|]. split; [|apply NoDup_singleton].
    intros x Hx ->%list_elem_of_singleton. done.
Qed.

Lemma reg_delete_NoDup name reg :
  NoDup (reg_keys reg) -> NoDup (reg_keys (reg_delete name reg)).
Proof.
  unfold reg_keys. induction reg as [|[k p] rest IH]; cbn [reg_delete map fst];
    intros Hnd; [done|].
  apply NoDup_cons in Hnd as [Hk Hnd].
  destruct (String.eqb k name); [by apply IH|].
  cbn [map fst]. apply NoDup_cons. split; [|by apply IH].
  intros Hin. apply Hk. by apply reg_keys_delete in Hin.
Qed.

(** In every state the module can be in, the registry is one the handler's
    property below applies to. *)
Lemma keys_distinct_run rnd (evs : list (Event Env)) :
  NoDup (reg_keys (unloadChecks (run evs (init rnd)))).
Proof.
  assert (forall w : World Env,
            NoDup (reg_keys (unloadChecks w)) ->
            NoDup (reg_keys (unloadChecks (run evs w)))) as H.
  { intros w. apply frame_run; try done.
    - intros w1 w2 w3 H12 H23 H1. by apply H23, H12.
    - intros w0 key n [f|] _ Hnd; cbn [unloadChecks set_unloadChecks set_rand_next].
      + by apply reg_set_NoDup.
      + by apply reg_delete_NoDup. }
  apply H. apply NoDup_nil_2.
Qed.

(** ** Claims on the unload checks *)

(** C9: for a name that is already a key of the registry, in any state the
    module can be in, the call [unloadCheck(name, check)] with two arguments
    returns that name without throwing, leaves [check] stored under it,
    adds no key, changes no other entry and nothing else in the state. *)
Theorem unloadCheck_replaces_present (rnd : nat -> N) (evs : list (Event Env))
    (name : string) (old check : Producer Env) :
  let w := run evs (init rnd) in
  reg_get name (unloadChecks w) = Some old ->
  unloadCheck (Some name) (Some check) w
    = Ret (Some name) (set_unloadChecks (reg_set name check) w)
  /\ reg_get name (reg_set name check (unloadChecks w)) = Some check
  /\ reg_keys (reg_set name check (unloadChecks w)) = reg_keys (unloadChecks w)
  /\ forall other, other <> name ->
       reg_get other (reg_set name check (unloadChecks w))
       = reg_get other (unloadChecks w).
Proof.
  intros w Hin.
  assert (name ∈ reg_keys (unloadChecks w)) as Hkey
    by (by eapply reg_get_Some_key).
  assert (truthy name = true) as Ht by (by apply (keys_truthy_run rnd evs)).
  assert (name <> "__proto__") as Hown.
  { intros ->. by apply (keys_own_run rnd evs). }
  split; [|split; [|split]].
  - unfold unloadCheck, bind, modify, ret. cbn [falsy_name]. rewrite Ht. done.
  - by apply reg_get_set_eq.
  - by apply reg_keys_set_present.
  - intros other Hne. by apply reg_get_set_ne.
Qed.


End Properties.

Lemma reg_get_instrument {Env : Type} (reg : Registry Env) (name : string) :
  reg_get name (instrument reg) =
    (fun f => fun '(e, seen) =>
       let '(r, e') := f e in (r, (e', seen ++ [(name, r)]))) <$> reg_get name reg.
Proof.
  induction reg as [|[k f] rest IH]; [done|].
  cbn [instrument map reg_get]. fold (instrument rest).
  destruct (String.eqb k name) eqn:E; [|exact IH].
  apply String.eqb_eq in E. by subst.
Qed.

(** The log is what the checks themselves would have written down. *)
Lemma invoked_is_what_checks_see {Env : Type} (reg todo : Registry Env) (e : Env)
    (seen : list (string * string)) :
  unload_loop (instrument reg) (instrument todo) "" (e, seen) [] =
    let '(m, e', l) := unload_loop reg todo "" e [] in (m, (e', seen ++ l), l).
Proof.
  revert e seen. induction todo as [|[k f] rest IH]; intros e seen.
  - cbn. by rewrite app_nil_r.
  - cbn [instrument map unload_loop]. fold (instrument rest).
    unfold hasOwnProperty. rewrite reg_get_instrument.
    destruct (reg_get "hasOwnProperty" reg) as [h|];
      cbn [fmap option_fmap option_map].
    + destruct (h e) as [t e0]. destruct (truthy t).
      * destruct (f e0) as [check e1]. destruct (truthy check).
        -- destruct (f e1) as [again e2].
           rewrite (unload_loop_acc (instrument reg) (instrument rest)), IH.
           rewrite (unload_loop_acc reg rest ("" +:+ _)).
           destruct (unload_loop reg rest "" e2 []) as [[m e'] l].
           cbn [app]. by rewrite <- !app_assoc.
        -- rewrite (unload_loop_acc (instrument reg) (instrument rest)), IH.
           rewrite (unload_loop_acc reg rest "" e1 (([] ++ _) ++ _)).
           destruct (unload_loop reg rest "" e1 []) as [[m e'] l].
           cbn [app]. by rewrite <- !app_assoc.
      * rewrite (unload_loop_acc (instrument reg) (instrument rest)), IH.
        rewrite (unload_loop_acc reg rest "" e0 ([] ++ _)).
        destruct (unload_loop reg rest "" e0 []) as [[m e'] l].
        cbn [app]. by rewrite <- !app_assoc.
    + destruct (f e) as [check e1]. destruct (truthy check).
      * destruct (f e1) as [again e2].
        rewrite (unload_loop_acc (instrument reg) (instrument rest)), IH.
        rewrite (unload_loop_acc reg rest ("" +:+ _)).
        destruct (unload_loop reg rest "" e2 []) as [[m e'] l].
        cbn [app]. by rewrite <- !app_assoc.
      * rewrite (unload_loop_acc (instrument reg) (instrument rest)), IH.
        rewrite (unload_loop_acc reg rest "" e1 ([] ++ _)).
        destruct (unload_loop reg rest "" e1 []) as [[m e'] l].
        cbn [app]. by rewrite <- !app_assoc.
Qed.

(** * The properties on concrete inputs *)



Lemma only_head_dispatched_witness :
  let w : World unit :=
    run [ERegister (demo_args "/a" "GET" false);
         ERegister (demo_args "/b" "GET" false)] (init demo_rnd) in
  pipes w !! "p" = Some [0; 1]
  /\ [0; 1] !! 0 = Some 0
  /\ was_sent 0 w = true
  /\ (0 = 0 /\
      forall j d, [0; 1] !! j = Some d -> was_sent d w = true -> j = 0 /\ d = 0).
Proof.
  split; [vm_compute; reflexivity|]. split; [reflexivity|].
  split; [vm_compute; reflexivity|].
  apply (only_head_dispatched (Env := unit) demo_rnd
           [ERegister (demo_args "/a" "GET" false);
            ERegister (demo_args "/b" "GET" false)] "p" [0; 1] 0 0).
  - vm_compute. reflexivity.
  - reflexivity.
  - vm_compute. reflexivity.
Defined.



Lemma callbacks_after_abandon_do_nothing_witness :
  let w : World unit := run [ERegister (demo_args "/a" "GET" false)] (init demo_rnd) in
  let w' := run [ESuccess 0 "late"] (world_of (call_abandon 0 w)) in
  (exists call, heap w !! 0 = Some call)
  /\ (forall response, on_success 0 response w' = Ret tt w')
  /\ (forall textStatus responseText,
        on_error 0 textStatus responseText w' = Ret tt w')
  /\ (forall response, exec (ESuccess 0 response) w' = w')
  /\ (forall textStatus responseText,
        exec (EError 0 textStatus responseText) w' = w').
Proof.
  split; [eexists; vm_compute; reflexivity|].
  eapply (callbacks_after_abandon_do_nothing
            (run [ERegister (demo_args "/a" "GET" false)] (init demo_rnd))
            0 _ [ESuccess 0 "late"]).
  vm_compute. reflexivity.
Defined.

Lemma gated_Call_throws_unknown_pipe_witness :
  let w : World unit := run [ESetReadOnly true] (init demo_rnd) in
  let args := demo_args "/x" "POST" false in
  (svc_readOnly w = true /\ a_readOnly args = false
   /\ truthy (pipeName (new_call args)) = true
   /\ pipes_read (pipeName (new_call args)) w = Undefined)
  /\ exists w',
       Call args w = Throw (Thrown ("Unknown pipe " +:+ DQ +:+ "p" +:+ DQ)) w'
       /\ heap w' = heap w ++ [set_promise (Smashed gate_message) (new_call args)]
       /\ pending w' = pending w /\ pipes w' = pipes w /\ sent w' = sent w.
Proof.
  split; [repeat apply conj; vm_compute; reflexivity|].
  apply (gated_Call_throws_unknown_pipe (demo_args "/x" "POST" false)
           (run [ESetReadOnly true] (init (Env := unit) demo_rnd)));
    vm_compute; reflexivity.
Defined.



Lemma unloadCheck_replaces_present_witness :
  let w : World nat :=
    run [EUnloadCheck (Some "draft") (Some demo_silent)] (init demo_rnd) in
  reg_get "draft" (unloadChecks w) = Some demo_silent
  /\ unloadCheck (Some "draft") (Some demo_counting) w
     = Ret (Some "draft") (set_unloadChecks (reg_set "draft" demo_counting) w).
Proof.
  split; [reflexivity|].
  apply (unloadCheck_replaces_present (Env := nat) demo_rnd
           [EUnloadCheck (Some "draft") (Some demo_silent)]
           "draft" demo_silent demo_counting).
  reflexivity.
Defined.



(** With the gate left as [Service] sets it, the argument
    [{readOnly: true}] changes nothing: the promise of a call that is not
    read-only stays unsettled, and through [register] the call gets a slot
    and its request. *)
Lemma Service_ignores_readOnly_argument :
  let w : World unit := Service (Some true) (loaded demo_rnd) in
  let args := mkArgs "/x" None None false None false false in
  svc_readOnly w = false
  /\ promise <$> heap (world_of (Call args w)) !! 0 = Some Unsettled
  /\ promise <$> heap (world_of (Call args w)) !! 0 <> Some (Smashed gate_message)
  /\ pending (world_of (Call_register args w)) = [Some 0]
  /\ map req_call (sent (world_of (Call_register args w))) = [0].
Proof. vm_compute. repeat split; try reflexivity. discriminate. Qed.

(** A pipe that was used and is empty again has length 0; a name never
    used is unknown. *)
Example pipeLength_emptied_pipe :
  let w : World unit :=
    run [ERegister (demo_args "/a" "GET" false); ESuccess 0 "done"] (init demo_rnd) in
  (exists w', pipeLength "p" w = Ret (Some 0) w')
  /\ (exists w', pipeLength "q" w = Throw (Thrown ("Unknown pipe " +:+ DQ +:+ "q" +:+ DQ)) w').
Proof. split; eexists; vm_compute; reflexivity. Qed.

(** The message is built from what the checks return the second time. *)
Example onbeforeunload_uses_second_result :
  returned (onbeforeunload true demo_registry 0) = Some ("second" +:+ LF)
  /\ returnValue (onbeforeunload false demo_registry 0) = None
  /\ invoked (onbeforeunload true demo_registry 0)
     = [("a", "first"); ("a", "second"); ("b", "")]
  /\ env_after (onbeforeunload true demo_registry 0) = 2.
Proof. vm_compute. repeat split; reflexivity. Qed.

(** Keys that are array indices are visited first, whatever the order the
    checks were registered in. *)
Example onbeforeunload_visits_index_keys_first :
  map fst (for_in [("b", "bee"); ("10", "ten"); ("2", "two")]) = ["2"; "10"; "b"]
  /\ returned (onbeforeunload true (constant_checks [("b", "bee"); ("1", "one")]) 0)
     = Some ("one" +:+ LF +:+ "bee" +:+ LF).
Proof. vm_compute. split; reflexivity. Qed.

(** * Further properties of the code *)

Section Further.

Context {Env : Type}.
Implicit Types (w : World Env) (reg : Registry Env) (check : Producer Env).

(** ** Generated names *)

(** X1: whatever [Math.random] gives, the generated name is the template
    with every [x] replaced by a hex digit and the [y] by one of 8, 9, a, b:
    36 characters, dashes at 8, 13, 18 and 23, a [4] at 14; it takes 31
    random numbers. *)
Theorem generated_name_is_uuid4 w :
  exists s,
    uuid_replace uuid_template w = Ret s (set_rand_next (rand_next w + 31) w)
    /\ uuid_shape uuid_template s = true
    /\ String.length s = 36
    /\ String.get 8 s = Some "-"%char /\ String.get 13 s = Some "-"%char
    /\ String.get 18 s = Some "-"%char /\ String.get 23 s = Some "-"%char
    /\ String.get 14 s = Some "4"%char
    /\ truthy s = true.
Proof.
  destruct (uuid_replace_shape uuid_template w) as (s & Heq & Hs).
  exists s. split; [exact Heq|]. split; [exact Hs|].
  pose proof (uuid_shape_length _ _ Hs) as Hlen.
  split; [exact Hlen|].
  repeat (split;
    [apply (uuid_shape_fixed uuid_template);
       [exact Hs | reflexivity | discriminate | discriminate]|]).
  apply truthy_true. intros ->. discriminate Hs.
Qed.

(** X2: called with a falsy name and a check, [unloadCheck] stores the check
    under a freshly generated name of that shape and returns the name. *)
Theorem unloadCheck_generates_name (name : option string) check w :
  falsy_name name = true ->
  exists key,
    unloadCheck name (Some check) w
      = Ret (Some key)
            (set_unloadChecks (reg_set key check)
               (set_rand_next (rand_next w + 31) w))
    /\ uuid_shape uuid_template key = true
    /\ reg_get key (reg_set key check (unloadChecks w)) = Some check
    /\ forall other, other <> key ->
         reg_get other (reg_set key check (unloadChecks w))
         = reg_get other (unloadChecks w).
Proof.
  intros Hf. unfold unloadCheck, bind, modify, ret. rewrite Hf.
  destruct (uuid_replace_shape uuid_template w) as (key & -> & Hs).
  exists key. split; [reflexivity|]. split; [exact Hs|].
  split; [by apply reg_get_set_eq, uuid_shape_own|].
  intros other Hne. by apply reg_get_set_ne.
Qed.

(** ** Removing a check *)

Lemma reg_get_delete_eq name reg : reg_get name (reg_delete name reg) = None.
Proof.
  induction reg as [|[k p] rest IH]; cbn [reg_delete reg_get]; [done|].
  destruct (String.eqb k name) eqn:E; [done|]. cbn [reg_get]. by rewrite E.
Qed.

Lemma reg_get_delete_ne name other reg :
  other <> name -> reg_get other (reg_delete name reg) = reg_get other reg.
Proof.
  intros Hne. induction reg as [|[k p] rest IH]; cbn [reg_delete reg_get]; [done|].
  destruct (String.eqb k name) eqn:E.
  - apply String.eqb_eq in E. subst k.
    destruct (String.eqb name other) eqn:E'; [|done].
    apply String.eqb_eq in E'. congruence.
  - cbn [reg_get]. by rewrite IH.
Qed.

Lemma reg_delete_absent name reg :
  reg_get name reg = None -> reg_delete name reg = reg.
Proof.
  induction reg as [|[k p] rest IH]; cbn [reg_delete reg_get]; [done|].
  destruct (String.eqb k name); [done|]. intros H. by rewrite IH.
Qed.



Lemma unloadCheck_remove_eq (name : string) w :
  truthy name = true ->
  unloadCheck (Some name) None w
    = Ret None (set_unloadChecks (reg_delete name) w).
Proof.
  intros Ht. unfold unloadCheck, bind, modify, ret. cbn [falsy_name].
  by rewrite Ht.
Qed.

(** X3: called with a non-empty name alone, [unloadCheck] returns nothing,
    leaves no check under that name and every other check as it was; for a
    name that has no check the registry stays as it is. *)
Theorem unloadCheck_removes (name : string) w :
  truthy name = true ->
  unloadCheck (Some name) None w
    = Ret None (set_unloadChecks (reg_delete name) w)
  /\ reg_get name (reg_delete name (unloadChecks w)) = None
  /\ (forall other, other <> name ->
        reg_get other (reg_delete name (unloadChecks w))
        = reg_get other (unloadChecks w))
  /\ (reg_get name (unloadChecks w) = None ->
      reg_delete name (unloadChecks w) = unloadChecks w).
Proof.
  intros Ht. split; [|split; [|split]].
  - by apply unloadCheck_remove_eq.
  - apply reg_get_delete_eq.
  - intros other Hne. by apply reg_get_delete_ne.
  - apply reg_delete_absent.
Qed.


(** ** The handler on checks that return a fixed text *)

Lemma insert_by_index_constant (n : N) (k s : string)
    (l : list (N * (string * string))) :
  map snd (insert_by_index n (k, fun e : Env => (s, e))
             (map (fun '(m, (k', s')) => (m, (k', fun e : Env => (s', e)))) l))
  = constant_checks (map snd (insert_by_index n (k, s) l)).
Proof.
  induction l as [|[m [k' s']] l IH]; cbn [insert_by_index map]; [done|].
  destruct (n <? m)%N; cbn [map snd constant_checks].
  - f_equal. f_equal. clear. induction l as [|[m' [k'' s'']] l IH]; [done|].
    cbn [map snd constant_checks]. by rewrite IH.
  - f_equal. exact IH.
Qed.

Lemma index_keys_constant (texts : list (string * string)) :
  index_keys (constant_checks (Env := Env) texts)
  = map (fun '(m, (k', s')) => (m, (k', fun e : Env => (s', e)))) (index_keys texts).
Proof.
  induction texts as [|[k s] rest IH]; cbn [constant_checks map index_keys]; [done|].
  fold (@constant_checks Env rest). cbn [fst]. rewrite IH.
  destruct (array_index k) as [n|]; [|done].
  clear. induction (index_keys rest) as [|[m [k' s']] l IH];
    cbn [insert_by_index map]; [done|].
  destruct (n <? m)%N; cbn [map]; [done|]. by rewrite IH.
Qed.

(** Enumeration does not look at what the properties hold. *)
Lemma for_in_constant (texts : list (string * string)) :
  for_in (constant_checks (Env := Env) texts) = constant_checks (for_in texts).
Proof.
  unfold for_in, constant_checks at 3. rewrite map_app. f_equal.
  - rewrite index_keys_constant. rewrite !map_map. apply map_ext.
    by intros [m [k s]].
  - induction texts as [|[k s] rest IH]; cbn [constant_checks map named_keys]; [done|].
    fold (@constant_checks Env rest). cbn [fst].
    destruct (array_index k); [exact IH|]. cbn [map]. by rewrite IH.
Qed.

Lemma reg_get_constant (name : string) (texts : list (string * string)) :
  reg_get name (constant_checks (Env := Env) texts)
  = (fun s => fun e : Env => (s, e)) <$> text_get name texts.
Proof.
  induction texts as [|[k s] rest IH]; [done|].
  cbn [constant_checks map reg_get text_get]. fold (@constant_checks Env rest).
  by destruct (String.eqb k name).
Qed.

Lemma unload_loop_constant (texts todo : list (string * string)) (e : Env) :
  exists log,
    unload_loop (constant_checks texts) (constant_checks todo) "" e []
    = (if constant_filter texts then constant_message todo else "", e, log).
Proof.
  unfold constant_filter.
  induction todo as [|[k s] rest IH]; cbn [constant_checks map unload_loop].
  - eexists. by destruct (text_get _ _) as [t|]; [destruct (truthy t)|].
  - fold (@constant_checks Env rest). destruct IH as (log & IH).
    cbn [constant_message foldr]. fold (constant_message rest).
    unfold hasOwnProperty. rewrite reg_get_constant.
    destruct (text_get "hasOwnProperty" texts) as [t|];
      cbn [fmap option_fmap option_map].
    + destruct (truthy t) eqn:Ht.
      * destruct (truthy s).
        -- rewrite unload_loop_acc, IH. eexists. by rewrite !append_assoc.
        -- rewrite unload_loop_acc, IH. by eexists.
      * rewrite unload_loop_acc, IH. by eexists.
    + destruct (truthy s).
      * rewrite unload_loop_acc, IH. eexists. by rewrite !append_assoc.
      * rewrite unload_loop_acc, IH. by eexists.
Qed.

Lemma constant_message_empty (texts : list (string * string)) :
  constant_message texts = "" <-> Forall (fun ks => snd ks = "") texts.
Proof.
  induction texts as [|[k s] rest IH]; cbn [constant_message foldr].
  - split; [constructor | done].
  - fold (constant_message rest). rewrite Forall_cons. cbn [snd].
    destruct (truthy s) eqn:Ht.
    + apply truthy_true in Ht. split.
      * intros [H _]%append_nil_inv. done.
      * intros [H _]. done.
    + apply truthy_false in Ht. rewrite IH. tauto.
Qed.

(** X5: when the checks return fixed texts, the handler returns the
    non-empty texts in the order of enumeration (keys that are array
    indices first, in ascending order, then the others as they were
    created), each followed by a line break, and leaves the page state
    alone.  It returns nothing exactly when every text is empty, or when a
    check is stored under [hasOwnProperty] and its text is empty: line 271
    then lets no entry pass. *)
Theorem onbeforeunload_constant_checks (has_event : bool)
    (texts : list (string * string)) (e : Env) :
  let r := onbeforeunload has_event (constant_checks texts) e in
  let msg := if constant_filter texts then constant_message (for_in texts)
             else "" in
  returned r = (if String.eqb msg "" then None else Some msg)
  /\ returnValue r = (if has_event then returned r else None)
  /\ env_after r = e
  /\ (returned r = None <->
      constant_filter texts = false \/ Forall (fun ks => snd ks = "") texts).
Proof.
  cbv zeta. unfold onbeforeunload. rewrite for_in_constant.
  destruct (unload_loop_constant texts (for_in texts) e) as (log & ->).
  assert (Forall (fun ks => snd ks = "") texts
          <-> constant_message (for_in texts) = "") as Hall.
  { rewrite constant_message_empty. by rewrite for_in_perm. }
  destruct (constant_filter texts).
  - destruct (String.eqb (constant_message (for_in texts)) "") eqn:E.
    + apply String.eqb_eq in E. cbn. split; [done|]. split; [by destruct has_event|].
      split; [done|]. split; [intros _; right; by apply Hall | done].
    + apply String.eqb_neq in E. cbn. repeat split; try done.
      intros [?|H]; [done|]. by apply Hall in H.
  - cbn. split; [done|]. split; [by destruct has_event|]. split; [done|].
    split; [by left | done].
Qed.

(** ** The slots of [pending] *)

Lemma first_free_le (p : list (option nat)) : first_free p <= length p.
Proof. induction p as [|[d|] p IH]; cbn; lia. Qed.

Lemma first_free_before (p : list (option nat)) j :
  j < first_free p -> exists d, p !! j = Some (Some d).
Proof.
  revert j. induction p as [|[d|] p IH]; intros j; cbn; try lia.
  destruct j as [|j]; [by exists d|]. intros H. apply IH. lia.
Qed.

Lemma first_free_hole (p : list (option nat)) :
  p !! first_free p = None \/ p !! first_free p = Some None.
Proof. induction p as [|[d|] p IH]; cbn; auto. Qed.

Lemma array_store_at i c (p : list (option nat)) :
  i <= length p -> array_store i c p !! i = Some (Some c).
Proof.
  intros Hi. unfold array_store. destruct (i <? length p) eqn:E.
  - apply Nat.ltb_lt in E. by apply list_lookup_insert_eq.
  - apply Nat.ltb_ge in E. assert (i = length p) as -> by lia.
    rewrite Nat.sub_diag. cbn [replicate app]. by apply list_lookup_middle.
Qed.

Lemma array_store_other i j c (p : list (option nat)) :
  i <= length p -> j <> i -> array_store i c p !! j = p !! j.
Proof.
  intros Hi Hne. unfold array_store. destruct (i <? length p) eqn:E.
  - by apply list_lookup_insert_ne.
  - apply Nat.ltb_ge in E. assert (i = length p) as -> by lia.
    rewrite Nat.sub_diag. cbn [replicate app].
    destruct (decide (j < length p)) as [Hlt|Hge].
    + by rewrite lookup_app_l.
    + rewrite !lookup_ge_None_2; [done|lia|rewrite length_app; cbn; lia].
Qed.

Lemma array_store_length i c (p : list (option nat)) :
  i <= length p -> length (array_store i c p) = max (length p) (S i).
Proof.
  intros Hi. unfold array_store. destruct (i <? length p) eqn:E.
  - apply Nat.ltb_lt in E. rewrite length_insert. lia.
  - apply Nat.ltb_ge in E. assert (i = length p) as -> by lia.
    rewrite Nat.sub_diag, length_app. cbn. lia.
Qed.

(** What [register] has done by line 63, whether it goes on to return or
    throws at line 73 or 77. *)
Lemma register_pending w c call :
  heap w !! c = Some call ->
  exists key,
    let w' := world_of (register c w) in
    uuid_shape uuid_template key = true
    /\ pending w' = array_store (first_free (pending w)) c (pending w)
    /\ heap w' = alter (set_unloadId (Some key)) c (heap w)
    /\ unloadChecks w' = reg_set key (pending_check call) (unloadChecks w)
    /\ (inherits (pipeName call) w = false -> exists r, register c w = Ret r w')
    /\ (inherits (pipeName call) w = true -> exists ex, register c w = Throw ex w').
Proof.
  intros H. destruct (register_eq_shape w c call H) as (key & n & ex & Hk & ->).
  cbv zeta. exists key.
  destruct (truthy (pipeName call)) eqn:Ht;
    [destruct (inherits (pipeName call) w) eqn:Hi|].
  - cbn [world_of]. repeat split; try done. intros _. by eexists.
  - cbn [world_of]. repeat split; try done. intros _. by eexists.
  - apply truthy_false in Ht. rewrite Ht.
    rewrite (inherits_ordinary "" w) by done.
    cbn [world_of]. repeat split; try done. intros _. by eexists.
Qed.

(** X6: [register] puts the call into the lowest slot of [pending] that is
    empty: every slot before it is taken, the slot itself was a hole or the
    end of the array, no other slot changes, and the array grows by one only
    when it had no hole.  This is so whether [register] returns, as it does
    unless [pipes[pipeName]] is answered by [Object.prototype], or throws
    at line 73 or 77. *)
Theorem register_takes_first_free_slot w c call :
  heap w !! c = Some call ->
  let w' := world_of (register c w) in
  let i := first_free (pending w) in
  (forall j, j < i -> exists d, pending w !! j = Some (Some d))
  /\ (pending w !! i = None \/ pending w !! i = Some None)
  /\ pending w' !! i = Some (Some c)
  /\ (forall j, j <> i -> pending w' !! j = pending w !! j)
  /\ length (pending w') = max (length (pending w)) (S i)
  /\ (inherits (pipeName call) w = false -> exists r, register c w = Ret r w').
Proof.
  intros H.
  destruct (register_pending w c call H) as (key & _ & Hp & _ & _ & Hret & _).
  cbv zeta. rewrite Hp.
  pose proof (first_free_le (pending w)) as Hle.
  split; [apply first_free_before|]. split; [apply first_free_hole|].
  split; [by apply array_store_at|].
  split; [intros j Hj; by apply array_store_other|].
  split; [by apply array_store_length | exact Hret].
Qed.

(** X7: no event makes the array [pending] shorter: a slot that is given up
    stays as a hole. *)
Theorem pending_never_shrinks (evs : list (Event Env)) w :
  length (pending w) <= length (pending (run evs w)).
Proof.
  apply frame_run; try done.
  - intros w1 w2 w3. lia.
  - intros w0 c. cbn [pending set_pending]. by rewrite array_delete_length.
  - intros w0 i c _. cbn [pending set_pending]. unfold array_store.
    destruct (i <? _); [by rewrite length_insert|]. rewrite length_app. lia.
Qed.

Lemma pending_distinct_exec (ev : Event Env) w :
  pending_ok w -> pending_distinct w -> pending_distinct (exec ev w).
Proof.
  intros Hok.
  destruct (match ev with
            | ERegister args => negb (negb (a_readOnly args) && svc_readOnly w)
            | _ => false
            end) eqn:Hopen.
  - destruct ev as [| args | | | | | |]; try done.
    apply negb_true_iff in Hopen. intros Hd. cbn [exec].
    destruct (Call_register_open args w Hopen) as (key & k & ex & _ & ->). cbv zeta.
    pose proof (first_free_le (pending w)) as Hle.
    assert (forall j, pending w !! j <> Some (Some (length (heap w)))) as Hfresh.
    { intros j Hj. apply Hok in Hj. lia. }
    assert (pending_distinct
              (set_pending (array_store (first_free (pending w)) (length (heap w)))
                 w)) as Hd'.
    { intros i j c. cbn [pending set_pending].
      destruct (decide (i = first_free (pending w))) as [->|Hi];
        destruct (decide (j = first_free (pending w))) as [->|Hj]; try done.
      - rewrite array_store_at, array_store_other by done.
        intros [= <-] H. by destruct (Hfresh j).
      - rewrite array_store_at, array_store_other by done.
        intros H [= <-]. by destruct (Hfresh i).
      - rewrite !array_store_other by done. apply Hd. }
    destruct (truthy _); [destruct (inherits _ _); [|destruct (1 <? _)]|]; exact Hd'.
  - revert Hopen. intros Hopen. apply frame_exec_other; try done.
    + intros w1 w2 w3 H12 H23 H1. by apply H23, H12.
    + intros w0 c Hd i j d Hi Hj. apply array_delete_lookup in Hi, Hj.
      by eapply Hd.
    + destruct ev; try done. by apply negb_false_iff in Hopen.
Qed.

(** X8: in every state a fresh service can reach, a call sits in at most
    one slot of [pending]. *)
Theorem pending_holds_no_call_twice (rnd : nat -> N) (evs : list (Event Env))
    (i j c : nat) :
  let w := run evs (init rnd) in
  pending w !! i = Some (Some c) -> pending w !! j = Some (Some c) -> i = j.
Proof.
  cbv zeta.
  assert (forall w : World Env, pending_ok w -> pending_distinct w ->
            pending_distinct (run evs w)) as H.
  { induction evs as [|ev evs IH]; intros w Hok Hd; [done|].
    cbn [run foldl]. apply IH; [by apply pending_ok_exec|].
    by apply pending_distinct_exec. }
  apply H; intros ? ? *; done.
Qed.

(** ** [isClean] *)

Lemma isClean_slots w : isClean w = forallb (slot_clean (heap w)) (pending w).
Proof. reflexivity. Qed.

Lemma forallb_same {A} (f g : A -> bool) (l : list A) :
  (forall x, f x = g x) -> forallb f l = forallb g l.
Proof. intros H. induction l as [|x l IH]; [done|]. cbn. by rewrite H, IH. Qed.

Lemma array_store_cons i c x (p : list (option nat)) :
  array_store (S i) c (x :: p) = x :: array_store i c p.
Proof.
  unfold array_store. cbn [length].
  change (S i <? S (length p)) with (i <? length p).
  destruct (i <? length p); [done|]. by rewrite Nat.sub_succ.
Qed.

Lemma forallb_store_first_free (f : option nat -> bool) c (p : list (option nat)) :
  f None = true ->
  forallb f (array_store (first_free p) c p) = forallb f p && f (Some c).
Proof.
  intros Hf. induction p as [|[d|] p IH].
  - cbn. by rewrite andb_true_r.
  - cbn [first_free]. rewrite array_store_cons. cbn [forallb].
    by rewrite IH, andb_assoc.
  - cbn. rewrite Hf. cbn. apply andb_comm.
Qed.

Lemma slot_clean_alter (g : CallObj -> CallObj) c (h : list CallObj) slot :
  (forall o, readOnly (g o) = readOnly o) ->
  slot_clean (alter g c h) slot = slot_clean h slot.
Proof.
  intros Hg. destruct slot as [d|]; [|done]. cbn [slot_clean].
  destruct (decide (c = d)) as [->|Hne].
  - rewrite list_lookup_alter_eq. destruct (h !! d); cbn; [apply Hg | done].
  - by rewrite list_lookup_alter_ne.
Qed.

Lemma forallb_slot_clean_app (h : list CallObj) o (p : list (option nat)) :
  (forall i c, p !! i = Some (Some c) -> c < length h) ->
  forallb (slot_clean (h ++ [o])) p = forallb (slot_clean h) p.
Proof.
  induction p as [|slot p IH]; intros Hok; [done|]. cbn [forallb].
  rewrite IH by (intros i c; apply (Hok (S i))). f_equal.
  destruct slot as [c|]; [|done]. cbn [slot_clean].
  rewrite lookup_app_l; [done|]. by apply (Hok 0).
Qed.

Lemma forallb_array_delete (f : option nat -> bool) c (p : list (option nat)) :
  f None = true -> forallb f p = true -> forallb f (array_delete c p) = true.
Proof.
  intros Hf Hp. unfold array_delete. destruct (inArray c p) as [i|]; [|done].
  apply forallb_forall. intros x Hx. apply list_elem_of_In in Hx.
  apply list_elem_of_lookup in Hx as [j Hj].
  destruct (decide (i = j)) as [->|Hne].
  - apply list_lookup_insert_Some in Hj as [(_ & <- & _)|(? & _)]; done.
  - rewrite list_lookup_insert_ne in Hj by done.
    rewrite forallb_forall in Hp. apply Hp, list_elem_of_In.
    by eapply list_elem_of_lookup_2.
Qed.

(** X9: after [register], whether it returned or threw, [isClean] is what
    it was before if the call is read-only, and false if it is not. *)
Theorem isClean_after_register w c call :
  heap w !! c = Some call ->
  isClean (world_of (register c w)) = isClean w && readOnly call.
Proof.
  intros H.
  destruct (register_pending w c call H) as (key & _ & Hp & Hh & _).
  rewrite !isClean_slots, Hp, Hh.
  rewrite forallb_store_first_free by done.
  assert (forall slot, slot_clean (alter (set_unloadId (Some key)) c (heap w)) slot
                       = slot_clean (heap w) slot) as Hs.
  { intros slot. by apply slot_clean_alter. }
  rewrite Hs. cbn [slot_clean]. rewrite H. cbn. f_equal.
  apply forallb_same. intros slot. apply Hs.
Qed.

(** X10: in a state a fresh service can reach, a service that is clean
    stays clean under every event except the admission of a call that is
    not read-only: settling, abandoning and rejecting at the gate never make
    it unclean. *)
Theorem only_admission_makes_unclean (rnd : nat -> N) (evs : list (Event Env))
    (ev : Event Env) :
  let w := run evs (init rnd) in
  isClean w = true ->
  match ev with
  | ERegister args => a_readOnly args = true \/ svc_readOnly w = true
  | _ => True
  end ->
  isClean (exec ev w) = true.
Proof.
  intros w Hclean Hev.
  pose proof (pending_ok_run rnd evs) as Hok. fold w in Hok.
  destruct (match ev with
            | ERegister args => a_readOnly args
            | _ => false
            end) eqn:Hro.
  - destruct ev as [| args | | | | | |]; try done. cbn [exec].
    assert (negb (a_readOnly args) && svc_readOnly w = false) as Hg
      by (by rewrite Hro).
    destruct (Call_register_open args w Hg) as (key & k & ex & _ & ->). cbv zeta.
    assert (isClean
              (set_heap (alter (set_unloadId (Some key)) (length (heap w)))
                 (set_unloadChecks (reg_set key (pending_check (new_call args)))
                    (set_rand_next k
                       (set_pending
                          (array_store (first_free (pending w)) (length (heap w)))
                          (set_heap (fun h => h ++ [new_call args]) w)))))
            = true) as Hc.
    { rewrite isClean_slots.
      cbn [heap pending set_heap set_unloadChecks set_rand_next set_pending].
      rewrite forallb_store_first_free by done.
      rewrite (forallb_same _ (slot_clean (heap w ++ [new_call args])))
        by (intros slot; by apply slot_clean_alter).
      rewrite forallb_slot_clean_app by exact Hok.
      rewrite <- isClean_slots, Hclean. cbn [andb slot_clean].
      rewrite list_lookup_alter_eq, list_lookup_middle by done.
      exact Hro. }
    destruct (truthy _); [destruct (inherits _ _); [|destruct (1 <? _)]|]; exact Hc.
  - assert (pending_ok (exec ev w) /\ isClean (exec ev w) = true) as [_ H];
      [|exact H].
    revert Hok Hclean.
    assert (forall w1 w2 : World Env,
              heap w2 = heap w1 -> pending w2 = pending w1 ->
              pending_ok w1 -> isClean w1 = true ->
              pending_ok w2 /\ isClean w2 = true) as Hsame.
    { intros w1 w2 Hh Hp Hok1 Hc1. unfold pending_ok. rewrite isClean_slots.
      rewrite Hh, Hp. by split. }
    apply frame_exec_other.
    + auto.
    + intros w1 w2 w3 H12 H23 Hok1 Hc1.
      destruct (H12 Hok1 Hc1) as [Hok2 Hc2]. by apply H23.
    + intros w0 key n check _. by apply Hsame.
    + intros w0 c Hok0 Hc0. split.
      * intros i d Hd. apply array_delete_lookup in Hd. by eapply Hok0.
      * rewrite isClean_slots. cbn [heap pending set_pending].
        by apply forallb_array_delete.
    + intros w0 g c Hg Hok0 Hc0. split.
      * intros i d Hd. cbn [heap set_heap]. rewrite length_alter. by eapply Hok0.
      * rewrite isClean_slots. cbn [heap pending set_heap].
        rewrite (forallb_same _ (slot_clean (heap w0))); [exact Hc0|].
        intros slot. apply slot_clean_alter. intros o. apply Hg.
    + intros w0 o Hok0 Hc0. split.
      * intros i d Hd. cbn [heap set_heap]. rewrite length_app.
        apply Hok0 in Hd. lia.
      * rewrite isClean_slots. cbn [heap pending set_heap].
        by rewrite forallb_slot_clean_app.
    + intros w0 n l _. by apply Hsame.
    + intros w0 n c rest r _ _. by apply Hsame.
    + intros w0 b. by apply Hsame.
    + destruct ev as [| args | | | | | |]; try done.
      destruct Hev as [Hev|Hev]; [congruence|]. by rewrite Hro, Hev.
Qed.

(** ** Deregistration *)

(** [deregister] for a call that carries the key of its check. *)
Lemma deregister_eq_key w c call k :
  heap w !! c = Some call -> unloadId call = Some k -> truthy k = true ->
  deregister c w =
    let w1 := set_unloadChecks (reg_delete k) w in
    if truthy (pipeName call) then
      match pipes w !! pipeName call with
      | None => Throw (no_pipe (pipeName call)) w1
      | Some pipe =>
          let w2 := set_pipes <[pipeName call := tail pipe]> w1 in
          match tail pipe with
          | next :: _ =>
              match heap w !! next with
              | Some o =>
                  Ret tt (set_pending (array_delete c)
                            (set_sent (fun s => s ++ [mkRequest next (method o) true (url o) (data o)]) w2))
              | None => Throw (TypeError "no such call object") w2
              end
          | [] => Ret tt (set_pending (array_delete c) w2)
          end
      end
    else Ret tt (set_pending (array_delete c) w1).
Proof.
  intros H Hk Ht.
  destruct (deregister_eq w c call H) as (key & n & _ & Heq).
  unfold deregister, with_call in *. rewrite H in *.
  unfold bind at 1 in Heq. unfold bind at 1.
  rewrite Hk, (unloadCheck_remove_eq k w Ht).
  cbv zeta. unfold bind, gets, modify, throw, ret.
  destruct (truthy (pipeName call)); [|done].
  unfold pipes_read, no_pipe. cbn [pipes set_unloadChecks].
  destruct (pipes w !! pipeName call) as [pipe|];
    [|by destruct (object_prototype (pipeName call))].
  destruct (tail pipe) as [|next rest]; [done|].
  unfold makeRequest, with_call, modify.
  cbn [heap set_pipes set_unloadChecks].
  by destruct (heap w !! next).
Qed.

Lemma deregister_registry w c call k :
  heap w !! c = Some call -> unloadId call = Some k -> truthy k = true ->
  unloadChecks (world_of (deregister c w)) = reg_delete k (unloadChecks w).
Proof.
  intros H Hk Ht. rewrite (deregister_eq_key w c call k H Hk Ht). cbv zeta.
  destruct (truthy (pipeName call)); [|done].
  destruct (pipes w !! pipeName call) as [pipe|]; [|done].
  destruct (tail pipe) as [|next rest]; [done|].
  by destruct (heap w !! next).
Qed.

(** X11: [register], whether it returns or throws, leaves on the call the
    key under which its check is stored; the check answers
    "Pending: method: url" and leaves the page state alone; a later
    [deregister] of the call removes the check, whether it returns or
    throws. *)
Theorem register_then_deregister_check w c call :
  heap w !! c = Some call ->
  exists key,
    let w1 := world_of (register c w) in
    truthy key = true
    /\ unloadId <$> heap w1 !! c = Some (Some key)
    /\ reg_get key (unloadChecks w1) = Some (pending_check call)
    /\ (forall e : Env, pending_check call e
                  = ("Pending: " +:+ method call +:+ ": " +:+ url call, e))
    /\ reg_get key (unloadChecks (world_of (deregister c w1))) = None.
Proof.
  intros H.
  destruct (register_pending w c call H) as (key & Hs & _ & Hh & Hreg & _).
  exists key. cbv zeta in *.
  set (w1 := world_of (register c w)) in *. clearbody w1.
  pose proof (uuid_shape_truthy key Hs) as Hk.
  split; [exact Hk|].
  assert (heap w1 !! c = Some (set_unloadId (Some key) call)) as Hc
    by (by rewrite Hh, list_lookup_alter_eq, H).
  split; [by rewrite Hc|].
  split; [rewrite Hreg; by apply reg_get_set_eq, uuid_shape_own|].
  split; [done|].
  rewrite (deregister_registry w1 c _ key Hc eq_refl Hk).
  apply reg_get_delete_eq.
Qed.

(** [deregister] on a call whose pipe has a member behind the head. *)
Lemma deregister_advances w c call h next rest onext :
  heap w !! c = Some call ->
  truthy (pipeName call) = true ->
  pipes w !! pipeName call = Some (h :: next :: rest) ->
  heap w !! next = Some onext ->
  exists w',
    deregister c w = Ret tt w'
    /\ heap w' = heap w
    /\ pipes w' = <[pipeName call := next :: rest]> (pipes w)
    /\ sent w' = sent w ++ [mkRequest next (method onext) true (url onext) (data onext)]
    /\ pending w' = array_delete c (pending w).
Proof.
  intros H Ht Hp Hn.
  destruct (deregister_eq w c call H) as (key & n & _ & ->). cbv zeta.
  rewrite Ht, Hp. cbn [tail]. rewrite Hn. by eexists.
Qed.

(** [deregister] on a call that names no pipe. *)
Lemma deregister_unpiped w c call :
  heap w !! c = Some call ->
  pipeName call = "" ->
  exists w',
    deregister c w = Ret tt w'
    /\ heap w' = heap w /\ pipes w' = pipes w /\ sent w' = sent w
    /\ pending w' = array_delete c (pending w).
Proof.
  intros H Hn.
  destruct (deregister_eq w c call H) as (key & n & _ & ->). cbv zeta.
  rewrite Hn. cbn. by eexists.
Qed.

Lemma lookup_alter_static (g : CallObj -> CallObj) c (h : list CallObj) d o :
  (forall o', call_evolves o' (g o')) ->
  h !! d = Some o ->
  exists o', alter g c h !! d = Some o'
             /\ method o' = method o /\ url o' = url o /\ data o' = data o
             /\ pipeName o' = pipeName o.
Proof.
  intros Hg Hd. destruct (decide (c = d)) as [->|Hne].
  - exists (g o). rewrite list_lookup_alter_eq, Hd.
    destruct (Hg o) as (?&?&?&?&?&_). done.
  - exists o. by rewrite list_lookup_alter_ne.
Qed.

(** X12: when the [success] callback of a call in flight fires and the call
    heads a pipe with another member behind it, the promise is fulfilled
    with the response, the call leaves the pipe and its slot, and the next
    member is handed to the transport in the same step. *)
Theorem success_of_head_dispatches_next w c o next rest onext response :
  heap w !! c = Some o -> abandoned o = false -> promise o = Unsettled ->
  was_sent c w = true ->
  truthy (pipeName o) = true ->
  pipes w !! pipeName o = Some (c :: next :: rest) ->
  heap w !! next = Some onext ->
  let w' := exec (ESuccess c response) w in
  heap w' = alter (set_promise (Fulfilled response)) c (heap w)
  /\ pipes w' = <[pipeName o := next :: rest]> (pipes w)
  /\ sent w' = sent w ++ [mkRequest next (method onext) true (url onext) (data onext)]
  /\ pending w' = array_delete c (pending w).
Proof.
  intros Ho Hab Hpr Hs Ht Hp Hn. cbv zeta. cbn [exec]. rewrite Hs.
  unfold on_success, with_call. rewrite Ho, Hab.
  unfold fulfill, settle, with_call. rewrite Ho, Hpr.
  unfold bind, modify.
  set (w1 := set_heap _ w).
  destruct (lookup_alter_static (set_promise (Fulfilled response)) c (heap w)
              next onext) as (on1 & Hn1 & Hm & Hu & Hd & _); [by repeat split|done|].
  assert (heap w1 !! c = Some (set_promise (Fulfilled response) o)) as Hc.
  { subst w1. cbn [heap set_heap]. by rewrite list_lookup_alter_eq, Ho. }
  destruct (deregister_advances w1 c _ c next rest on1 Hc Ht Hp Hn1)
    as (w' & -> & Hh & Hpp & Hss & Hpe).
  cbn [world_of]. rewrite Hh, Hpp, Hss, Hpe, Hm, Hu, Hd. done.
Qed.

(** X13: when the [error] callback of a call in flight that names no pipe
    fires, the promise is smashed with "status: body", the call leaves its
    slot, and neither pipes nor requests change. *)
Theorem error_rejects_with_status_and_body w c o textStatus responseText :
  heap w !! c = Some o -> abandoned o = false -> promise o = Unsettled ->
  was_sent c w = true ->
  pipeName o = "" ->
  let w' := exec (EError c textStatus responseText) w in
  heap w' = alter (set_promise (Smashed (textStatus +:+ ": " +:+ responseText)))
                  c (heap w)
  /\ pipes w' = pipes w /\ sent w' = sent w
  /\ pending w' = array_delete c (pending w).
Proof.
  intros Ho Hab Hpr Hs Hn. cbv zeta. cbn [exec]. rewrite Hs.
  unfold on_error, with_call. rewrite Ho, Hab.
  unfold smash, settle, with_call. rewrite Ho, Hpr.
  unfold bind, modify.
  set (w1 := set_heap _ w).
  assert (heap w1 !! c
          = Some (set_promise (Smashed (textStatus +:+ ": " +:+ responseText)) o))
    as Hc.
  { subst w1. cbn [heap set_heap]. by rewrite list_lookup_alter_eq, Ho. }
  destruct (deregister_unpiped w1 c _ Hc Hn)
    as (w' & -> & Hh & Hpp & Hss & Hpe).
  cbn [world_of]. by rewrite Hh, Hpp, Hss, Hpe.
Qed.

(** X14: [call.abandon()] marks the call, leaves its promise as it is, and
    deregisters it: the head of the pipe the call names is shifted off,
    whichever call that is, and the member behind it is handed to the
    transport. *)
Theorem call_abandon_shifts_the_head w c o h next rest onext :
  heap w !! c = Some o ->
  truthy (pipeName o) = true ->
  pipes w !! pipeName o = Some (h :: next :: rest) ->
  heap w !! next = Some onext ->
  exists w',
    call_abandon c w = Ret tt w'
    /\ heap w' = alter (set_abandoned true) c (heap w)
    /\ promise <$> heap w' !! c = Some (promise o)
    /\ pipes w' = <[pipeName o := next :: rest]> (pipes w)
    /\ sent w' = sent w ++ [mkRequest next (method onext) true (url onext) (data onext)]
    /\ pending w' = array_delete c (pending w).
Proof.
  intros Ho Ht Hp Hn. unfold call_abandon, bind, modify.
  set (w1 := set_heap _ w).
  destruct (lookup_alter_static (set_abandoned true) c (heap w) next onext)
    as (on1 & Hn1 & Hm & Hu & Hd & _); [by repeat split|done|].
  assert (heap w1 !! c = Some (set_abandoned true o)) as Hc.
  { subst w1. cbn [heap set_heap]. by rewrite list_lookup_alter_eq, Ho. }
  destruct (deregister_advances w1 c _ h next rest on1 Hc Ht Hp Hn1)
    as (w' & -> & Hh & Hpp & Hss & Hpe).
  exists w'. split; [done|]. rewrite Hh, Hpp, Hss, Hpe, Hm, Hu, Hd, Hc. done.
Qed.

(** ** The sweep of [abandon] *)

(** X15: when no call in [pending] has the given method and url,
    [abandon] returns and changes nothing. *)
Theorem abandon_without_match_does_nothing (m u : string) w :
  (forall i c, pending w !! i = Some (Some c) ->
     exists o, heap w !! c = Some o
               /\ String.eqb (method o) m && String.eqb (url o) u = false) ->
  abandon m u w = Ret tt w.
Proof.
  intros Hno. unfold abandon, bind, gets.
  generalize (length (pending w)) at 1. intros fuel. generalize 0.
  induction fuel as [|fuel IH]; intros i; [done|].
  rewrite abandon_from_S. destruct (i <? length (pending w)); [|done].
  assert (abandon_at i m u w = Ret tt w) as ->; [|apply IH].
  unfold abandon_at, bind, gets.
  destruct (pending w !! i) as [[c|]|] eqn:E; try done.
  destruct (Hno i c E) as (o & Ho & Hm).
  unfold with_call. by rewrite Ho, Hm.
Qed.

(** ** First in, first out *)

(** X16: calls that name one pipe, none of them with priority, handed to
    [register] one after the other queue up behind the members there were,
    in that order; [register] answers [proceed] to the first if the pipe was
    empty and [delay] to every other.  (The pipe is an array of the service
    or not yet known: [pipes[p]] is not answered by [Object.prototype].) *)
Theorem pipe_is_first_in_first_out (p : string) (cs : list nat) w :
  truthy p = true ->
  inherits p w = false ->
  Forall (fun c => exists o, heap w !! c = Some o
                             /\ pipeName o = p /\ prioritize o = false) cs ->
  let pipe := default [] (pipes w !! p) in
  exists rs w',
    register_each cs w = Ret rs w'
    /\ default [] (pipes w' !! p) = pipe ++ cs
    /\ rs = map (fun i => if 0 <? length pipe + i then delay else proceed)
                (seq 0 (length cs)).
Proof.
  intros Hp Hinh Hall. revert w Hinh Hall.
  induction cs as [|c cs IH]; intros w Hinh Hall; cbv zeta.
  - exists [], w. split; [done|]. by rewrite app_nil_r.
  - apply Forall_cons in Hall as [(o & Ho & Hname & Hprio) Hall].
    cbn [register_each]. unfold bind at 1.
    destruct (register_eq w c o Ho) as (key & n & ex & _ & ->). cbv zeta.
    rewrite Hname, Hp, Hinh, Hprio, enqueued_plain.
    set (pipe := default [] (pipes w !! p)).
    set (w2 := set_pipes _ _).
    assert (pipes w2 !! p = Some (pipe ++ [c])) as Hp2
      by (subst w2; cbn [pipes set_pipes]; apply lookup_insert_eq).
    destruct (IH w2) as (rs & w' & Heq & Hpipe & Hrs).
    { by eapply inherits_own. }
    { eapply Forall_impl; [exact Hall|]. intros d (od & Hd & Hn & Hq).
      subst w2. cbn [heap set_pipes set_heap set_unloadChecks set_rand_next set_pending].
      destruct (decide (c = d)) as [->|Hne].
      - rewrite list_lookup_alter_eq, Hd. by eexists.
      - rewrite list_lookup_alter_ne by done. by eexists. }
    rewrite Hp2 in Hpipe, Hrs. cbn [default from_option id] in Hpipe, Hrs.
    unfold bind. rewrite Heq. eexists _, w'. split; [reflexivity|].
    split; [by rewrite Hpipe, <- app_assoc|].
    cbn [length seq map]. rewrite Nat.add_0_r. f_equal.
    + rewrite length_app. cbn [length].
      destruct (length pipe); [done|]. cbn. by destruct n0.
    + rewrite Hrs, <- seq_shift, map_map. apply map_ext. intros i.
      rewrite length_app. cbn [length]. by replace (length pipe + 1 + i)
        with (length pipe + S i) by lia.
Qed.

(** ** What a rejection at the gate does to a pipe *)

(** X17: a call rejected at the gate was never registered, yet smashing its
    promise runs [deregister] on it: when the call names a pipe that has a
    member behind its head, [Call] shifts that head off the pipe and hands
    the member behind it to the transport. *)
Theorem gate_rejection_shifts_named_pipe (args : CallArgs) w
    (h next : nat) (rest : list nat) (onext : CallObj) :
  svc_readOnly w = true -> a_readOnly args = false ->
  truthy (pipeName (new_call args)) = true ->
  pipes w !! pipeName (new_call args) = Some (h :: next :: rest) ->
  heap w !! next = Some onext ->
  exists w',
    Call args w = Ret (length (heap w)) w'
    /\ heap w' = heap w ++ [set_promise (Smashed gate_message) (new_call args)]
    /\ pending w' = array_delete (length (heap w)) (pending w)
    /\ pipes w' = <[pipeName (new_call args) := next :: rest]> (pipes w)
    /\ sent w' = sent w ++ [mkRequest next (method onext) true (url onext) (data onext)].
Proof.
  intros Hgate Hro Ht Hp Hn.
  unfold Call. rewrite Call_through_eq. cbv zeta. rewrite Hro, Hgate. cbn [negb andb].
  unfold smash, settle, with_call. cbn [heap set_heap].
  rewrite list_lookup_middle by done. cbn [promise new_call]. fold (new_call args).
  unfold bind, modify.
  set (w1 := set_heap _ (set_heap _ w)).
  assert (heap w1 = heap w ++ [set_promise (Smashed gate_message) (new_call args)])
    as Hh1 by (subst w1; cbn [heap set_heap]; apply alter_last).
  assert (heap w1 !! length (heap w)
          = Some (set_promise (Smashed gate_message) (new_call args))) as Hc
    by (rewrite Hh1; by apply list_lookup_middle).
  assert (heap w1 !! next = Some onext) as Hn1.
  { rewrite Hh1, lookup_app_l; [done|]. by eapply lookup_lt_Some. }
  destruct (deregister_advances w1 _ _ h next rest onext Hc Ht Hp Hn1)
    as (w' & -> & Hh & Hpp & Hss & Hpe).
  exists w'. split; [done|]. by rewrite Hh, Hpp, Hss, Hpe.
Qed.

(** ** Relations [deregister] respects as a whole *)

Section Frame2.

Variable R : World Env -> World Env -> Prop.
Hypothesis R_refl : forall w, R w w.
Hypothesis R_trans : forall w1 w2 w3, R w1 w2 -> R w2 w3 -> R w1 w3.
Hypothesis R_checks : forall w key n (check : option (Producer Env)),
  truthy key = true ->
  R w (set_unloadChecks (match check with
                         | None => reg_delete key
                         | Some f => reg_set key f
                         end) (set_rand_next n w)).
Hypothesis R_alter : forall w g c,
  (forall o, call_evolves o (g o)) -> R w (set_heap (alter g c) w).
Hypothesis R_alloc : forall w o, R w (set_heap (fun h => h ++ [o]) w).
Hypothesis R_gate : forall w b, R w (set_svc_readOnly b w).
Hypothesis R_deregister : forall w c, R w (world_of (deregister c w)).

Lemma frame2_settle c s w : R w (world_of (settle c s (deregister c) w)).
Proof.
  unfold settle, with_call.
  destruct (heap w !! c) as [call|]; [|apply R_refl].
  destruct (promise call); try apply R_refl.
  unfold bind, modify.
  eapply R_trans; [|apply R_deregister].
  apply R_alter. intros o. by repeat split.
Qed.

Lemma frame2_call_abandon c w : R w (world_of (call_abandon c w)).
Proof.
  unfold call_abandon, bind, modify.
  eapply R_trans; [|apply R_deregister].
  apply R_alter. intros o. by repeat split.
Qed.

Lemma frame2_abandon_at i m u w : R w (world_of (abandon_at i m u w)).
Proof.
  unfold abandon_at. apply (frame_bind R R_trans); [apply R_refl|].
  intros slot w1. destruct slot as [[c|]|]; try apply R_refl.
  unfold with_call. destruct (heap w1 !! c) as [call|]; [|apply R_refl].
  destruct (_ && _); [apply frame2_call_abandon | apply R_refl].
Qed.

Lemma frame2_abandon m u w : R w (world_of (abandon m u w)).
Proof.
  unfold abandon, bind, gets. generalize (length (pending w)) at 1.
  intros fuel. generalize 0. revert w.
  induction fuel as [|fuel IH]; intros w i; [apply R_refl|].
  rewrite abandon_from_S. destruct (i <? length (pending w)); [|apply R_refl].
  pose proof (frame2_abandon_at i m u w) as Hat.
  destruct (abandon_at i m u w) as [[] w'|e w']; [|exact Hat].
  eapply R_trans; [exact Hat | apply IH].
Qed.

Lemma frame2_gated (callee : nat -> M Env Outcome) args w :
  negb (a_readOnly args) && svc_readOnly w = true ->
  R w (world_of (Call_through callee args w)).
Proof.
  intros Hg. rewrite Call_through_eq. cbv zeta. rewrite Hg.
  eapply R_trans; [apply (R_alloc w (new_call args))|].
  pose proof (frame2_settle (length (heap w)) (Smashed gate_message)
                (set_heap (fun h => h ++ [new_call args]) w)) as Hs.
  change (settle ?c (Smashed ?r) (deregister ?c)) with (smash (Env := Env) c r) in Hs.
  by destruct (smash _ _ _).
Qed.

Lemma frame2_exec_other (ev : Event Env) w :
  match ev with
  | ERegister args => negb (a_readOnly args) && svc_readOnly w = true
  | _ => True
  end ->
  R w (exec ev w).
Proof.
  destruct ev as [args|args|b|m u|c response|c ts rt|c|name check];
    cbn [exec]; intros Hev.
  - destruct (negb (a_readOnly args) && svc_readOnly w) eqn:Hg.
    + by apply frame2_gated.
    + unfold Call. rewrite Call_through_eq. cbv zeta. rewrite Hg.
      apply R_alloc.
  - by apply frame2_gated.
  - apply R_gate.
  - apply frame2_abandon.
  - destruct (was_sent c w); [|apply R_refl].
    unfold on_success, with_call.
    destruct (heap w !! c) as [call|]; [|apply R_refl].
    destruct (abandoned call); [apply R_refl | apply frame2_settle].
  - destruct (was_sent c w); [|apply R_refl].
    unfold on_error, with_call.
    destruct (heap w !! c) as [call|]; [|apply R_refl].
    destruct (abandoned call); [apply R_refl | apply frame2_settle].
  - apply R_deregister.
  - destruct (unloadCheck_eq name check w) as (key & n & Hk & _ & ->).
    by apply R_checks.
Qed.

End Frame2.

(** ** No request is made twice *)

Lemma deregister_fields w c :
  let w' := world_of (deregister c w) in
  heap w' = heap w
  /\ (pending w' = pending w \/ pending w' = array_delete c (pending w))
  /\ (sent w' = sent w \/
      exists name pipe next r,
        pipes w !! name = Some pipe /\ pipe !! 1 = Some next
        /\ req_call r = next /\ sent w' = sent w ++ [r]).
Proof.
  cbv zeta. destruct (heap w !! c) as [call|] eqn:H.
  2: { unfold deregister, with_call. rewrite H. cbn. auto. }
  destruct (deregister_eq w c call H) as (key & n & _ & ->). cbv zeta.
  destruct (truthy (pipeName call)); [|cbn; auto].
  destruct (pipes w !! pipeName call) as [pipe|] eqn:Hp; [|cbn; auto].
  destruct (tail pipe) as [|next rest] eqn:Ht; [cbn; auto|].
  destruct (heap w !! next) as [o|]; [|cbn; auto].
  cbn [world_of heap pending sent set_pending set_sent set_pipes
       set_unloadChecks set_rand_next].
  split; [done|]. split; [by right|]. right.
  eexists _, pipe, next, _. split; [exact Hp|]. split; [|split; [|done]]; [|done].
  destruct pipe as [|h pipe]; [done|]. cbn in Ht. by subst.
Qed.

Lemma sent_once_deregister w c :
  pipes_ok w -> sent_once w -> sent_once (world_of (deregister c w)).
Proof.
  intros Hok Hs. unfold sent_once in *.
  destruct (deregister_fields w c) as (_ & _ & [->|(n & pipe & next & r & Hp & Hn & Hr & ->)]);
    [done|].
  rewrite map_app. cbn [map]. rewrite Hr.
  apply NoDup_app. split; [done|]. split; [|apply NoDup_singleton].
  intros x Hx ->%list_elem_of_singleton.
  apply was_sent_elem in Hx. by rewrite (ok_waiting _ Hok n pipe 0 next Hp Hn) in Hx.
Qed.

Lemma sent_once_exec (ev : Event Env) w :
  pipes_ok w -> sent_once w -> sent_once (exec ev w).
Proof.
  destruct (match ev with
            | ERegister args => negb (negb (a_readOnly args) && svc_readOnly w)
            | _ => false
            end) eqn:Hopen.
  - destruct ev as [| args | | | | | |]; try done.
    apply negb_true_iff in Hopen. intros Hok Hs. unfold sent_once in *.
    destruct (Call_register_effect args w Hopen) as (_ & _ & _ & ->).
    destruct (truthy _ && _); [by rewrite app_nil_r|].
    apply NoDup_app. split; [done|]. split; [|apply NoDup_singleton].
    intros x Hx ->%list_elem_of_singleton.
    apply was_sent_elem, (ok_sent _ Hok) in Hx. lia.
  - intros Hok Hs.
    assert (pipes_ok (exec ev w) /\ sent_once (exec ev w)) as [_ H]; [|exact H].
    revert Hok Hs.
    assert (forall w1 w2 : World Env,
              pipes_ok w2 -> sent w2 = sent w1 ->
              sent_once w1 -> pipes_ok w2 /\ sent_once w2) as Hsame.
    { intros w1 w2 Hok2 Hs2 Hs1. split; [done|]. unfold sent_once. by rewrite Hs2. }
    apply frame2_exec_other.
    + auto.
    + intros w1 w2 w3 H12 H23 Hok1 Hs1.
      destruct (H12 Hok1 Hs1) as [Hok2 Hs2]. by apply H23.
    + intros w0 key n check Hk Hok0 Hs0. apply (Hsame w0); try done.
      eapply pipes_ok_frame; [| | |exact Hok0]; try done. eauto.
    + intros w0 g c Hg Hok0 Hs0. apply (Hsame w0); try done.
      eapply pipes_ok_frame; [| | |exact Hok0]; try done.
      intros d o Hd. destruct (ext_heap _ _ (extends_alter w0 g c Hg) d o Hd)
        as (o' & Ho' & Hev). exists o'. split; [done|]. apply Hev.
    + intros w0 o Hok0 Hs0. apply (Hsame w0); try done.
      eapply pipes_ok_frame; [| | |exact Hok0]; try done.
      intros d o1 Hd. destruct (ext_heap _ _ (extends_alloc w0 o) d o1 Hd)
        as (o' & Ho' & Hev). exists o'. split; [done|]. apply Hev.
    + intros w0 b Hok0 Hs0. apply (Hsame w0); try done.
      eapply pipes_ok_frame; [| | |exact Hok0]; try done. eauto.
    + intros w0 c Hok0 Hs0. split.
      * apply (pipes_ok_exec (EDeregister c) w0 Hok0).
      * by apply sent_once_deregister.
    + destruct ev; try done. by apply negb_false_iff in Hopen.
Qed.

(** X18: in every state a fresh service can reach, no call has been handed
    to the transport more than once. *)
Theorem no_request_is_made_twice (rnd : nat -> N) (evs : list (Event Env)) :
  NoDup (map req_call (sent (run evs (init rnd)))).
Proof.
  assert (forall w : World Env, pipes_ok w -> sent_once w ->
            sent_once (run evs w)) as H.
  { induction evs as [|ev evs IH]; intros w Hok Hs; [done|].
    cbn [run foldl]. apply IH; [by apply pipes_ok_exec|].
    by apply sent_once_exec. }
  apply H; [apply pipes_ok_init | apply NoDup_nil_2].
Qed.

(** ** The state every reachable service is in *)

Lemma pipe_known_exec (ev : Event Env) w :
  pending_ok w -> pipe_known w -> pipe_known (exec ev w).
Proof.
  intros Hok.
  destruct (match ev with
            | ERegister args => negb (negb (a_readOnly args) && svc_readOnly w)
            | _ => false
            end) eqn:Hopen.
  - destruct ev as [| args | | | | | |]; try done.
    apply negb_true_iff in Hopen. intros Hk. cbn [exec].
    destruct (Call_register_open args w Hopen) as (key & k & ex & _ & ->). cbv zeta.
    set (c := length (heap w)). set (call := new_call args).
    pose proof (first_free_le (pending w)) as Hle.
    assert (forall (w' : World Env) (pp : gmap string (list nat)),
      pending w' = array_store (first_free (pending w)) c (pending w) ->
      heap w' = alter (set_unloadId (Some key)) c (heap w ++ [call]) ->
      pipes w' = pp ->
      (forall n, is_Some (pipes w !! n) -> is_Some (pp !! n)) ->
      (truthy (pipeName call) = true -> object_prototype (pipeName call) = None ->
       is_Some (pp !! pipeName call)) ->
      pipe_known w') as Hgen.
    { intros w' pp Hp Hh Hpp Hmono Hnew i d o Hi Hd Ht Hpr. rewrite Hpp.
      rewrite Hp in Hi. rewrite Hh in Hd.
      apply array_store_lookup in Hi as [->|Hi].
      - rewrite list_lookup_alter_eq, list_lookup_middle in Hd by done.
        injection Hd as <-. by apply Hnew.
      - pose proof (Hok _ _ Hi) as Hlt.
        rewrite list_lookup_alter_ne, lookup_app_l in Hd by (subst c; lia).
        apply Hmono. by eapply Hk. }
    destruct (truthy (pipeName call)) eqn:Ht;
      [destruct (inherits (pipeName call) w) eqn:Hi|].
    + cbn [world_of].
      eapply (Hgen _ (pipes w)); [reflexivity | reflexivity | reflexivity | done |].
      intros _ Hpr. apply inherits_true in Hi as (_ & v & Hv). congruence.
    + assert (forall n (l : list nat), is_Some (pipes w !! n) ->
                is_Some (<[pipeName call := l]> (pipes w) !! n)) as Hins.
      { intros n l Hn. destruct (decide (pipeName call = n)) as [<-|Hne].
        - rewrite lookup_insert_eq. by eexists.
        - by rewrite lookup_insert_ne. }
      destruct (1 <? _); cbn [world_of];
        (eapply (Hgen _ (<[pipeName call := _]> (pipes w)));
         [reflexivity | reflexivity | reflexivity
         | intros n; apply Hins
         | intros _ _; rewrite lookup_insert_eq; by eexists]).
    + cbn [world_of].
      eapply (Hgen _ (pipes w)); [reflexivity | reflexivity | reflexivity | done | done].
  - intros Hk.
    assert (pending_ok (exec ev w) /\ pipe_known (exec ev w)) as [_ H]; [|exact H].
    revert Hok Hk.
    assert (forall w1 w2 : World Env,
              heap w2 = heap w1 -> pending w2 = pending w1 -> pipes w2 = pipes w1 ->
              pending_ok w1 -> pipe_known w1 ->
              pending_ok w2 /\ pipe_known w2) as Hsame.
    { intros w1 w2 Hh Hp Hpp Hok1 Hk1. unfold pending_ok, pipe_known.
      rewrite Hh, Hp, Hpp. by split. }
    apply frame2_exec_other.
    + auto.
    + intros w1 w2 w3 H12 H23 Hok1 Hk1.
      destruct (H12 Hok1 Hk1) as [Hok2 Hk2]. by apply H23.
    + intros w0 key n check _. by apply Hsame.
    + intros w0 g c Hg Hok0 Hk0. split.
      * intros i d Hd. cbn [heap set_heap]. rewrite length_alter. by eapply Hok0.
      * intros i d o Hi Hd Ht Hpr. cbn [heap pending pipes set_heap] in *.
        rewrite list_lookup_alter in Hd.
        destruct (decide (c = d)) as [->|Hne].
        -- destruct (heap w0 !! d) as [o0|] eqn:E; [|done].
           cbn in Hd. injection Hd as <-.
           destruct (Hg o0) as (_&_&_&_&Hn&_). rewrite Hn in *.
           by eapply Hk0.
        -- by eapply Hk0.
    + intros w0 o Hok0 Hk0. split.
      * intros i d Hd. cbn [heap set_heap]. rewrite length_app.
        apply Hok0 in Hd. lia.
      * intros i d o1 Hi Hd Ht Hpr. cbn [heap pending pipes set_heap] in *.
        rewrite lookup_app_l in Hd by (by eapply Hok0). by eapply Hk0.
    + intros w0 b. by apply Hsame.
    + intros w0 c Hok0 Hk0. split.
      * apply (pending_ok_exec (EDeregister c) w0 Hok0).
      * destruct (deregister_fields w0 c) as (Hh & Hp & _).
        intros i d o Hi Hd Ht Hpr. rewrite Hh in Hd.
        apply (ext_pipes _ _ (extends_exec (EDeregister c) w0)).
        destruct Hp as [Hp|Hp]; rewrite Hp in Hi.
        -- by eapply Hk0.
        -- apply array_delete_lookup in Hi. by eapply Hk0.
    + destruct ev; try done. by apply negb_false_iff in Hopen.
Qed.

Lemma service_ok_exec (ev : Event Env) w : service_ok w -> service_ok (exec ev w).
Proof.
  intros [H1 H2 H3 H4]. split.
  - by apply pipes_ok_exec.
  - by apply pending_ok_exec.
  - by apply pending_distinct_exec.
  - by apply pipe_known_exec.
Qed.

Lemma service_ok_run rnd (evs : list (Event Env)) : service_ok (run evs (init rnd)).
Proof.
  assert (forall w : World Env, service_ok w -> service_ok (run evs w)) as H.
  { induction evs as [|ev evs IH]; intros w Hok; [done|].
    cbn [run foldl]. apply IH. by apply service_ok_exec. }
  apply H. split; [apply pipes_ok_init|..]; intros ? ? *; done.
Qed.

(** ** The sweep of [abandon] in a reachable state *)

Lemma inArray_Some c (p : list (option nat)) i :
  p !! i = Some (Some c) ->
  (forall j, p !! j = Some (Some c) -> j = i) ->
  inArray c p = Some i.
Proof.
  revert i. induction p as [|x p IH]; intros i Hi Huniq; [done|].
  cbn [inArray]. destruct (decide (x = Some c)) as [->|Hne].
  - by rewrite (Huniq 0 eq_refl).
  - destruct i as [|i]; [cbn in Hi; congruence|].
    rewrite (IH i); [done|exact Hi|].
    intros j Hj. specialize (Huniq (S j) Hj). lia.
Qed.

Lemma call_abandon_returns w c o i :
  service_ok w ->
  pending w !! i = Some (Some c) ->
  heap w !! c = Some o ->
  object_prototype (pipeName o) = None ->
  exists w',
    call_abandon c w = Ret tt w'
    /\ heap w' = alter (set_abandoned true) c (heap w)
    /\ pending w' = <[i := None]> (pending w).
Proof.
  intros [Hpo _ Hd Hk] Hi Ho Hpr. unfold call_abandon, bind, modify.
  set (w1 := set_heap _ w).
  assert (heap w1 !! c = Some (set_abandoned true o)) as Hc.
  { subst w1. cbn [heap set_heap]. by rewrite list_lookup_alter_eq, Ho. }
  destruct (deregister_eq w1 c _ Hc) as (key & n & _ & ->). cbv zeta.
  change (pipeName (set_abandoned true o)) with (pipeName o).
  change (pipes w1) with (pipes w).
  assert (array_delete c (pending w) = <[i := None]> (pending w)) as Hdel.
  { unfold array_delete. rewrite (inArray_Some c _ i); [done|exact Hi|].
    intros j Hj. by eapply Hd. }
  destruct (truthy (pipeName o)) eqn:Ht.
  - destruct (Hk i c o Hi Ho Ht Hpr) as [pipe Hp]. rewrite Hp.
    destruct (tail pipe) as [|next rest] eqn:Htl.
    + eexists. split; [reflexivity|]. by split.
    + assert (next ∈ pipe) as Hin.
      { destruct pipe as [|h pipe]; [done|]. cbn in Htl. subst.
        apply elem_of_cons. right. apply elem_of_cons. by left. }
      destruct (ok_member _ Hpo _ _ _ Hp Hin) as (on & Hon & _).
      assert (is_Some (heap w1 !! next)) as [on1 ->].
      { subst w1. cbn [heap set_heap]. apply lookup_lt_is_Some.
        rewrite length_alter. by eapply lookup_lt_Some. }
      eexists. split; [reflexivity|]. by split.
  - eexists. split; [reflexivity|]. by split.
Qed.

Lemma service_ok_call_abandon w c :
  service_ok w -> service_ok (world_of (call_abandon c w)).
Proof.
  intros Hok. unfold call_abandon, bind, modify.
  apply (service_ok_exec (EDeregister c)).
  destruct Hok as [H1 H2 H3 H4]. split.
  - eapply pipes_ok_frame; [| | |exact H1]; try done.
    intros d o Hd.
    destruct (ext_heap _ _ (extends_alter w (set_abandoned true) c
                              (fun o => ltac:(by repeat split))) d o Hd)
      as (o' & Ho' & Hev). exists o'. split; [done|]. apply Hev.
  - intros i d Hd. cbn [heap set_heap]. rewrite length_alter. by eapply H2.
  - exact H3.
  - intros i d o Hi Hd Ht Hpr. cbn [heap pending pipes set_heap] in *.
    rewrite list_lookup_alter in Hd. destruct (decide (c = d)) as [->|Hne].
    + destruct (heap w !! d) as [o0|] eqn:E; [|done]. cbn in Hd.
      injection Hd as <-. by eapply (H4 i d o0).
    + by eapply H4.
Qed.

Lemma set_abandoned_idem (b : bool) (o : CallObj) :
  set_abandoned true (if b then set_abandoned true o else o) = set_abandoned true o.
Proof. by destruct b. Qed.

Lemma matches_static m u (b : bool) (o : CallObj) :
  matches m u (if b then set_abandoned true o else o) = matches m u o.
Proof. by destruct b. Qed.

(** The loop of [abandon], started at index [i] in a state that comes from
    [w0] by the iterations before [i]. *)
Lemma sweep_from (m u : string) (w0 : World Env) fuel i w :
  pending_ok w0 ->
  (forall j c o, pending w0 !! j = Some (Some c) -> heap w0 !! c = Some o ->
     matches m u o = true -> object_prototype (pipeName o) = None) ->
  i + fuel = length (pending w0) ->
  service_ok w ->
  pending w = map (swept m u (heap w0)) (take i (pending w0)) ++ drop i (pending w0) ->
  (forall c o, heap w0 !! c = Some o ->
     heap w !! c
     = Some (if matches m u o && bool_decide (Some c ∈ take i (pending w0))
             then set_abandoned true o else o)) ->
  exists w',
    abandon_from fuel i m u w = Ret tt w'
    /\ pending w' = map (swept m u (heap w0)) (pending w0)
    /\ forall c o, heap w0 !! c = Some o ->
         heap w' !! c
         = Some (if matches m u o && bool_decide (Some c ∈ pending w0)
                 then set_abandoned true o else o).
Proof.
  intros Hok0 Hord. revert i w.
  induction fuel as [|fuel IH]; intros i w Hfuel Hok Hp Hh.
  - exists w. split; [done|].
    rewrite take_ge, drop_ge, app_nil_r in Hp by lia.
    split; [done|]. intros c o Ho. specialize (Hh c o Ho).
    by rewrite take_ge in Hh by lia.
  - assert (i < length (pending w0)) as Hi by lia.
    assert (length (take i (pending w0)) = i) as Hlen
      by (rewrite length_take; lia).
    destruct (lookup_lt_is_Some_2 _ _ Hi) as [slot Hslot].
    rewrite (drop_S _ _ _ Hslot) in Hp.
    assert (pending w !! i = Some slot) as Hcur.
    { rewrite Hp. apply list_lookup_middle. by rewrite length_map. }
    assert (length (pending w) = length (pending w0)) as Hlenp.
    { rewrite Hp, length_app, length_map, Hlen. cbn [length].
      rewrite length_drop. lia. }
    rewrite abandon_from_S. rewrite Hlenp.
    replace (i <? length (pending w0)) with true by (symmetry; by apply Nat.ltb_lt).
    assert (forall c', slot <> Some c' ->
              bool_decide (Some c' ∈ take (S i) (pending w0))
              = bool_decide (Some c' ∈ take i (pending w0))) as Hmem.
    { intros c' Hne. apply bool_decide_ext.
      rewrite (take_S_r _ _ _ Hslot), elem_of_app, list_elem_of_singleton.
      split; [intros [?|?]; [done|congruence] | by left]. }
    assert (forall w1,
      service_ok w1 ->
      pending w1 = map (swept m u (heap w0)) (take i (pending w0))
                   ++ swept m u (heap w0) slot :: drop (S i) (pending w0) ->
      (forall c o, heap w0 !! c = Some o ->
         heap w1 !! c
         = Some (if matches m u o && bool_decide (Some c ∈ take (S i) (pending w0))
                 then set_abandoned true o else o)) ->
      exists w',
        abandon_from fuel (S i) m u w1 = Ret tt w'
        /\ pending w' = map (swept m u (heap w0)) (pending w0)
        /\ forall c o, heap w0 !! c = Some o ->
             heap w' !! c
             = Some (if matches m u o && bool_decide (Some c ∈ pending w0)
                     then set_abandoned true o else o)) as Hnext.
    { intros w1 Hok1 Hp1 Hh1. apply IH; [lia|done| |done].
      rewrite (take_S_r _ _ _ Hslot), map_app, <- app_assoc. exact Hp1. }
    destruct slot as [c|].
    + destruct (lookup_lt_is_Some_2 (heap w0) c (Hok0 _ _ Hslot)) as [o Ho].
      pose proof (Hh c o Ho) as Hc.
      assert (swept m u (heap w0) (Some c)
              = if matches m u o then None else Some c) as Hsw
        by (cbn [swept]; by rewrite Ho).
      rewrite Hsw in Hnext.
      assert (abandon_at i m u w
              = if matches m u o then call_abandon c w else Ret tt w) as ->.
      { unfold abandon_at, bind, gets, with_call. rewrite Hcur, Hc.
        change (String.eqb (method ?x) m && String.eqb (url ?x) u)
          with (matches m u x).
        rewrite matches_static. by destruct (matches m u o). }
      destruct (matches m u o) eqn:Hm.
      * destruct (call_abandon_returns w c _ i Hok Hcur Hc)
          as (w1 & Heq & Hh1 & Hp1).
        { rewrite <- (Hord i c o Hslot Ho Hm). by destruct (_ && _). }
        rewrite Heq. apply Hnext.
        -- replace w1 with (world_of (call_abandon c w)) by (by rewrite Heq).
           by apply service_ok_call_abandon.
        -- rewrite Hp1, Hp, insert_app_r_alt by (rewrite length_map; lia).
           by rewrite length_map, Hlen, Nat.sub_diag.
        -- intros c' o' Ho'. rewrite Hh1, list_lookup_alter.
           destruct (decide (c = c')) as [<-|Hne].
           ++ rewrite Hc. cbn [fmap option_fmap option_map].
              rewrite set_abandoned_idem. assert (o' = o) as -> by congruence.
              rewrite Hm. cbn [andb].
              rewrite bool_decide_eq_true_2; [done|].
              rewrite (take_S_r _ _ _ Hslot), elem_of_app, list_elem_of_singleton.
              by right.
           ++ rewrite (Hh c' o' Ho'), Hmem; [done|congruence].
      * apply Hnext; [done|done|].
        intros c' o' Ho'. rewrite (Hh c' o' Ho').
        destruct (decide (c = c')) as [<-|Hne].
        -- assert (o' = o) as -> by congruence. by rewrite Hm.
        -- rewrite Hmem; [done|congruence].
    + assert (abandon_at i m u w = Ret tt w) as ->.
      { unfold abandon_at, bind, gets. by rewrite Hcur. }
      apply Hnext; [done|done|].
      intros c' o' Ho'. rewrite (Hh c' o' Ho'), Hmem; done.
Qed.

(** X19: in every state a fresh service can reach in which no pending call
    with the given method and url names a pipe that [Object.prototype]
    answers for, [abandon(m, u)] returns; afterwards every slot of [pending]
    that held a call with that method and url is a hole and the call is
    marked abandoned, with its promise as it was; every other slot and
    every other call object is as before. *)
Theorem abandon_sweeps_every_match (rnd : nat -> N) (evs : list (Event Env))
    (m u : string) :
  let w := run evs (init rnd) in
  (forall i c o, pending w !! i = Some (Some c) -> heap w !! c = Some o ->
     matches m u o = true -> object_prototype (pipeName o) = None) ->
  exists w',
    abandon m u w = Ret tt w'
    /\ pending w' = map (swept m u (heap w)) (pending w)
    /\ forall c o, heap w !! c = Some o ->
         heap w' !! c
         = Some (if matches m u o && bool_decide (Some c ∈ pending w)
                 then set_abandoned true o else o).
Proof.
  intros w Hord. pose proof (service_ok_run rnd evs) as Hok. fold w in Hok.
  unfold abandon, bind, gets.
  apply (sweep_from m u w (length (pending w)) 0 w); try done.
  - apply Hok.
  - intros c o Ho. rewrite Ho. cbn [take].
    rewrite bool_decide_eq_false_2 by apply not_elem_of_nil.
    by rewrite andb_false_r.
Qed.

(** ** [pipeLength] against [register] and [deregister] *)

(** X20: for a call that names a pipe which is an array of the service or
    not yet known, [register] raises what [pipeLength] reports for that
    pipe by one (from 0 for a pipe not yet known), and [deregister] lowers
    it by one, down to 0, where the pipe stays known.  For a name that
    [Object.prototype] answers for, [pipeLength] reports the [length] of
    what is found there, before and after [register] and [deregister],
    which throw. *)
Theorem pipeLength_follows_register_and_deregister w c call :
  heap w !! c = Some call ->
  truthy (pipeName call) = true ->
  (inherits (pipeName call) w = false ->
   exists r w',
     register c w = Ret r w'
     /\ pipeLength (pipeName call) w'
        = Ret (Some (S (length (default [] (pipes w !! pipeName call))))) w')
  /\ (forall pipe, pipes w !! pipeName call = Some pipe ->
        let w' := world_of (deregister c w) in
        pipeLength (pipeName call) w' = Ret (Some (length pipe - 1)) w')
  /\ (forall v, pipes_read (pipeName call) w = FromPrototype v ->
        let w1 := world_of (register c w) in
        let w2 := world_of (deregister c w) in
        pipeLength (pipeName call) w = Ret (inherited_length v) w
        /\ pipeLength (pipeName call) w1 = Ret (inherited_length v) w1
        /\ pipeLength (pipeName call) w2 = Ret (inherited_length v) w2).
Proof.
  intros H Ht. split; [|split].
  - intros Hinh.
    destruct (register_eq w c call H) as (key & n & ex & _ & ->). cbv zeta.
    rewrite Ht, Hinh. eexists _, _. split; [reflexivity|].
    unfold pipeLength, bind, gets, ret, pipes_read. cbn [pipes set_pipes].
    by rewrite lookup_insert_eq, enqueued_length.
  - intros pipe Hp. cbv zeta.
    destruct (deregister_eq w c call H) as (key & n & _ & ->). cbv zeta.
    rewrite Ht, Hp.
    assert (length (tail pipe) = length pipe - 1) as Hlen
      by (destruct pipe; cbn; lia).
    destruct (tail pipe) as [|next rest] eqn:Htl;
      [|destruct (heap w !! next)];
      unfold pipeLength, bind, gets, ret, pipes_read;
      cbn [world_of pipes set_pending set_sent set_pipes];
      by rewrite lookup_insert_eq, <- Hlen.
  - intros v Hv. cbv zeta.
    assert (inherits (pipeName call) w = true) as Hinh
      by (unfold inherits; by rewrite Hv).
    assert (forall w' : World Env, pipes w' = pipes w ->
              pipeLength (pipeName call) w' = Ret (inherited_length v) w') as Hsame.
    { intros w' Hw'. unfold pipeLength, bind, gets.
      replace (pipes_read (pipeName call) w') with (FromPrototype v); [done|].
      rewrite <- Hv. unfold pipes_read. by rewrite Hw'. }
    split; [by apply Hsame|].
    destruct (register_eq w c call H) as (key & n & ex & _ & ->).
    destruct (deregister_eq w c call H) as (key' & n' & _ & ->). cbv zeta.
    rewrite Ht, Hinh. apply inherits_true in Hinh as (-> & _).
    split; by apply Hsame.
Qed.

(** ** The warning while a call is pending *)

Lemma uuid_shape_not_hasOwnProperty (s : string) :
  uuid_shape uuid_template s = true -> String.eqb s "hasOwnProperty" = false.
Proof.
  intros Hs. apply String.eqb_neq. intros ->. discriminate Hs.
Qed.

(** X21: on a fresh service, once a call has been registered and sent, the
    [onbeforeunload] handler returns "Pending: method: url" and a line
    break; after the [success] callback of the call it returns nothing.
    (The call names no pipe, or one [Object.prototype] does not answer
    for.) *)
Theorem handler_warns_while_call_is_pending (rnd : nat -> N) (args : CallArgs)
    (response : string) (e : Env) :
  object_prototype (pipeName (new_call args)) = None ->
  let call := new_call args in
  let w1 := exec (ERegister args) (init rnd) in
  let w2 := exec (ESuccess 0 response) w1 in
  returned (onbeforeunload true (unloadChecks w1) e)
    = Some ("Pending: " +:+ method call +:+ ": " +:+ url call +:+ LF)
  /\ returned (onbeforeunload true (unloadChecks w2) e) = None.
Proof.
  intros Hord. cbv zeta.
  assert (negb (a_readOnly args) && svc_readOnly (init (Env := Env) rnd) = false)
    as Hg by apply andb_false_r.
  change (exec (ERegister args) (init rnd))
    with (world_of (Call_register args (init (Env := Env) rnd))).
  destruct (Call_register_open_shape args (init rnd) Hg) as (key & k & ex & Hs & ->).
  pose proof (uuid_shape_truthy key Hs) as Hk.
  cbv zeta. rewrite (inherits_ordinary _ _ Hord).
  cbn [init Service loaded pipes heap length pending unloadChecks].
  rewrite lookup_empty. cbn [default from_option id].
  rewrite enqueued_empty. cbn [length Nat.ltb Nat.leb first_free].
  set (call := new_call args).
  set (w1 := world_of _).
  assert (unloadChecks w1 = [(key, pending_check call)]
          /\ heap w1 = [set_unloadId (Some key) call]
          /\ was_sent 0 w1 = true) as (Hreg & Hh & Hsent).
  { subst w1.
    assert (reg_set (Env := Env) key (pending_check call) []
            = [(key, pending_check call)]) as Hset by (by rewrite reg_set_ordinary by (by apply uuid_shape_own)).
    destruct (truthy (pipeName call));
      cbn [world_of unloadChecks heap set_sent set_pipes set_heap
           set_unloadChecks set_rand_next set_pending].
    all: change (unloadChecks (init rnd)) with (@nil (string * Producer Env));
      rewrite Hset; done. }
  clearbody w1. split.
  - rewrite Hreg. unfold onbeforeunload. rewrite for_in_singleton.
    cbn [unload_loop]. unfold hasOwnProperty. cbn [reg_get].
    rewrite (uuid_shape_not_hasOwnProperty key Hs). cbn [pending_check].
    assert (truthy ("Pending: " +:+ method call +:+ ": " +:+ url call) = true)
      as -> by reflexivity.
    change ("" +:+ ?x +:+ LF) with (x +:+ LF).
    rewrite !append_assoc. reflexivity.
  - cbn [exec]. rewrite Hsent. unfold on_success, with_call. rewrite Hh.
    cbn [lookup list_lookup abandoned set_unloadId].
    change (abandoned call) with false. cbn iota.
    unfold fulfill, settle, with_call. rewrite Hh.
    cbn [lookup list_lookup promise set_unloadId].
    change (promise call) with Unsettled. cbn iota.
    unfold bind, modify.
    rewrite (deregister_registry _ 0 (set_promise (Fulfilled response)
                                        (set_unloadId (Some key) call)) key);
      [|cbn [heap set_heap]; by rewrite Hh|done|done].
    cbn [unloadChecks set_heap]. rewrite Hreg. cbn [reg_delete].
    by rewrite String.eqb_refl.
Qed.

(** ** What never changes on a call object *)

(** X22: whatever happens, a call object keeps its url, method, data,
    read-only flag, pipe name, priority and async flag, and once it is
    marked abandoned it stays so. *)
Theorem call_object_keeps_what_it_was_made_with (evs : list (Event Env)) w c o :
  heap w !! c = Some o ->
  exists o',
    heap (run evs w) !! c = Some o'
    /\ url o' = url o /\ method o' = method o /\ data o' = data o
    /\ readOnly o' = readOnly o /\ pipeName o' = pipeName o
    /\ prioritize o' = prioritize o /\ async o' = async o
    /\ (abandoned o = true -> abandoned o' = true).
Proof.
  intros H. destruct (ext_heap _ _ (extends_run evs w) c o H) as (o' & Ho' & Hev).
  exists o'. split; [exact Ho'|]. exact Hev.
Qed.

End Further.

(** * The further properties on concrete inputs *)

Lemma unloadCheck_generates_name_witness :
  let w : World nat := init demo_rnd in
  falsy_name None = true
  /\ exists key,
       unloadCheck None (Some demo_silent) w
         = Ret (Some key)
               (set_unloadChecks (reg_set key demo_silent)
                  (set_rand_next (rand_next w + 31) w))
       /\ uuid_shape uuid_template key = true
       /\ reg_get key (reg_set key demo_silent (unloadChecks w))
          = Some demo_silent
       /\ forall other, other <> key ->
            reg_get other (reg_set key demo_silent (unloadChecks w))
            = reg_get other (unloadChecks w).
Proof.
  split; [reflexivity|].
  apply (unloadCheck_generates_name None demo_silent (init demo_rnd)).
  reflexivity.
Defined.

Lemma unloadCheck_removes_witness :
  let w : World nat :=
    world_of (unloadCheck (Some "a") (Some demo_silent) (init demo_rnd)) in
  truthy "a" = true
  /\ unloadCheck (Some "a") None w
       = Ret None (set_unloadChecks (reg_delete "a") w)
  /\ reg_get "a" (reg_delete "a" (unloadChecks w)) = None
  /\ (forall other, other <> "a" ->
        reg_get other (reg_delete "a" (unloadChecks w))
        = reg_get other (unloadChecks w))
  /\ (reg_get "a" (unloadChecks w) = None ->
      reg_delete "a" (unloadChecks w) = unloadChecks w).
Proof.
  split; [reflexivity|].
  apply (unloadCheck_removes "a"
           (world_of (unloadCheck (Some "a") (Some demo_silent) (init demo_rnd)))).
  reflexivity.
Defined.


Lemma register_takes_first_free_slot_witness :
  let w := demo_made in
  let w' := world_of (register 0 w) in
  let i := first_free (pending w) in
  heap w !! 0 = Some (call_at 0 w)
  /\ (forall j, j < i -> exists d, pending w !! j = Some (Some d))
  /\ (pending w !! i = None \/ pending w !! i = Some None)
  /\ pending w' !! i = Some (Some 0)
  /\ (forall j, j <> i -> pending w' !! j = pending w !! j)
  /\ length (pending w') = max (length (pending w)) (S i)
  /\ (inherits (pipeName (call_at 0 w)) w = false ->
      exists r, register 0 w = Ret r w').
Proof.
  split; [vm_compute; reflexivity|].
  apply (register_takes_first_free_slot demo_made 0 (call_at 0 demo_made)).
  vm_compute. reflexivity.
Defined.

Lemma pending_holds_no_call_twice_witness :
  let w : World unit :=
    run [ERegister (demo_args "/a" "GET" false);
         ERegister (demo_args "/b" "GET" false)] (init demo_rnd) in
  pending w !! 1 = Some (Some 1) /\ 1 = 1.
Proof.
  split; [vm_compute; reflexivity|].
  apply (pending_holds_no_call_twice (Env := unit) demo_rnd
           [ERegister (demo_args "/a" "GET" false);
            ERegister (demo_args "/b" "GET" false)] 1 1 1);
    vm_compute; reflexivity.
Defined.

Lemma isClean_after_register_witness :
  let w := demo_made in
  heap w !! 0 = Some (call_at 0 w)
  /\ isClean (world_of (register 0 w)) = isClean w && readOnly (call_at 0 w).
Proof.
  split; [vm_compute; reflexivity|].
  apply (isClean_after_register demo_made 0 (call_at 0 demo_made)).
  vm_compute. reflexivity.
Defined.

Lemma only_admission_makes_unclean_witness :
  let w : World unit := run [ERegister demo_readonly] (init demo_rnd) in
  isClean w = true
  /\ isClean (exec (ERegister demo_readonly) w) = true
  /\ isClean (exec (EAbandon "GET" "/r") w) = true.
Proof.
  split; [vm_compute; reflexivity|]. split.
  - apply (only_admission_makes_unclean (Env := unit) demo_rnd
             [ERegister demo_readonly] (ERegister demo_readonly));
      [vm_compute; reflexivity | left; reflexivity].
  - apply (only_admission_makes_unclean (Env := unit) demo_rnd
             [ERegister demo_readonly] (EAbandon "GET" "/r"));
      [vm_compute; reflexivity | exact I].
Defined.

Lemma register_then_deregister_check_witness :
  let w := demo_made in
  let call := call_at 0 w in
  heap w !! 0 = Some call
  /\ exists key,
       let w1 := world_of (register 0 w) in
       truthy key = true
       /\ unloadId <$> heap w1 !! 0 = Some (Some key)
       /\ reg_get key (unloadChecks w1) = Some (pending_check call)
       /\ (forall e : unit, pending_check call e
                     = ("Pending: " +:+ method call +:+ ": " +:+ url call, e))
       /\ reg_get key (unloadChecks (world_of (deregister 0 w1))) = None.
Proof.
  split; [vm_compute; reflexivity|].
  apply (register_then_deregister_check demo_made 0 (call_at 0 demo_made)).
  vm_compute. reflexivity.
Defined.

Lemma success_of_head_dispatches_next_witness :
  let w := demo_queue in
  let o := call_at 0 w in
  let onext := call_at 1 w in
  (heap w !! 0 = Some o /\ abandoned o = false /\ promise o = Unsettled
   /\ was_sent 0 w = true /\ truthy (pipeName o) = true
   /\ pipes w !! pipeName o = Some [0; 1; 2] /\ heap w !! 1 = Some onext)
  /\ let w' := exec (ESuccess 0 "done") w in
     heap w' = alter (set_promise (Fulfilled "done")) 0 (heap w)
     /\ pipes w' = <[pipeName o := [1; 2]]> (pipes w)
     /\ sent w' = sent w ++ [mkRequest 1 (method onext) true (url onext) (data onext)]
     /\ pending w' = array_delete 0 (pending w).
Proof.
  split; [repeat apply conj; vm_compute; reflexivity|].
  apply (success_of_head_dispatches_next demo_queue 0 (call_at 0 demo_queue)
           1 [2] (call_at 1 demo_queue) "done");
    vm_compute; reflexivity.
Defined.

Lemma error_rejects_with_status_and_body_witness :
  let w := demo_single in
  let o := call_at 0 w in
  (heap w !! 0 = Some o /\ abandoned o = false /\ promise o = Unsettled
   /\ was_sent 0 w = true /\ pipeName o = "")
  /\ let w' := exec (EError 0 "error" "gone") w in
     heap w' = alter (set_promise (Smashed ("error" +:+ ": " +:+ "gone")))
                     0 (heap w)
     /\ pipes w' = pipes w /\ sent w' = sent w
     /\ pending w' = array_delete 0 (pending w).
Proof.
  split; [repeat apply conj; vm_compute; reflexivity|].
  apply (error_rejects_with_status_and_body demo_single 0
           (call_at 0 demo_single) "error" "gone");
    vm_compute; reflexivity.
Defined.

Lemma call_abandon_shifts_the_head_witness :
  let w := demo_queue in
  let o := call_at 1 w in
  (heap w !! 1 = Some o /\ truthy (pipeName o) = true
   /\ pipes w !! pipeName o = Some [0; 1; 2])
  /\ exists w',
       call_abandon 1 w = Ret tt w'
       /\ heap w' = alter (set_abandoned true) 1 (heap w)
       /\ promise <$> heap w' !! 1 = Some (promise o)
       /\ pipes w' = <[pipeName o := [1; 2]]> (pipes w)
       /\ sent w' = sent w ++ [mkRequest 1 (method o) true (url o) (data o)]
       /\ pending w' = array_delete 1 (pending w).
Proof.
  split; [repeat apply conj; vm_compute; reflexivity|].
  apply (call_abandon_shifts_the_head demo_queue 1 (call_at 1 demo_queue)
           0 1 [2] (call_at 1 demo_queue));
    vm_compute; reflexivity.
Defined.

Lemma abandon_without_match_does_nothing_witness :
  pending demo_single = [Some 0]
  /\ abandon "POST" "/x" demo_single = Ret tt demo_single.
Proof.
  split; [vm_compute; reflexivity|].
  apply (abandon_without_match_does_nothing "POST" "/x" demo_single).
  intros i c H. exists (call_at 0 demo_single).
  destruct i as [|[|i]]; vm_compute in H; try discriminate H.
  injection H as <-. split; vm_compute; reflexivity.
Defined.

Lemma pipe_is_first_in_first_out_witness :
  let w := demo_made_two in
  (truthy "p" = true /\ inherits "p" w = false)
  /\ exists rs w',
       register_each [0; 1] w = Ret rs w'
       /\ default [] (pipes w' !! "p") = default [] (pipes w !! "p") ++ [0; 1]
       /\ rs = map (fun i => if 0 <? length (default [] (pipes w !! "p")) + i
                             then delay else proceed)
                   (seq 0 (length [0; 1])).
Proof.
  split; [split; vm_compute; reflexivity|].
  apply (pipe_is_first_in_first_out "p" [0; 1] demo_made_two);
    [reflexivity | vm_compute; reflexivity |].
  repeat constructor; eexists; vm_compute; repeat split; reflexivity.
Defined.

Lemma gate_rejection_shifts_named_pipe_witness :
  let w : World unit := set_svc_readOnly true demo_queue in
  let args := demo_args "/d" "POST" false in
  let onext := call_at 1 w in
  (svc_readOnly w = true /\ a_readOnly args = false
   /\ pipes w !! pipeName (new_call args) = Some [0; 1; 2]
   /\ heap w !! 1 = Some onext)
  /\ exists w',
       Call args w = Ret (length (heap w)) w'
       /\ heap w' = heap w ++ [set_promise (Smashed gate_message) (new_call args)]
       /\ pending w' = array_delete (length (heap w)) (pending w)
       /\ pipes w' = <[pipeName (new_call args) := [1; 2]]> (pipes w)
       /\ sent w' = sent w ++ [mkRequest 1 (method onext) true (url onext) (data onext)].
Proof.
  split; [repeat apply conj; vm_compute; reflexivity|].
  apply (gate_rejection_shifts_named_pipe (demo_args "/d" "POST" false)
           (set_svc_readOnly true demo_queue) 0 1 [2]
           (call_at 1 (set_svc_readOnly true demo_queue)));
    vm_compute; reflexivity.
Defined.

Lemma abandon_sweeps_every_match_witness :
  let evs := [ERegister (demo_args "/a" "GET" false);
              ERegister (demo_args "/b" "GET" false);
              ERegister (demo_args "/c" "GET" false)] in
  let w : World unit := run evs (init demo_rnd) in
  pending w = [Some 0; Some 1; Some 2]
  /\ exists w',
       abandon "GET" "/b" w = Ret tt w'
       /\ pending w' = map (swept "GET" "/b" (heap w)) (pending w)
       /\ forall c o, heap w !! c = Some o ->
            heap w' !! c
            = Some (if matches "GET" "/b" o && bool_decide (Some c ∈ pending w)
                    then set_abandoned true o else o).
Proof.
  split; [vm_compute; reflexivity|].
  apply (abandon_sweeps_every_match (Env := unit) demo_rnd
           [ERegister (demo_args "/a" "GET" false);
            ERegister (demo_args "/b" "GET" false);
            ERegister (demo_args "/c" "GET" false)] "GET" "/b").
  intros i c o Hi Ho _.
  destruct i as [|[|[|i]]]; vm_compute in Hi; try discriminate Hi;
    injection Hi as <-; vm_compute in Ho; injection Ho as <-; reflexivity.
Defined.

Lemma pipeLength_follows_register_and_deregister_witness :
  let w := demo_made in
  let call := call_at 0 w in
  (heap w !! 0 = Some call /\ truthy (pipeName call) = true
   /\ inherits (pipeName call) w = false)
  /\ exists r w',
       register 0 w = Ret r w'
       /\ pipeLength (pipeName call) w'
          = Ret (Some (S (length (default [] (pipes w !! pipeName call))))) w'.
Proof.
  split; [repeat apply conj; vm_compute; reflexivity|].
  apply (pipeLength_follows_register_and_deregister demo_made 0
           (call_at 0 demo_made)); vm_compute; reflexivity.
Defined.

Lemma handler_warns_while_call_is_pending_witness :
  let args := demo_args "/a" "GET" false in
  let w1 : World unit := exec (ERegister args) (init demo_rnd) in
  let w2 := exec (ESuccess 0 "done") w1 in
  object_prototype (pipeName (new_call args)) = None
  /\ returned (onbeforeunload true (unloadChecks w1) tt)
     = Some ("Pending: " +:+ "GET" +:+ ": " +:+ "/a" +:+ LF)
  /\ returned (onbeforeunload true (unloadChecks w2) tt) = None.
Proof.
  split; [reflexivity|].
  apply (handler_warns_while_call_is_pending (Env := unit) demo_rnd
           (demo_args "/a" "GET" false) "done" tt).
  reflexivity.
Defined.

Lemma call_object_keeps_what_it_was_made_with_witness :
  let w := demo_queue in
  let o := call_at 1 w in
  heap w !! 1 = Some o
  /\ exists o',
       heap (run [EAbandon "GET" "/b"; ESuccess 0 "done"] w) !! 1 = Some o'
       /\ url o' = url o /\ method o' = method o /\ data o' = data o
       /\ readOnly o' = readOnly o /\ pipeName o' = pipeName o
       /\ prioritize o' = prioritize o /\ async o' = async o
       /\ (abandoned o = true -> abandoned o' = true).
Proof.
  split; [vm_compute; reflexivity|].
  apply (call_object_keeps_what_it_was_made_with
           [EAbandon "GET" "/b"; ESuccess 0 "done"] demo_queue 1
           (call_at 1 demo_queue)).
  vm_compute; reflexivity.
Defined.
